(** * js-serialization: the encode/decode engine of [src/es/index.js]

    A shallow embedding of [quote], [toDataURL], [parseDataURL], [str],
    [JSSerialization.stringify] and [JSSerialization.parse], together with
    the host primitives they call ([String], [BigInt], [Number], [Date],
    [JSON.parse]), which are modelled after ECMA-262.

    Conventions.
    - A JavaScript string is its sequence of UTF-16 code units ([list N]).
    - A finite number is represented by its integer value, within the range
      of safe integers; [String] of such a number is its decimal numeral.
      Doubles with a fractional part or beyond that range, numerals with an
      exponent and negative zero are outside the embedding: where the code
      meets one, the model aborts with [Unmodelled].  So [space] is an
      integer when it is a number; the indent of an integer [space] is built
      without the host's limit on the length of a string.
    - Objects are association lists in property enumeration order; they are
      plain objects, whose prototype is [Object.prototype].
    - Hooks (function replacer, reviver, plugins) are pure functions.
    - There is no function value: values carry no function-valued property,
      so no [toJSON] method is found by [str], and a property read that
      would reach the prototype chain is [Unmodelled]. *)

From Stdlib Require Import ZArith NArith List Bool Lia Ascii.
From Stdlib Require String.
Import String.StringSyntax.
From Stdlib Require Import DecimalN.
Import ListNotations.

(** ** Strings as UTF-16 code units *)

Definition jsstring := list N.

(** An ASCII literal as a JavaScript string. *)
Definition lit (s : String.string) : jsstring :=
  map N_of_ascii (String.list_ascii_of_string s).

Arguments lit s%_string_scope.

Definition c_backspace : N := 8.
Definition c_tab       : N := 9.
Definition c_newline   : N := 10.
Definition c_formfeed  : N := 12.
Definition c_return    : N := 13.
Definition c_dquote    : N := 34.
Definition c_comma     : N := 44.
Definition c_colon     : N := 58.
Definition c_backslash : N := 92.

Definition jsstring_eqb (a b : jsstring) : bool :=
  if list_eq_dec N.eq_dec a b then true else false.

(** Is the string truthy? *)
Definition nonempty (s : jsstring) : bool :=
  match s with [] => false | _ => true end.

(** [s.split(sep)] for a one-unit separator: always at least one segment. *)
Fixpoint split (sep : N) (s : jsstring) : list jsstring :=
  match s with
  | [] => [[]]
  | c :: r =>
      if (c =? sep)%N then [] :: split sep r
      else match split sep r with
           | h :: t => (c :: h) :: t
           | [] => [[c]]
           end
  end.

(** [parts.join(sep)] *)
Fixpoint join (sep : jsstring) (parts : list jsstring) : jsstring :=
  match parts with
  | [] => []
  | [p] => p
  | p :: rest => p ++ sep ++ join sep rest
  end.

(** [s.slice(-k)]: the last [k] units of [s] (all of [s] when shorter). *)
Definition slice_last (k : nat) (s : jsstring) : jsstring :=
  skipn (length s - k) s.

(** ** Number to text *)

Fixpoint uint_units (d : Decimal.uint) : jsstring :=
  match d with
  | Decimal.Nil => []
  | Decimal.D0 d => 48%N :: uint_units d
  | Decimal.D1 d => 49%N :: uint_units d
  | Decimal.D2 d => 50%N :: uint_units d
  | Decimal.D3 d => 51%N :: uint_units d
  | Decimal.D4 d => 52%N :: uint_units d
  | Decimal.D5 d => 53%N :: uint_units d
  | Decimal.D6 d => 54%N :: uint_units d
  | Decimal.D7 d => 55%N :: uint_units d
  | Decimal.D8 d => 56%N :: uint_units d
  | Decimal.D9 d => 57%N :: uint_units d
  end.

(** [String(n)] for a non-negative integer: its decimal numeral. *)
Definition String_N (n : N) : jsstring := uint_units (N.to_uint n).

(** [String(z)] for an integer (a bigint, or an integral number below 1e21). *)
Definition String_Z (z : Z) : jsstring :=
  if (z <? 0)%Z then 45%N :: String_N (Z.abs_N z) else String_N (Z.to_N z).

Definition hex_digit (d : N) : N :=
  if (d <? 10)%N then (48 + d)%N else (87 + d)%N.

Fixpoint toString16_aux (fuel : nat) (n : N) (acc : jsstring) : jsstring :=
  match fuel with
  | O => acc
  | S fuel' =>
      if (n <? 16)%N then hex_digit n :: acc
      else toString16_aux fuel' (n / 16)%N (hex_digit (n mod 16)%N :: acc)
  end.

(** [n.toString(16)]: lower-case hexadecimal, no leading zero. *)
Definition toString16 (n : N) : jsstring :=
  toString16_aux (S (N.to_nat (N.log2 n))) n [].

(** ** Escaping: [rx_escapable], [meta], [quote] *)

Definition between (lo hi c : N) : bool := ((lo <=? c) && (c <=? hi))%N.

(** The character class of [rx_escapable]. *)
Definition rx_escapable (c : N) : bool :=
  (c =? c_backslash)%N || (c =? c_dquote)%N
  || between 0x0000 0x001f c || between 0x007f 0x009f c
  || (c =? 0x00ad)%N || between 0x0600 0x0604 c
  || (c =? 0x070f)%N || (c =? 0x17b4)%N || (c =? 0x17b5)%N
  || between 0x200c 0x200f c || between 0x2028 0x202f c
  || between 0x2060 0x206f c || (c =? 0xfeff)%N || between 0xfff0 0xffff c.

(** The table of character substitutions. *)
Definition meta : list (N * jsstring) :=
  [ (c_backspace, [c_backslash; 98%N]);
    (c_tab,       [c_backslash; 116%N]);
    (c_newline,   [c_backslash; 110%N]);
    (c_formfeed,  [c_backslash; 102%N]);
    (c_return,    [c_backslash; 114%N]);
    (c_dquote,    [c_backslash; c_dquote]);
    (c_backslash, [c_backslash; c_backslash]) ].

Fixpoint meta_lookup (tbl : list (N * jsstring)) (a : N) : option jsstring :=
  match tbl with
  | [] => None
  | (k, v) :: rest => if (a =? k)%N then Some v else meta_lookup rest a
  end.

(** The callback given to [string.replace] in [quote]. *)
Definition quote_replace (a : N) : jsstring :=
  match meta_lookup meta a with
  | Some c => c
  | None => [c_backslash; 117%N]
              ++ slice_last 4 (lit "0000" ++ toString16 a)
  end.

(** [string.replace(rx_escapable, f)]: the class matches one unit at a time
    and the expression is global, so every matching unit is replaced. *)
Definition replace_escapable (f : N -> jsstring) (s : jsstring) : jsstring :=
  flat_map (fun c => if rx_escapable c then f c else [c]) s.

Definition quote (s : jsstring) : jsstring :=
  if existsb rx_escapable s
  then [c_dquote] ++ replace_escapable quote_replace s ++ [c_dquote]
  else [c_dquote] ++ s ++ [c_dquote].

(** ** Tag codec: [toDataURL], [parseDataURL] *)

Definition toDataURL (type value : jsstring) : jsstring :=
  lit "data:" ++ type ++ [c_comma] ++ value.

(** The object returned by [parseDataURL]; [None] is [undefined]. *)
Record data_url := {
  url_type : option jsstring;
  url_value : option jsstring
}.

Definition parseDataURL (text : jsstring) : data_url :=
  let parts := split c_comma text in
  let type := nth 0 parts [] in
  let value := nth_error parts 1 in
  {| url_type := nth_error (split c_colon type) 1;
     url_value := value |}.

(** ** Values *)

Inductive number :=
| NaN
| Infinity
| NegInfinity
| Finite (z : Z).

Unset Elimination Schemes.

(** Runtime values.  A symbol is identified by a number; a [Date] holds its
    time value, [None] for an invalid date. *)
Inductive jsvalue :=
| VUndefined
| VNull
| VBoolean (b : bool)
| VNumber (n : number)
| VBigInt (z : Z)
| VString (s : jsstring)
| VSymbol (id : nat)
| VDate (t : option Z)
| VArray (elems : list jsvalue)
| VObject (fields : list (jsstring * jsvalue)).

Set Elimination Schemes.

Inductive jstype :=
| TUndefined | TObject | TBoolean | TNumber | TBigInt | TString | TSymbol
| TFunction.

Definition typeof (v : jsvalue) : jstype :=
  match v with
  | VUndefined => TUndefined
  | VNull => TObject
  | VBoolean _ => TBoolean
  | VNumber _ => TNumber
  | VBigInt _ => TBigInt
  | VString _ => TString
  | VSymbol _ => TSymbol
  | VDate _ | VArray _ | VObject _ => TObject
  end.

Definition jstype_eqb (a b : jstype) : bool :=
  match a, b with
  | TUndefined, TUndefined | TObject, TObject | TBoolean, TBoolean
  | TNumber, TNumber | TBigInt, TBigInt | TString, TString
  | TSymbol, TSymbol | TFunction, TFunction => true
  | _, _ => false
  end.

(** [ToBoolean] *)
Definition truthy (v : jsvalue) : bool :=
  match v with
  | VUndefined | VNull => false
  | VBoolean b => b
  | VNumber NaN => false
  | VNumber (Finite z) => negb (z =? 0)%Z
  | VNumber _ => true
  | VBigInt z => negb (z =? 0)%Z
  | VString s => nonempty s
  | VSymbol _ | VDate _ | VArray _ | VObject _ => true
  end.

(** The module-private [undefinedSymbol]. *)
Definition undefinedSymbol : jsvalue := VSymbol 0.

Definition is_undefinedSymbol (v : jsvalue) : bool :=
  match v with
  | VSymbol O => true
  | _ => false
  end.

Fixpoint assoc (fields : list (jsstring * jsvalue)) (key : jsstring)
  : option jsvalue :=
  match fields with
  | [] => None
  | (k, v) :: rest => if jsstring_eqb k key then Some v else assoc rest key
  end.

(** The index an array-index property name denotes, below [len]. *)
Definition index_of_key (len : nat) (key : jsstring) : option nat :=
  find (fun i => jsstring_eqb (String_N (N.of_nat i)) key) (seq 0 len).

(** [holder[key]] as the own properties of the holder decide it: own data
    properties, and [length] of arrays and strings; [undefined] when there
    is no such property.  [own_lookup] tells whether they do decide it. *)
Definition get (holder : jsvalue) (key : jsstring) : jsvalue :=
  match holder with
  | VObject fields =>
      match assoc fields key with Some v => v | None => VUndefined end
  | VArray elems =>
      if jsstring_eqb key (lit "length")
      then VNumber (Finite (Z.of_nat (length elems)))
      else match index_of_key (length elems) key with
           | Some i => nth i elems VUndefined
           | None => VUndefined
           end
  | VString s =>
      if jsstring_eqb key (lit "length")
      then VNumber (Finite (Z.of_nat (length s)))
      else match index_of_key (length s) key with
           | Some i => match nth_error s i with
                       | Some c => VString [c]
                       | None => VUndefined
                       end
           | None => VUndefined
           end
  | _ => VUndefined
  end.

(** The names of the properties a plain object inherits from
    [Object.prototype]. *)
Definition prototype_names : list jsstring :=
  [ lit "constructor"; lit "__defineGetter__"; lit "__defineSetter__";
    lit "hasOwnProperty"; lit "__lookupGetter__"; lit "__lookupSetter__";
    lit "isPrototypeOf"; lit "propertyIsEnumerable"; lit "toString";
    lit "valueOf"; lit "__proto__"; lit "toLocaleString" ].

(** Do the own properties of the holder decide [holder[key]]?  For an object:
    the key is an own property, or no inherited property has that name.  For
    an array: the key is [length] or an index below the length.  [str] reads
    from no other kind of holder. *)
Definition own_lookup (holder : jsvalue) (key : jsstring) : bool :=
  match holder with
  | VObject fields =>
      match assoc fields key with
      | Some _ => true
      | None => negb (existsb (jsstring_eqb key) prototype_names)
      end
  | VArray elems =>
      jsstring_eqb key (lit "length")
      || match index_of_key (length elems) key with
         | Some _ => true
         | None => false
         end
  | _ => false
  end.

Definition MAX_SAFE_INTEGER : Z := 9007199254740991.

(** ** Completions *)

Inductive abort :=
| RangeError      (* the call stack is exhausted *)
| TypeError
| SyntaxError
| StringifyError  (* [new Error('JSON.stringify')] *)
| Diverges        (* a loop that never ends *)
| Unmodelled.     (* a value or numeral outside the embedding *)

Inductive outcome (A : Type) :=
| Ok (a : A)
| Abort (e : abort).

Arguments Ok {A} a.
Arguments Abort {A} e.

Definition bind {A B} (m : outcome A) (k : A -> outcome B) : outcome B :=
  match m with
  | Ok a => k a
  | Abort e => Abort e
  end.

Notation "x <- m ;; k" := (bind m (fun x => k))
  (at level 61, m at next level, right associativity).

(** ** Hooks and plugins *)

(** [(this, key, value, raw, path) -> value] *)
Definition JSSerializationReplacer :=
  jsvalue -> jsstring -> jsvalue -> jsvalue -> list jsstring -> jsvalue.

(** [(key, value, raw, parsed) -> value] *)
Definition JSSerializationReviver :=
  jsstring -> jsvalue -> jsvalue -> option data_url -> jsvalue.

Record JSSerializationPlugin := {
  reviver : option JSSerializationReviver;
  replacer : option JSSerializationReplacer
}.

(** What a caller may pass as [replacer]: a function or any other value. *)
Inductive replacer_arg :=
| RFunction (f : JSSerializationReplacer)
| RValue (v : jsvalue).

Definition rep_truthy (r : replacer_arg) : bool :=
  match r with
  | RFunction _ => true
  | RValue v => truthy v
  end.

Definition rep_typeof (r : replacer_arg) : jstype :=
  match r with
  | RFunction _ => TFunction
  | RValue v => typeof v
  end.

(** [rep.length] and [rep[i]].  Every use sits behind a test that [rep] is
    an object, so the properties of a function are never consulted. *)
Definition rep_get (r : replacer_arg) (key : jsstring) : jsvalue :=
  match r with
  | RFunction _ => VUndefined
  | RValue v => get v key
  end.

(** ** The encoder: [str] *)

(** The module-level variables [indent], [rep] and [plugins], which stay
    fixed during one call of [stringify].  [gap] and [path] change along the
    recursion and are restored on the way back ([gap = mind], [path.pop()]),
    so they are passed as arguments. *)
Record context := {
  indent : jsstring;
  rep : replacer_arg;
  plugins : list JSSerializationPlugin
}.

(** [v || 'null'] *)
Definition or_null (v : option jsstring) : jsstring :=
  match v with
  | Some t => if nonempty t then t else lit "null"
  | None => lit "null"
  end.

(** The bound of [for (i = 0; i < length; i += 1)]. *)
Definition loop_bound (length : jsvalue) : outcome nat :=
  match length with
  | VNumber (Finite z) => Ok (Z.to_nat z)
  | VNumber Infinity => Abort Diverges
  | VNumber _ => Ok O
  | _ => Abort Unmodelled
  end.

(** Monadic loop over [0 .. n-1], collecting the pushed texts in order. *)
Fixpoint for_loop (i : nat) (n : nat) (body : nat -> outcome (list jsstring))
  : outcome (list jsstring) :=
  match n with
  | O => Ok []
  | S n' =>
      here <- body i ;;
      rest <- for_loop (S i) n' body ;;
      Ok (here ++ rest)
  end.

Fixpoint for_each (keys : list jsstring)
  (body : jsstring -> outcome (list jsstring)) : outcome (list jsstring) :=
  match keys with
  | [] => Ok []
  | k :: keys' =>
      here <- body k ;;
      rest <- for_each keys' body ;;
      Ok (here ++ rest)
  end.

(** The text of a container from the texts of its members. *)
Definition wrap (open close : N) (gap mind : jsstring)
  (partial : list jsstring) : jsstring :=
  match partial with
  | [] => [open; close]
  | _ =>
      if nonempty gap
      then [open; c_newline] ++ gap
             ++ join ([c_comma; c_newline] ++ gap) partial
             ++ [c_newline] ++ mind ++ [close]
      else [open] ++ join [c_comma] partial ++ [close]
  end.

(** [quote(k) + (gap ? ': ' : ':') + v] *)
Definition member (gap : jsstring) (k v : jsstring) : jsstring :=
  quote k ++ (if nonempty gap then [c_colon; 32%N] else [c_colon]) ++ v.

Definition apply_plugins (ps : list JSSerializationPlugin)
  (holder : jsvalue) (key : jsstring) (raw : jsvalue) (path : list jsstring)
  (value : jsvalue) : jsvalue :=
  fold_left
    (fun value p =>
       match replacer p with
       | Some f => f holder key value raw path
       | None => value
       end) ps value.

(** The value [str] dispatches on: [holder[key]] after the plugins'
    replacers and the replacer function. *)
Definition transform (c : context) (path : list jsstring) (key : jsstring)
  (holder : jsvalue) : jsvalue :=
  let raw := get holder key in
  let value := apply_plugins (plugins c) holder key raw path raw in
  match rep c with
  | RFunction f => f holder key value raw path
  | RValue _ => value
  end.

(** [str(key, holder)].  [stack] is the number of nested calls the engine
    still allows; [None] is the result [undefined].  A read of [holder[key]]
    that the own properties do not decide, and a finite number that is no
    safe integer, are outside the embedding. *)
Fixpoint str (stack : nat) (c : context) (path : list jsstring)
  (gap : jsstring) (key : jsstring) (holder : jsvalue)
  : outcome (option jsstring) :=
  match stack with
  | O => Abort RangeError
  | S stack' =>
    if negb (own_lookup holder key) then Abort Unmodelled else
    let path := path ++ [key] in
    let mind := gap in
    let value := transform c path key holder in
    match value with
    | VUndefined => Ok (Some (quote (toDataURL (lit "undefined") [])))
    | VString s => Ok (Some (quote s))
    | VNumber NaN => Ok (Some (quote (toDataURL (lit "number") (lit "NaN"))))
    | VNumber Infinity =>
        Ok (Some (quote (toDataURL (lit "number") (lit "Infinity"))))
    | VNumber NegInfinity =>
        Ok (Some (quote (toDataURL (lit "number") (lit "-Infinity"))))
    | VNumber (Finite z) =>
        if (Z.abs z <=? MAX_SAFE_INTEGER)%Z then Ok (Some (String_Z z))
        else Abort Unmodelled
    | VBigInt z => Ok (Some (quote (toDataURL (lit "bigint") (String_Z z))))
    | VBoolean b => Ok (Some (if b then lit "true" else lit "false"))
    | VSymbol _ => Ok None
    | VNull => Ok (Some (lit "null"))
    | VDate t =>
        let time := match t with Some z => String_Z z | None => lit "NaN" end in
        Ok (Some (quote (toDataURL (lit "date") time)))
    | VArray elems =>
        let gap := gap ++ indent c in
        partial <-
          for_loop 0 (length elems)
            (fun i =>
               v <- str stack' c path gap (String_N (N.of_nat i)) value ;;
               Ok [or_null v]) ;;
        Ok (Some (wrap 91 93 gap mind partial))
    | VObject fields =>
        let gap := gap ++ indent c in
        partial <-
          (if rep_truthy (rep c) && jstype_eqb (rep_typeof (rep c)) TObject
           then
             length <- loop_bound (rep_get (rep c) (lit "length")) ;;
             for_loop 0 length
               (fun i =>
                  match rep_get (rep c) (String_N (N.of_nat i)) with
                  | VString k =>
                      v <- str stack' c path gap k value ;;
                      match v with
                      | Some t =>
                          if nonempty t then Ok [member gap k t] else Ok []
                      | None => Ok []
                      end
                  | _ => Ok []
                  end)
           else
             for_each (map fst fields)
               (fun k =>
                  v <- str stack' c path gap k value ;;
                  match v with
                  | Some t =>
                      if nonempty t then Ok [member gap k t] else Ok []
                  | None => Ok []
                  end)) ;;
        Ok (Some (wrap 123 125 gap mind partial))
    end
  end.

(** ** The engine object *)

Record JSSerialization := {
  this_plugins : list JSSerializationPlugin
}.

Definition create : JSSerialization := {| this_plugins := [] |}.

Definition register (this : JSSerialization)
  (ps : list JSSerializationPlugin) : JSSerialization :=
  {| this_plugins := this_plugins this ++ ps |}.

(** The test that guards [throw new Error('JSON.stringify')]. *)
Definition invalid_replacer (replacer : replacer_arg) : bool :=
  rep_truthy replacer
  && negb (jstype_eqb (rep_typeof replacer) TFunction)
  && (negb (jstype_eqb (rep_typeof replacer) TObject)
      || negb (jstype_eqb (typeof (rep_get replacer (lit "length"))) TNumber)).

(** The indent unit computed from [space]. *)
Definition indent_of (space : jsvalue) : outcome jsstring :=
  match space with
  | VNumber (Finite z) => Ok (repeat 32%N (Z.to_nat z))
  | VNumber Infinity => Abort Diverges
  | VNumber _ => Ok []
  | VString s => Ok s
  | _ => Ok []
  end.

Definition stringify (this : JSSerialization) (stack : nat)
  (value : jsvalue) (replacer : replacer_arg) (space : jsvalue)
  : outcome (option jsstring) :=
  indent <- indent_of space ;;
  if invalid_replacer replacer then Abort StringifyError
  else
    str stack
      {| indent := indent; rep := replacer; plugins := this_plugins this |}
      [] [] [] (VObject [([], value)]).

(** ** Host primitives used by the decoder *)

(** [StrWhiteSpaceChar]: white space and line terminators. *)
Definition is_StrWhiteSpaceChar (c : N) : bool :=
  between 9 13 c || (c =? 32)%N || (c =? 0x00a0)%N || (c =? 0x1680)%N
  || between 0x2000 0x200a c || (c =? 0x2028)%N || (c =? 0x2029)%N
  || (c =? 0x202f)%N || (c =? 0x205f)%N || (c =? 0x3000)%N
  || (c =? 0xfeff)%N.

Fixpoint trim_start (s : jsstring) : jsstring :=
  match s with
  | c :: r => if is_StrWhiteSpaceChar c then trim_start r else s
  | [] => []
  end.

Definition trim (s : jsstring) : jsstring :=
  rev (trim_start (rev (trim_start s))).

(** The value of a digit in base [radix], if the unit is one. *)
Definition digit_value (radix : N) (c : N) : option N :=
  let d :=
    if between 48 57 c then Some (c - 48)%N
    else if between 97 102 c then Some (c - 87)%N
    else if between 65 70 c then Some (c - 55)%N
    else None in
  match d with
  | Some d => if (d <? radix)%N then Some d else None
  | None => None
  end.

(** The number denoted by a run of digits in base [radix]. *)
Fixpoint digits_value (radix : N) (acc : N) (s : jsstring) : option N :=
  match s with
  | [] => Some acc
  | c :: r =>
      match digit_value radix c with
      | Some d => digits_value radix (acc * radix + d)%N r
      | None => None
      end
  end.

Definition numeral (radix : N) (s : jsstring) : option N :=
  match s with
  | [] => None
  | _ => digits_value radix 0 s
  end.

Definition starts_with (c : N) (s : jsstring) : bool :=
  match s with
  | d :: _ => (d =? c)%N
  | [] => false
  end.

(** [NonDecimalIntegerLiteral]: [0x], [0o] or [0b] and digits, unsigned. *)
Definition non_decimal_literal (s : jsstring) : option N :=
  if starts_with 48 s then
    match tl s with
    | p :: r =>
        if (p =? 120)%N || (p =? 88)%N then numeral 16 r
        else if (p =? 111)%N || (p =? 79)%N then numeral 8 r
        else if (p =? 98)%N || (p =? 66)%N then numeral 2 r
        else None
    | [] => None
    end
  else None.

Fixpoint units_uint (s : jsstring) : Decimal.uint :=
  match s with
  | [] => Decimal.Nil
  | c :: r =>
      let d := units_uint r in
      match (c - 48)%N with
      | 0%N => Decimal.D0 d
      | 1%N => Decimal.D1 d
      | 2%N => Decimal.D2 d
      | 3%N => Decimal.D3 d
      | 4%N => Decimal.D4 d
      | 5%N => Decimal.D5 d
      | 6%N => Decimal.D6 d
      | 7%N => Decimal.D7 d
      | 8%N => Decimal.D8 d
      | _ => Decimal.D9 d
      end
  end.

Definition is_digit (c : N) : bool := between 48 57 c.

(** [DecimalDigits]: the number a non-empty run of decimal digits denotes. *)
Definition decimal_digits (s : jsstring) : option N :=
  if nonempty s && forallb is_digit s
  then Some (N.of_uint (units_uint s))
  else None.

(** [SignedInteger]: decimal digits with an optional sign. *)
Definition signed_integer (s : jsstring) : option Z :=
  if starts_with 43 s then option_map Z.of_N (decimal_digits (tl s))
  else if starts_with 45 s
  then option_map (fun n => (- Z.of_N n)%Z) (decimal_digits (tl s))
  else option_map Z.of_N (decimal_digits s).

(** [BigInt(s)] for a string ([StringToBigInt]); [None] is [undefined],
    which [BigInt] rejects. *)
Definition BigInt (arg : option jsstring) : outcome jsvalue :=
  match arg with
  | None => Abort TypeError
  | Some s =>
      let t := trim s in
      match t with
      | [] => Ok (VBigInt 0)
      | _ =>
          match signed_integer t with
          | Some z => Ok (VBigInt z)
          | None =>
              match non_decimal_literal t with
              | Some n => Ok (VBigInt (Z.of_N n))
              | None => Abort SyntaxError
              end
          end
      end
  end.

Fixpoint span_digits (s : jsstring) : jsstring * jsstring :=
  match s with
  | c :: r =>
      if is_digit c
      then let (d, rest) := span_digits r in (c :: d, rest)
      else ([], s)
  | [] => ([], [])
  end.

(** The text behind an optional sign. *)
Definition unsigned_part (s : jsstring) : jsstring :=
  if starts_with 43 s || starts_with 45 s then tl s else s.

(** Does the text match [StrUnsignedDecimalLiteral] with a decimal point or
    an exponent part? *)
Definition fractional_literal (s : jsstring) : bool :=
  let (int_part, r1) := span_digits s in
  let '(has_point, frac_part, r2) :=
    if starts_with 46 r1
    then let (f, r') := span_digits (tl r1) in (true, f, r')
    else (false, [], r1) in
  let mantissa_ok := nonempty int_part || nonempty frac_part in
  match r2 with
  | [] => has_point && mantissa_ok
  | e :: r =>
      if (e =? 101)%N || (e =? 69)%N then
        let (ds, rest) := span_digits (unsigned_part r) in
        mantissa_ok && nonempty ds && negb (nonempty rest)
      else false
  end.

(** [TimeClip]: time values beyond 8.64e15 ms are invalid. *)
Definition TimeClip (z : Z) : option Z :=
  if (Z.abs z <=? 8640000000000000)%Z then Some z else None.

(** [new Date(Number(s))].  An integer numeral within the range of [TimeClip]
    is below 2^53 and so denotes itself; a larger one rounds to a double that
    is still out of range.  Texts that are no numeric literal give [NaN]. *)
Definition Date_of (arg : option jsstring) : outcome jsvalue :=
  match arg with
  | None => Ok (VDate None)
  | Some s =>
      let t := trim s in
      match t with
      | [] => Ok (VDate (Some 0%Z))
      | _ =>
          match signed_integer t with
          | Some z => Ok (VDate (TimeClip z))
          | None =>
              match non_decimal_literal t with
              | Some n => Ok (VDate (TimeClip (Z.of_N n)))
              | None =>
                  if jsstring_eqb (unsigned_part t) (lit "Infinity")
                  then Ok (VDate None)
                  else if fractional_literal (unsigned_part t)
                  then Abort Unmodelled
                  else Ok (VDate None)
              end
          end
      end
  end.

(** *** [JSON.parse]: the text grammar *)

Definition is_json_ws (c : N) : bool :=
  (c =? 9)%N || (c =? 10)%N || (c =? 13)%N || (c =? 32)%N.

Fixpoint skip_ws (s : jsstring) : jsstring :=
  match s with
  | c :: r => if is_json_ws c then skip_ws r else s
  | [] => []
  end.

(** The text after the prefix [p], if the text starts with it. *)
Fixpoint strip_prefix (p s : jsstring) : option jsstring :=
  match p, s with
  | [], _ => Some s
  | a :: p', b :: s' => if (a =? b)%N then strip_prefix p' s' else None
  | _ :: _, [] => None
  end.

Definition hex4 (a b c d : N) : option N :=
  match digit_value 16 a, digit_value 16 b, digit_value 16 c,
        digit_value 16 d with
  | Some x, Some y, Some z, Some w =>
      Some (((x * 16 + y) * 16 + z) * 16 + w)%N
  | _, _, _, _ => None
  end.

(** The unit a single-character escape stands for. *)
Definition escape_unit (e : N) : option N :=
  if (e =? 34)%N then Some 34%N
  else if (e =? 92)%N then Some 92%N
  else if (e =? 47)%N then Some 47%N
  else if (e =? 98)%N then Some c_backspace
  else if (e =? 102)%N then Some c_formfeed
  else if (e =? 110)%N then Some c_newline
  else if (e =? 114)%N then Some c_return
  else if (e =? 116)%N then Some c_tab
  else None.

(** The characters of a string literal after its opening quote. *)
Fixpoint parse_string_body (s : jsstring) : outcome (jsstring * jsstring) :=
  match s with
  | [] => Abort SyntaxError
  | c :: r =>
      if (c =? c_dquote)%N then Ok ([], r)
      else if (c =? c_backslash)%N then
        match r with
        | [] => Abort SyntaxError
        | e :: r1 =>
            if (e =? 117)%N then
              match r1 with
              | h3 :: h2 :: h1 :: h0 :: r2 =>
                  match hex4 h3 h2 h1 h0 with
                  | Some u =>
                      res <- parse_string_body r2 ;;
                      Ok (u :: fst res, snd res)
                  | None => Abort SyntaxError
                  end
              | _ => Abort SyntaxError
              end
            else
              match escape_unit e with
              | Some u =>
                  res <- parse_string_body r1 ;;
                  Ok (u :: fst res, snd res)
              | None => Abort SyntaxError
              end
        end
      else if (c <? 32)%N then Abort SyntaxError
      else
        res <- parse_string_body r ;;
        Ok (c :: fst res, snd res)
  end.

(** The text after the fraction and the exponent of a number token, if
    each of them, where present, has its digits. *)
Definition number_tail (rest : jsstring) : option jsstring :=
  let after_fraction :=
    if starts_with 46 rest then
      match span_digits (tl rest) with
      | ([], _) => None
      | (_ :: _, r) => Some r
      end
    else Some rest in
  match after_fraction with
  | None => None
  | Some r =>
      if starts_with 101 r || starts_with 69 r then
        let r1 := tl r in
        let r2 :=
          if starts_with 43 r1 || starts_with 45 r1 then tl r1 else r1 in
        match span_digits r2 with
        | ([], _) => None
        | (_ :: _, r3) => Some r3
        end
      else Some r
  end.

(** Can the text follow a value: white space, a comma, a closing bracket or
    brace, or the end of the text? *)
Definition follows_value (rest : jsstring) : bool :=
  match rest with
  | [] => true
  | c :: _ => is_json_ws c || (c =? c_comma)%N || (c =? 93)%N || (c =? 125)%N
  end.

(** A numeral the embedding has no value for: a SyntaxError where the token
    is malformed or followed by a unit that cannot follow a value,
    [Unmodelled] otherwise. *)
Definition unrepresented (rest : jsstring) : outcome (jsvalue * jsstring) :=
  match number_tail rest with
  | Some r => if follows_value r then Abort Unmodelled else Abort SyntaxError
  | None => Abort SyntaxError
  end.

(** A number token.  Only integer numerals within the safe range are
    given a value; [-0], fractions and exponents are [unrepresented]. *)
Definition parse_number (s : jsstring) : outcome (jsvalue * jsstring) :=
  let negative := starts_with 45 s in
  let body := if negative then tl s else s in
  let (digits, rest) :=
    if starts_with 48 body then ([48%N], tl body) else span_digits body in
  match digits with
  | [] => Abort SyntaxError
  | _ =>
      let continues :=
        starts_with 46 rest || starts_with 101 rest || starts_with 69 rest in
      let n := Z.of_N (N.of_uint (units_uint digits)) in
      if continues then unrepresented rest
      else if negative && (n =? 0)%Z then unrepresented rest
      else if (MAX_SAFE_INTEGER <? n)%Z then unrepresented rest
      else Ok (VNumber (Finite (if negative then - n else n)%Z), rest)
  end.

(** [CreateDataProperty]: replace the value of an existing key in place, or
    append a new key. *)
Fixpoint obj_set (fields : list (jsstring * jsvalue)) (key : jsstring)
  (v : jsvalue) : list (jsstring * jsvalue) :=
  match fields with
  | [] => [(key, v)]
  | (k, w) :: rest =>
      if jsstring_eqb k key then (k, v) :: rest
      else (k, w) :: obj_set rest key v
  end.

(** A literal name ([null], [true], [false]) at the head of the text. *)
Definition parse_literal (s : jsstring) : outcome (jsvalue * jsstring) :=
  match strip_prefix (lit "null") s with
  | Some r => Ok (VNull, r)
  | None =>
      match strip_prefix (lit "true") s with
      | Some r => Ok (VBoolean true, r)
      | None =>
          match strip_prefix (lit "false") s with
          | Some r => Ok (VBoolean false, r)
          | None => Abort SyntaxError
          end
      end
  end.

(** The value at the head of the text and the text after it.  The members
    of an object are kept in the order of the text, a repeated key keeping
    its first place and taking its last value; this is the order in which
    the host enumerates the object when the array-index keys of the text
    come first and ascend. *)
Fixpoint parse_value (fuel : nat) (s : jsstring)
  : outcome (jsvalue * jsstring) :=
  match fuel with
  | O => Abort RangeError
  | S fuel' =>
      match skip_ws s with
      | [] => Abort SyntaxError
      | c :: r =>
          if (c =? c_dquote)%N then
            res <- parse_string_body r ;;
            Ok (VString (fst res), snd res)
          else if (c =? 91)%N then
            if starts_with 93 (skip_ws r)
            then Ok (VArray [], tl (skip_ws r))
            else
              res <- parse_elements fuel' r ;;
              Ok (VArray (fst res), snd res)
          else if (c =? 123)%N then
            if starts_with 125 (skip_ws r)
            then Ok (VObject [], tl (skip_ws r))
            else
              res <- parse_members fuel' [] r ;;
              Ok (VObject (fst res), snd res)
          else if (c =? 45)%N || is_digit c then parse_number (c :: r)
          else parse_literal (c :: r)
      end
  end

with parse_elements (fuel : nat) (s : jsstring)
  : outcome (list jsvalue * jsstring) :=
  match fuel with
  | O => Abort RangeError
  | S fuel' =>
      first <- parse_value fuel' s ;;
      match skip_ws (snd first) with
      | [] => Abort SyntaxError
      | c :: r =>
          if (c =? c_comma)%N then
            rest <- parse_elements fuel' r ;;
            Ok (fst first :: fst rest, snd rest)
          else if (c =? 93)%N then Ok ([fst first], r)
          else Abort SyntaxError
      end
  end

with parse_members (fuel : nat) (acc : list (jsstring * jsvalue))
  (s : jsstring) : outcome (list (jsstring * jsvalue) * jsstring) :=
  match fuel with
  | O => Abort RangeError
  | S fuel' =>
      if starts_with c_dquote (skip_ws s) then
        key <- parse_string_body (tl (skip_ws s)) ;;
        if starts_with c_colon (skip_ws (snd key)) then
          v <- parse_value fuel' (tl (skip_ws (snd key))) ;;
          let acc := obj_set acc (fst key) (fst v) in
          match skip_ws (snd v) with
          | [] => Abort SyntaxError
          | c :: r =>
              if (c =? c_comma)%N then parse_members fuel' acc r
              else if (c =? 125)%N then Ok (acc, r)
              else Abort SyntaxError
          end
        else Abort SyntaxError
      else Abort SyntaxError
  end.

(** The document a JSON text denotes, before any reviver runs. *)
Definition JSON_parse_text (text : jsstring) : outcome jsvalue :=
  res <- parse_value (S (length text)) text ;;
  match skip_ws (snd res) with
  | [] => Ok (fst res)
  | _ => Abort SyntaxError
  end.

(** *** [JSON.parse]: the reviver walk *)

(** [InternalizeJSONProperty]: children first, in index or key order; a
    child whose new value is [undefined] is deleted from an object (in an
    array the slot then reads [undefined]). *)
Fixpoint internalize (reviver : jsstring -> jsvalue -> outcome jsvalue)
  (name : jsstring) (val : jsvalue) : outcome jsvalue :=
  match val with
  | VArray elems =>
      let walk :=
        fix walk (i : nat) (l : list jsvalue) : outcome (list jsvalue) :=
          match l with
          | [] => Ok []
          | e :: l' =>
              e' <- internalize reviver (String_N (N.of_nat i)) e ;;
              rest <- walk (S i) l' ;;
              Ok (e' :: rest)
          end in
      elems' <- walk O elems ;;
      reviver name (VArray elems')
  | VObject fields =>
      let walk :=
        fix walk (l : list (jsstring * jsvalue))
          : outcome (list (jsstring * jsvalue)) :=
          match l with
          | [] => Ok []
          | (k, e) :: l' =>
              e' <- internalize reviver k e ;;
              rest <- walk l' ;;
              match e' with
              | VUndefined => Ok rest
              | _ => Ok ((k, e') :: rest)
              end
          end in
      fields' <- walk fields ;;
      reviver name (VObject fields')
  | _ => reviver name val
  end.

(** ** The decoder: [parse] *)

Definition not_comma (c : N) : bool := negb (c =? c_comma)%N.

Fixpoint span_not_comma (s : jsstring) : jsstring * jsstring :=
  match s with
  | c :: r =>
      if not_comma c
      then let (a, rest) := span_not_comma r in (c :: a, rest)
      else ([], s)
  | [] => ([], [])
  end.

(** [/^data:[^,]+,[^,]*$/.test(s)] *)
Definition token_shape (s : jsstring) : bool :=
  match strip_prefix (lit "data:") s with
  | Some r =>
      let (type, rest) := span_not_comma r in
      nonempty type
      && match rest with
         | _ :: payload => forallb not_comma payload
         | [] => false
         end
  | None => false
  end.

Definition is_type (t : option jsstring) (name : String.string) : bool :=
  match t with
  | Some s => jsstring_eqb s (lit name)
  | None => false
  end.

Arguments is_type t name%_string_scope.

(** The [switch] over [parsedResult.type]. *)
Definition decode_tag (result : jsvalue) (parsedResult : data_url)
  : outcome jsvalue :=
  if is_type (url_type parsedResult) "undefined" then Ok VUndefined
  else if is_type (url_type parsedResult) "number" then
    if is_type (url_value parsedResult) "NaN" then Ok (VNumber NaN)
    else if is_type (url_value parsedResult) "Infinity"
    then Ok (VNumber Infinity)
    else if is_type (url_value parsedResult) "-Infinity"
    then Ok (VNumber NegInfinity)
    else Ok result
  else if is_type (url_type parsedResult) "bigint"
  then BigInt (url_value parsedResult)
  else if is_type (url_type parsedResult) "date"
  then Date_of (url_value parsedResult)
  else Ok result.

Definition apply_revivers (ps : list JSSerializationPlugin)
  (key : jsstring) (value : jsvalue) (parsedResult : option data_url)
  (result : jsvalue) : jsvalue :=
  fold_left
    (fun result p =>
       match reviver p with
       | Some f => f key result value parsedResult
       | None => result
       end) ps result.

(** The function [parse] hands to [JSON.parse]. *)
Definition revive (reviver : option JSSerializationReviver)
  (plugins : list JSSerializationPlugin) (key : jsstring) (value : jsvalue)
  : outcome jsvalue :=
  decoded <-
    match value with
    | VString s =>
        if token_shape s then
          let parsedResult := parseDataURL s in
          result <- decode_tag value parsedResult ;;
          Ok (result, Some parsedResult)
        else Ok (value, None)
    | _ => Ok (value, None)
    end ;;
  let (result, parsedResult) := decoded : jsvalue * option data_url in
  let result :=
    match reviver with
    | Some f => f key result value parsedResult
    | None => result
    end in
  let result := apply_revivers plugins key value parsedResult result in
  match result with
  | VUndefined => Ok undefinedSymbol
  | _ => Ok result
  end.

(** [Object.keys(current)]: [null] and [undefined] cannot be converted to an
    object; a string lists its indices; other primitives and dates have no
    enumerable own property. *)
Definition Object_keys (current : jsvalue) : outcome (list jsstring) :=
  match current with
  | VUndefined | VNull => Abort TypeError
  | VObject fields => Ok (map fst fields)
  | VArray elems =>
      Ok (map (fun i => String_N (N.of_nat i)) (seq 0 (length elems)))
  | VString s => Ok (map (fun i => String_N (N.of_nat i)) (seq 0 (length s)))
  | _ => Ok []
  end.

Fixpoint set_nth (l : list jsvalue) (i : nat) (x : jsvalue) : list jsvalue :=
  match l, i with
  | [], _ => []
  | _ :: l', O => x :: l'
  | e :: l', S i' => e :: set_nth l' i' x
  end.

Fixpoint assoc_set (fields : list (jsstring * jsvalue)) (key : jsstring)
  (x : jsvalue) : list (jsstring * jsvalue) :=
  match fields with
  | [] => []
  | (k, v) :: rest =>
      if jsstring_eqb k key then (k, x) :: rest
      else (k, v) :: assoc_set rest key x
  end.

(** [holder[key] = x] for a key the holder already has (an assignment to
    [length] is never made and is left out). *)
Definition set (holder : jsvalue) (key : jsstring) (x : jsvalue) : jsvalue :=
  match holder with
  | VObject fields => VObject (assoc_set fields key x)
  | VArray elems =>
      if jsstring_eqb key (lit "length") then holder
      else match index_of_key (length elems) key with
           | Some i => VArray (set_nth elems i x)
           | None => holder
           end
  | _ => holder
  end.

(** The document produced by [JSON.parse] is a tree: every object in it has
    one parent.  An object reference therefore is the list of keys that
    leads to it from the root, and writing through a reference rewrites the
    root at that place. *)
Definition ref := list jsstring.

Definition deref (json : jsvalue) (r : ref) : jsvalue :=
  fold_left get r json.

Fixpoint assign (json : jsvalue) (r : ref) (x : jsvalue) : jsvalue :=
  match r with
  | [] => x
  | k :: r' => set json k (assign (get json k) r' x)
  end.

(** The [for] loop over [keys]: the state is the document and the queue. *)
Fixpoint sweep_keys (current : ref) (keys : list jsstring)
  (json : jsvalue) (queue : list ref) : jsvalue * list ref :=
  match keys with
  | [] => (json, queue)
  | key :: keys' =>
      let value := get (deref json current) key in
      if is_undefinedSymbol value
      then sweep_keys current keys'
             (assign json (current ++ [key]) VUndefined) queue
      else if truthy value && jstype_eqb (typeof value) TObject
      then sweep_keys current keys' json (queue ++ [current ++ [key]])
      else sweep_keys current keys' json queue
  end.

(** The [while (queue.length > 0)] loop; [fuel] bounds its iterations. *)
Fixpoint sweep (fuel : nat) (json : jsvalue) (queue : list ref)
  : outcome jsvalue :=
  match queue with
  | [] => Ok json
  | current :: _ =>
      match fuel with
      | O => Abort Diverges
      | S fuel' =>
          keys <- Object_keys (deref json current) ;;
          let (json', queue') := sweep_keys current keys json queue in
          sweep fuel' json' (tl queue')
      end
  end.

(** The number of nodes of a document. *)
Fixpoint nodes (v : jsvalue) : nat :=
  match v with
  | VArray elems => S (fold_right (fun e n => nodes e + n) O elems)
  | VObject fields => S (fold_right (fun kv n => nodes (snd kv) + n) O fields)
  | _ => 1
  end.

(** [parse(text, reviver)].  The sweep dequeues each object of the document
    once, so as many iterations as the document has nodes are allowed. *)
Definition parse (this : JSSerialization) (text : jsstring)
  (reviver : option JSSerializationReviver) : outcome jsvalue :=
  let plugins := this_plugins this in
  tree <- JSON_parse_text text ;;
  json <- internalize (revive reviver plugins) [] tree ;;
  sweep (nodes json) json [[]].

(** ** The host format's own functions

    [JSON.stringify] and [JSON.parse] as ECMA-262 defines them, called
    without replacer and reviver, for comparison with the engine. *)
Module Native.

(** [UnicodeEscape]: a backslash, [u] and four lower-case hex digits. *)
Definition UnicodeEscape (c : N) : jsstring :=
  [c_backslash; 117%N;
   hex_digit ((c / 4096) mod 16)%N; hex_digit ((c / 256) mod 16)%N;
   hex_digit ((c / 16) mod 16)%N; hex_digit (c mod 16)%N].

Definition is_high_surrogate (c : N) : bool := between 0xd800 0xdbff c.
Definition is_low_surrogate (c : N) : bool := between 0xdc00 0xdfff c.

(** The body of [QuoteJSONString]: the two-character escapes, a Unicode
    escape for the other units below space and for lone surrogates, every
    other code point as it is. *)
Fixpoint quote_body (s : jsstring) : jsstring :=
  match s with
  | [] => []
  | c :: r =>
      match meta_lookup meta c with
      | Some esc => esc ++ quote_body r
      | None =>
          if (c <? 32)%N then UnicodeEscape c ++ quote_body r
          else if is_high_surrogate c then
            match r with
            | d :: r' =>
                if is_low_surrogate d then c :: d :: quote_body r'
                else UnicodeEscape c ++ quote_body r
            | [] => UnicodeEscape c
            end
          else if is_low_surrogate c then UnicodeEscape c ++ quote_body r
          else c :: quote_body r
      end
  end.

Definition QuoteJSONString (s : jsstring) : jsstring :=
  [c_dquote] ++ quote_body s ++ [c_dquote].

(** The indent unit: at most ten spaces, or the first ten units. *)
Definition gap_of (space : jsvalue) : jsstring :=
  match space with
  | VNumber (Finite z) => repeat 32%N (Z.to_nat (Z.min 10 z))
  | VNumber Infinity => repeat 32%N 10
  | VString s => firstn 10 s
  | _ => []
  end.

(** [SerializeJSONProperty] on the value found under a key, with
    [SerializeJSONArray] and [SerializeJSONObject] inlined. *)
Fixpoint SerializeJSONProperty (gap indent : jsstring) (value : jsvalue)
  : outcome (option jsstring) :=
  match value with
  | VNull => Ok (Some (lit "null"))
  | VBoolean b => Ok (Some (if b then lit "true" else lit "false"))
  | VString s => Ok (Some (QuoteJSONString s))
  | VNumber (Finite z) =>
      if (Z.abs z <=? MAX_SAFE_INTEGER)%Z then Ok (Some (String_Z z))
      else Abort Unmodelled
  | VNumber _ => Ok (Some (lit "null"))
  | VBigInt _ => Abort TypeError
  | VUndefined | VSymbol _ => Ok None
  | VDate None => Ok (Some (lit "null"))
  | VDate (Some _) => Abort Unmodelled
  | VArray elems =>
      let stepback := indent in
      let indent := indent ++ gap in
      let walk :=
        fix walk (l : list jsvalue) : outcome (list jsstring) :=
          match l with
          | [] => Ok []
          | e :: l' =>
              strP <- SerializeJSONProperty gap indent e ;;
              rest <- walk l' ;;
              Ok (match strP with
                  | Some t => t
                  | None => lit "null"
                  end :: rest)
          end in
      partial <- walk elems ;;
      Ok (Some (wrap 91 93 (match gap with [] => [] | _ => indent end)
                  stepback partial))
  | VObject fields =>
      let stepback := indent in
      let indent := indent ++ gap in
      let walk :=
        fix walk (l : list (jsstring * jsvalue)) : outcome (list jsstring) :=
          match l with
          | [] => Ok []
          | (k, e) :: l' =>
              strP <- SerializeJSONProperty gap indent e ;;
              rest <- walk l' ;;
              Ok (match strP with
                  | Some t =>
                      (QuoteJSONString k
                         ++ (if nonempty gap then [c_colon; 32%N]
                             else [c_colon])
                         ++ t) :: rest
                  | None => rest
                  end)
          end in
      partial <- walk fields ;;
      Ok (Some (wrap 123 125 (match gap with [] => [] | _ => indent end)
                  stepback partial))
  end.

(** [JSON.stringify(value, undefined, space)] *)
Definition stringify (value space : jsvalue) : outcome (option jsstring) :=
  SerializeJSONProperty (gap_of space) [] value.

(** [JSON.parse(text)] *)
Definition parse (text : jsstring) : outcome jsvalue :=
  JSON_parse_text text.

End Native.

(** * Specifications *)

Arguments get holder key : simpl never.
Arguments set holder key x : simpl never.
Arguments quote s : simpl never.
Arguments toDataURL type value : simpl never.
Arguments String_N n : simpl never.
Arguments String_Z z : simpl never.
Arguments lit s%_string_scope : simpl never.
Arguments wrap open close gap mind partial : simpl never.
Arguments member gap k v : simpl never.
Arguments transform c path key holder : simpl never.
Arguments is_digit c : simpl never.
Arguments parseDataURL text : simpl never.
Arguments token_shape s : simpl never.
Arguments is_type t name%_string_scope : simpl never.
Arguments join sep parts : simpl never.
Arguments between lo hi c : simpl never.
Arguments is_json_ws c : simpl never.
Arguments starts_with c s : simpl never.
Arguments parse_number s : simpl never.
Arguments parse_literal s : simpl never.
Arguments own_lookup holder key : simpl never.

(** ** Escaping *)

(** The units of the class [rx_escapable], range by range. *)
Definition escapable (c : N) : Prop :=
  (c = 92 \/ c = 34
   \/ c <= 0x1f \/ 0x7f <= c <= 0x9f
   \/ c = 0xad \/ 0x600 <= c <= 0x604 \/ c = 0x70f
   \/ c = 0x17b4 \/ c = 0x17b5
   \/ 0x200c <= c <= 0x200f \/ 0x2028 <= c <= 0x202f
   \/ 0x2060 <= c <= 0x206f \/ c = 0xfeff \/ 0xfff0 <= c <= 0xffff)%N.

(** The letters of the two-character escapes. *)
Definition short_escapes : list (N * N) :=
  [ (8, 98); (9, 116); (10, 110); (12, 102); (13, 114); (34, 34);
    (92, 92) ]%N.

(** The sixteen hexadecimal digits, in lower case. *)
Definition hex_char (d : N) : N :=
  nth (N.to_nat d) (lit "0123456789abcdef") 0%N.

(** What one unit of the input contributes to the quoted text. *)
Inductive escape_of (c : N) : jsstring -> Prop :=
| escape_short (letter : N) :
    In (c, letter) short_escapes ->
    escape_of c [c_backslash; letter]
| escape_hex (h3 h2 h1 h0 : N) :
    escapable c ->
    ~ In c (map fst short_escapes) ->
    (h3 < 16 /\ h2 < 16 /\ h1 < 16 /\ h0 < 16)%N ->
    c = (((h3 * 16 + h2) * 16 + h1) * 16 + h0)%N ->
    escape_of c [c_backslash; 117%N; hex_char h3; hex_char h2;
                 hex_char h1; hex_char h0]
| escape_none :
    ~ escapable c ->
    escape_of c [c].

(** ** Tokens *)

(** The text before the first occurrence of a unit; all of the text when
    the unit does not occur. *)
Fixpoint until (sep : N) (s : jsstring) : jsstring :=
  match s with
  | [] => []
  | c :: r => if (c =? sep)%N then [] else c :: until sep r
  end.

(** The four types of the specification. *)
Definition known_types : list jsstring :=
  [ lit "undefined"; lit "number"; lit "bigint"; lit "date" ].

(** ** Contexts without user code *)

(** No plugin is registered and the replacer is not a function. *)
Definition no_hooks (c : context) : Prop :=
  plugins c = []
  /\ match rep c with RFunction _ => False | RValue _ => True end.

(** The string entries of an inclusion list, in order, with repetitions. *)
Definition string_entries (entries : list jsvalue) : list jsstring :=
  flat_map (fun e => match e with VString k => [k] | _ => [] end) entries.

(** An object with a numeric [length]. *)
Definition array_like (v : jsvalue) : Prop :=
  typeof v = TObject /\ exists n, get v (lit "length") = VNumber n.

(** ** Container texts, in the words of the specification *)

(** The texts with the separator between them. *)
Definition joined (sep : jsstring) (texts : list jsstring) : jsstring :=
  match texts with
  | [] => []
  | t :: rest => t ++ flat_map (fun u => sep ++ u) rest
  end.

(** Texts between brackets: the two brackets alone when there is no text;
    the texts joined with commas when the indent [gap] is empty; otherwise
    each text on a line of its own behind the indent, and the closing
    bracket on a line behind the outer indent [mind]. *)
Definition enclosed (open close gap mind : jsstring)
  (texts : list jsstring) : jsstring :=
  match texts, gap with
  | [], _ => open ++ close
  | _ :: _, [] => open ++ joined (lit ",") texts ++ close
  | _ :: _, _ :: _ =>
      open ++ [c_newline] ++ gap
        ++ joined (lit "," ++ [c_newline] ++ gap) texts
        ++ [c_newline] ++ mind ++ close
  end.

(** What an array writes for an element: its text, or [null] when the
    element has none. *)
Definition element_text (r : option jsstring) : jsstring :=
  match r with
  | Some (u :: t) => u :: t
  | _ => lit "null"
  end.

(** What an object writes for a key: the quoted key, a colon (and a space
    when there is an indent) and the text of the value, or nothing when the
    value has no text. *)
Definition member_texts (gap : jsstring) (k : jsstring)
  (r : option jsstring) : list jsstring :=
  match r with
  | Some (u :: t) =>
      [quote k ++ match gap with [] => lit ":" | _ :: _ => lit ": " end
         ++ u :: t]
  | _ => []
  end.

(** ** Induction on values *)

Section jsvalue_induction.
Variable P : jsvalue -> Prop.
Hypothesis Hundefined : P VUndefined.
Hypothesis Hnull : P VNull.
Hypothesis Hboolean : forall b, P (VBoolean b).
Hypothesis Hnumber : forall n, P (VNumber n).
Hypothesis Hbigint : forall z, P (VBigInt z).
Hypothesis Hstring : forall s, P (VString s).
Hypothesis Hsymbol : forall id, P (VSymbol id).
Hypothesis Hdate : forall t, P (VDate t).
Hypothesis Harray : forall elems, Forall P elems -> P (VArray elems).
Hypothesis Hobject :
  forall fields, Forall (fun kv => P (snd kv)) fields -> P (VObject fields).

Fixpoint jsvalue_ind (v : jsvalue) : P v :=
  match v with
  | VUndefined => Hundefined
  | VNull => Hnull
  | VBoolean b => Hboolean b
  | VNumber n => Hnumber n
  | VBigInt z => Hbigint z
  | VString s => Hstring s
  | VSymbol id => Hsymbol id
  | VDate t => Hdate t
  | VArray elems =>
      Harray elems
        ((fix all (l : list jsvalue) : Forall P l :=
            match l with
            | [] => Forall_nil P
            | e :: l' => Forall_cons e (jsvalue_ind e) (all l')
            end) elems)
  | VObject fields =>
      Hobject fields
        ((fix all (l : list (jsstring * jsvalue))
            : Forall (fun kv => P (snd kv)) l :=
            match l with
            | [] => Forall_nil _
            | kv :: l' => Forall_cons kv (jsvalue_ind (snd kv)) (all l')
            end) fields)
  end.
End jsvalue_induction.

(** ** The sweep *)

(** The document with [undefinedSymbol] replaced by [undefined] in every
    field of every array and object; the root itself is kept. *)
Fixpoint clean (v : jsvalue) : jsvalue :=
  match v with
  | VArray elems =>
      VArray (map (fun e => if is_undefinedSymbol e then VUndefined
                            else clean e) elems)
  | VObject fields =>
      VObject (map (fun kv => (fst kv,
                               if is_undefinedSymbol (snd kv) then VUndefined
                               else clean (snd kv))) fields)
  | _ => v
  end.

Definition clean_field (v : jsvalue) : jsvalue :=
  if is_undefinedSymbol v then VUndefined else clean v.

(** Does no field, at any depth, hold [undefinedSymbol]? *)
Fixpoint marker_free (v : jsvalue) : bool :=
  match v with
  | VArray elems =>
      forallb (fun e => negb (is_undefinedSymbol e) && marker_free e) elems
  | VObject fields =>
      forallb (fun kv => negb (is_undefinedSymbol (snd kv))
                         && marker_free (snd kv)) fields
  | _ => true
  end.

Fixpoint nodupb (keys : list jsstring) : bool :=
  match keys with
  | [] => true
  | k :: rest => negb (existsb (jsstring_eqb k) rest) && nodupb rest
  end.

(** The keys of every object are pairwise distinct, as in any object. *)
Fixpoint distinct_keys (v : jsvalue) : bool :=
  match v with
  | VArray elems => forallb distinct_keys elems
  | VObject fields =>
      nodupb (map fst fields)
      && forallb (fun kv => distinct_keys (snd kv)) fields
  | _ => true
  end.

(** What the sweep puts on its queue: the truthy values of type object. *)
Definition is_container (v : jsvalue) : bool :=
  truthy v && jstype_eqb (typeof v) TObject.

(** The references the loop of [sweep] dequeues, in order. *)
Fixpoint visited (fuel : nat) (json : jsvalue) (queue : list ref)
  : list ref :=
  match queue with
  | [] => []
  | current :: _ =>
      match fuel with
      | O => []
      | S fuel' =>
          match Object_keys (deref json current) with
          | Ok keys =>
              let (json', queue') := sweep_keys current keys json queue in
              current :: visited fuel' json' (tl queue')
          | Abort _ => []
          end
      end
  end.

(** The references of the keyed structures reachable from the root. *)
Inductive reachable (json : jsvalue) : ref -> Prop :=
| reachable_root : reachable json []
| reachable_field (r : ref) (key : jsstring) :
    reachable json r ->
    is_container (get (deref json r) key) = true ->
    reachable json (r ++ [key]).

(** Values without fields that are neither the marker nor a date. *)
Definition leafy (v : jsvalue) : bool :=
  match v with
  | VArray _ | VObject _ | VSymbol _ | VDate _ => false
  | _ => true
  end.

Definition structure (v : jsvalue) : bool :=
  match v with
  | VArray _ | VObject _ => true
  | _ => false
  end.

(** Is [key] an own field of [holder] that [set] can write? *)
Definition has_field (holder : jsvalue) (key : jsstring) : bool :=
  match holder with
  | VObject fields =>
      match assoc fields key with Some _ => true | None => false end
  | VArray elems =>
      negb (jsstring_eqb key (lit "length"))
      && match index_of_key (length elems) key with
         | Some _ => true
         | None => false
         end
  | _ => false
  end.

(** [b] is [a] after some of its marker fields, or [a] itself when it is
    the marker, were replaced by [undefined]. *)
Definition settled (a b : jsvalue) : Prop :=
  clean_field a = clean_field b
  /\ (is_undefinedSymbol b = true -> is_undefinedSymbol a = true).

(** The nodes below the references of a queue. *)
Definition weight (json : jsvalue) (queue : list ref) : nat :=
  list_sum (map (fun r => nodes (deref json r)) queue).

(** The references a visit of [current] appends to the queue. *)
Definition enqueued (current : ref) (json : jsvalue) (keys : list jsstring)
  : list ref :=
  map (fun k => current ++ [k])
    (filter (fun k => is_container (get (deref json current) k)) keys).

(** The invariant of the loop of [sweep] started on [json0]: the document
    is [json0] with some markers replaced, the queue holds references to
    objects, and every field that still holds the marker lies at or below a
    queued reference. *)
Definition sweep_inv (json0 json : jsvalue) (queue : list ref) : Prop :=
  (forall q, settled (deref json0 q) (deref json q))
  /\ (forall q, In q queue -> is_container (deref json q) = true)
  /\ (forall d k, is_undefinedSymbol (get (deref json d) k) = true ->
                  exists q s, In q queue /\ d = q ++ s).

(** Every reachable keyed structure was dequeued or lies at or below a
    queued reference. *)
Definition covered (json0 : jsvalue) (done queue : list ref) : Prop :=
  forall r, reachable json0 r ->
            In r done \/ exists q s, In q queue /\ r = q ++ s.

(** ** The round trip *)

(** The strings [parse] turns into something else: they match the token
    pattern and carry the type [undefined], [bigint] or [date], or the type
    [number] with one of the three payloads. *)
Definition recognized_token (s : jsstring) : bool :=
  token_shape s
  && (let p := parseDataURL s in
      is_type (url_type p) "undefined"
      || is_type (url_type p) "bigint"
      || is_type (url_type p) "date"
      || (is_type (url_type p) "number"
          && (is_type (url_value p) "NaN"
              || is_type (url_value p) "Infinity"
              || is_type (url_value p) "-Infinity"))).

Definition MAX_TIME : Z := 8640000000000000.

(** The values of the round trip: no symbol, finite numbers that are safe
    integers, dates within the range of time values, and no string value
    that is itself a recognized token. *)
Fixpoint portable (v : jsvalue) : bool :=
  match v with
  | VSymbol _ => false
  | VNumber (Finite z) => (Z.abs z <=? MAX_SAFE_INTEGER)%Z
  | VDate (Some t) => (Z.abs t <=? MAX_TIME)%Z
  | VString s => negb (recognized_token s)
  | VArray elems => forallb portable elems
  | VObject fields => forallb (fun kv => portable (snd kv)) fields
  | _ => true
  end.

(** The nesting depth of a value. *)
Fixpoint depth (v : jsvalue) : nat :=
  match v with
  | VArray elems => S (list_max (map depth elems))
  | VObject fields => S (list_max (map (fun kv => depth (snd kv)) fields))
  | _ => O
  end.

(** The document [stringify] writes: every extended value as the string
    that holds its token. *)
Fixpoint json_of (v : jsvalue) : jsvalue :=
  match v with
  | VUndefined => VString (toDataURL (lit "undefined") [])
  | VNumber NaN => VString (toDataURL (lit "number") (lit "NaN"))
  | VNumber Infinity => VString (toDataURL (lit "number") (lit "Infinity"))
  | VNumber NegInfinity =>
      VString (toDataURL (lit "number") (lit "-Infinity"))
  | VBigInt z => VString (toDataURL (lit "bigint") (String_Z z))
  | VDate t =>
      VString (toDataURL (lit "date")
                 (match t with Some z => String_Z z | None => lit "NaN" end))
  | VArray elems => VArray (map json_of elems)
  | VObject fields =>
      VObject (map (fun kv => (fst kv, json_of (snd kv))) fields)
  | _ => v
  end.

(** The compact text of a document. *)
Fixpoint text_of (j : jsvalue) : jsstring :=
  match j with
  | VNull => lit "null"
  | VBoolean b => if b then lit "true" else lit "false"
  | VNumber (Finite z) => String_Z z
  | VString s => quote s
  | VArray elems => wrap 91 93 [] [] (map text_of elems)
  | VObject fields =>
      wrap 123 125 [] []
        (map (fun kv => member [] (fst kv) (text_of (snd kv))) fields)
  | _ => []
  end.

(** The documents of the host format within the embedding: [null],
    booleans, safe integers, strings, arrays, and objects with distinct
    keys. *)
Fixpoint is_document (j : jsvalue) : bool :=
  match j with
  | VNull | VBoolean _ | VString _ => true
  | VNumber (Finite z) => (Z.abs z <=? MAX_SAFE_INTEGER)%Z
  | VArray elems => forallb is_document elems
  | VObject fields =>
      nodupb (map fst fields)
      && forallb (fun kv => is_document (snd kv)) fields
  | _ => false
  end.

(** The fuel [parse_value] needs for the text of a document. *)
Fixpoint size (j : jsvalue) : nat :=
  match j with
  | VArray elems => S (list_sum (map (fun e => S (size e)) elems))
  | VObject fields =>
      S (list_sum (map (fun kv => S (size (snd kv))) fields))
  | _ => 1
  end.

(** The value with [undefinedSymbol] in place of every absent value: what
    the reviver walk returns before the sweep. *)
Fixpoint mark (v : jsvalue) : jsvalue :=
  match v with
  | VUndefined => undefinedSymbol
  | VArray elems => VArray (map mark elems)
  | VObject fields => VObject (map (fun kv => (fst kv, mark (snd kv))) fields)
  | _ => v
  end.

(** What may follow a value inside a text: nothing, a comma, or a closing
    bracket or brace. *)
Definition delimited (rest : jsstring) : Prop :=
  rest = [] \/ exists c r, rest = c :: r /\ (c = 44 \/ c = 93 \/ c = 125)%N.

(** What may follow a number token: no digit, point or exponent mark. *)
Definition number_end (rest : jsstring) : Prop :=
  match rest with
  | [] => True
  | c :: _ => is_digit c = false /\ c <> 46%N /\ c <> 101%N /\ c <> 69%N
  end.

(** The first unit of the text of a value. *)
Definition value_start (c : N) : Prop :=
  In c [110; 116; 102; 34; 91; 123; 45]%N \/ is_digit c = true.

(** A document's text is read back as the document, whatever delimiter
    follows. *)
Definition reads_back (j : jsvalue) : Prop :=
  is_document j = true ->
  forall fuel rest,
    size j <= fuel -> delimited rest ->
    parse_value fuel (text_of j ++ rest) = Ok (j, rest).

(** *** Property enumeration order *)




(** ** Comparison with the host format *)



(** The [space] arguments the host does not clamp: at most ten spaces or
    ten units. *)
Definition small_space (space : jsvalue) : bool :=
  match space with
  | VNumber (Finite z) => (z <=? 10)%Z
  | VNumber Infinity => false
  | VString s => length s <=? 10
  | _ => true
  end.

(** The values all of whose finite numbers are safe integers. *)
Fixpoint safe_numbers (v : jsvalue) : bool :=
  match v with
  | VNumber (Finite z) => (Z.abs z <=? MAX_SAFE_INTEGER)%Z
  | VArray elems => forallb safe_numbers elems
  | VObject fields => forallb (fun kv => safe_numbers (snd kv)) fields
  | _ => true
  end.

(** What [str] returns for a value when no user code runs and no inclusion
    list is in force: a non-empty text, or [undefined] for a symbol. *)
Definition str_result (v : jsvalue) (r : option jsstring) : Prop :=
  (r = None <-> exists id, v = VSymbol id)
  /\ (forall t, r = Some t -> nonempty t = true).

(** ** Indented texts *)

(** The text of a document laid out with the indent unit [ind] behind the
    current indent [cur]. *)
Fixpoint layout (ind cur : jsstring) (j : jsvalue) : jsstring :=
  match j with
  | VArray elems =>
      wrap 91 93 (cur ++ ind) cur (map (layout ind (cur ++ ind)) elems)
  | VObject fields =>
      wrap 123 125 (cur ++ ind) cur
        (map (fun kv => member (cur ++ ind) (fst kv)
                          (layout ind (cur ++ ind) (snd kv))) fields)
  | _ => text_of j
  end.

(** Texts made of the white space of the host format. *)
Definition blank (w : jsstring) : bool := forallb is_json_ws w.

(** The white space [wrap] puts before each member and before the closing
    bracket. *)
Definition lead_of (gap : jsstring) : jsstring :=
  if nonempty gap then c_newline :: gap else [].

Definition close_of (gap mind : jsstring) : jsstring :=
  if nonempty gap then c_newline :: mind else [].

(** The white space [member] puts behind the colon. *)
Definition colon_gap (gap : jsstring) : jsstring :=
  if nonempty gap then [32%N] else [].

(** A laid-out document is read back as the document, whatever white space
    precedes it and whatever delimiter follows. *)
Definition reads_back_in (ind : jsstring) (j : jsvalue) : Prop :=
  is_document j = true ->
  forall fuel cur lead rest,
    size j <= fuel -> blank cur = true -> blank lead = true ->
    delimited (skip_ws rest) ->
    parse_value fuel (lead ++ layout ind cur j ++ rest) = Ok (j, rest).

(** * Proofs *)

(** ** Escaping *)

Lemma between_spec (lo hi c : N) :
  between lo hi c = true <-> (lo <= c <= hi)%N.
Proof.
  unfold between. rewrite andb_true_iff, !N.leb_le. tauto.
Qed.

Lemma rx_escapable_spec (c : N) : rx_escapable c = true <-> escapable c.
Proof.
  unfold rx_escapable, escapable, c_backslash, c_dquote.
  rewrite !orb_true_iff, !between_spec, !N.eqb_eq.
  split; intros H; intuition lia.
Qed.

Lemma rx_escapable_false (c : N) : rx_escapable c = false <-> ~ escapable c.
Proof.
  rewrite <- rx_escapable_spec. destruct (rx_escapable c); split; congruence.
Qed.

Lemma escapable_bound (c : N) : escapable c -> (c < 65536)%N.
Proof. unfold escapable. lia. Qed.

Lemma jsstring_eqb_eq (a b : jsstring) : jsstring_eqb a b = true <-> a = b.
Proof.
  unfold jsstring_eqb. destruct (list_eq_dec N.eq_dec a b); split; congruence.
Qed.

Lemma jsstring_eqb_refl (a : jsstring) : jsstring_eqb a a = true.
Proof. apply jsstring_eqb_eq. reflexivity. Qed.

Lemma jsstring_eqb_neq (a b : jsstring) : jsstring_eqb a b = false <-> a <> b.
Proof.
  unfold jsstring_eqb. destruct (list_eq_dec N.eq_dec a b); split; congruence.
Qed.

Lemma toString16_aux_last (fuel : nat) (n : N) (acc : jsstring) :
  (n < 16)%N -> toString16_aux (S fuel) n acc = hex_digit n :: acc.
Proof.
  intros H. simpl. apply N.ltb_lt in H. now rewrite H.
Qed.

Lemma toString16_aux_step (fuel : nat) (n : N) (acc : jsstring) :
  (16 <= n)%N ->
  toString16_aux (S fuel) n acc
  = toString16_aux fuel (n / 16) (hex_digit (n mod 16) :: acc).
Proof.
  intros H. simpl. apply N.ltb_ge in H. now rewrite H.
Qed.

Lemma toString16_fuel (c : N) :
  (16 <= c)%N -> exists m, N.to_nat (N.log2 c) = S (S (S (S m))).
Proof.
  intros H. pose proof (N.log2_le_mono 16 c H) as Hl.
  change (N.log2 16) with 4%N in Hl.
  exists (N.to_nat (N.log2 c) - 4). lia.
Qed.

(** The padded hexadecimal form of a unit is its four base-16 digits. *)
Lemma padded_hex (c : N) :
  (c < 65536)%N ->
  slice_last 4 (lit "0000" ++ toString16 c)
  = [hex_digit (c / 4096); hex_digit ((c / 256) mod 16);
     hex_digit ((c / 16) mod 16); hex_digit (c mod 16)]%N.
Proof.
  intros Hc. unfold toString16.
  assert (E1 : (c / 16 / 16 = c / 256)%N)
    by (rewrite N.Div0.div_div; reflexivity).
  assert (E2 : (c / 256 / 16 = c / 4096)%N)
    by (rewrite N.Div0.div_div; reflexivity).
  assert (H16 : (16 <> 0)%N) by lia.
  pose proof (N.div_mod c 16 H16) as D0.
  pose proof (N.mod_lt c 16 H16) as M0.
  pose proof (N.div_mod (c / 16) 16 H16) as D1.
  pose proof (N.mod_lt (c / 16) 16 H16) as M1.
  pose proof (N.div_mod (c / 256) 16 H16) as D2.
  pose proof (N.mod_lt (c / 256) 16 H16) as M2.
  rewrite E1 in D1. rewrite E2 in D2.
  destruct (N.lt_ge_cases c 16) as [H1 | H1].
  { rewrite toString16_aux_last by assumption.
    rewrite (N.div_small c 4096), (N.div_small c 256), (N.div_small c 16),
      (N.mod_small c 16) by lia.
    reflexivity. }
  destruct (toString16_fuel c H1) as [m ->].
  rewrite toString16_aux_step by assumption.
  destruct (N.lt_ge_cases (c / 16) 16) as [H2 | H2].
  { rewrite toString16_aux_last by assumption.
    rewrite (N.div_small c 4096) by lia.
    rewrite <- E1, (N.div_small (c / 16) 16), (N.mod_small (c / 16) 16)
      by lia.
    reflexivity. }
  rewrite toString16_aux_step by assumption. rewrite E1.
  destruct (N.lt_ge_cases (c / 256) 16) as [H3 | H3].
  { rewrite toString16_aux_last by assumption.
    rewrite <- E2, (N.div_small (c / 256) 16), (N.mod_small (c / 256) 16)
      by lia.
    reflexivity. }
  rewrite toString16_aux_step by assumption. rewrite E2.
  assert (Hq3 : (c / 4096 < 16)%N)
    by (apply N.Div0.div_lt_upper_bound; lia).
  rewrite toString16_aux_last by assumption.
  reflexivity.
Qed.

Lemma hex_digits_value (c : N) :
  (c < 65536)%N ->
  c = ((((c / 4096) * 16 + (c / 256) mod 16) * 16 + (c / 16) mod 16) * 16
       + c mod 16)%N.
Proof.
  intros Hc.
  assert (H16 : (16 <> 0)%N) by lia.
  pose proof (N.div_mod c 16 H16) as H0.
  pose proof (N.div_mod (c / 16) 16 H16) as H1.
  pose proof (N.div_mod (c / 256) 16 H16) as H2.
  assert (E1 : (c / 16 / 16 = c / 256)%N)
    by (rewrite N.Div0.div_div; reflexivity).
  assert (E2 : (c / 256 / 16 = c / 4096)%N)
    by (rewrite N.Div0.div_div; reflexivity).
  rewrite E1 in H1. rewrite E2 in H2.
  lia.
Qed.

Lemma hex_digit_char (d : N) : (d < 16)%N -> hex_digit d = hex_char d.
Proof.
  intros H.
  assert (E : exists n, n < 16 /\ d = N.of_nat n)
    by (exists (N.to_nat d); lia).
  destruct E as [n [Hn ->]].
  do 16 (destruct n as [| n]; [reflexivity |]). lia.
Qed.

Lemma quote_replace_short (c letter : N) :
  In (c, letter) short_escapes -> quote_replace c = [c_backslash; letter].
Proof.
  unfold short_escapes. simpl.
  intros H. repeat (destruct H as [H | H]; [inversion H; reflexivity |]).
  contradiction.
Qed.

Lemma meta_lookup_other (c : N) :
  ~ In c (map fst short_escapes) -> meta_lookup meta c = None.
Proof.
  unfold short_escapes, meta, c_backspace, c_tab, c_newline, c_formfeed,
    c_return, c_dquote, c_backslash. simpl. intros H.
  repeat match goal with
  | |- context [(c =? ?k)%N] =>
      destruct (N.eqb_spec c k); [exfalso; apply H; subst; tauto |]
  end.
  reflexivity.
Qed.

Lemma short_escapes_escapable (c letter : N) :
  In (c, letter) short_escapes -> escapable c.
Proof.
  unfold short_escapes, escapable. simpl. intros H.
  repeat (destruct H as [H | H]; [inversion H; lia |]). contradiction.
Qed.

Lemma quote_replace_spec (c : N) :
  escape_of c (if rx_escapable c then quote_replace c else [c]).
Proof.
  destruct (rx_escapable c) eqn:E.
  - apply rx_escapable_spec in E.
    destruct (in_dec N.eq_dec c (map fst short_escapes)) as [Hin | Hout].
    + apply in_map_iff in Hin. destruct Hin as [[c' letter] [Hc Hin]].
      simpl in Hc. subst c'.
      rewrite (quote_replace_short _ _ Hin). now apply escape_short.
    + unfold quote_replace. rewrite (meta_lookup_other _ Hout).
      pose proof (escapable_bound c E) as Hb.
      rewrite (padded_hex c Hb). simpl app.
      assert (H3 : (c / 4096 < 16)%N)
        by (apply N.Div0.div_lt_upper_bound; lia).
      assert (H2 : ((c / 256) mod 16 < 16)%N) by (apply N.mod_lt; lia).
      assert (H1 : ((c / 16) mod 16 < 16)%N) by (apply N.mod_lt; lia).
      assert (H0 : (c mod 16 < 16)%N) by (apply N.mod_lt; lia).
      rewrite (hex_digit_char _ H3), (hex_digit_char _ H2),
        (hex_digit_char _ H1), (hex_digit_char _ H0).
      apply escape_hex; auto.
      now apply hex_digits_value.
  - apply escape_none. now apply rx_escapable_false.
Qed.

Lemma replace_escapable_pieces (s : jsstring) :
  exists pieces,
    Forall2 escape_of s pieces
    /\ replace_escapable quote_replace s = concat pieces.
Proof.
  induction s as [| c s [pieces [HF Heq]]].
  - exists []. split; [constructor | reflexivity].
  - exists ((if rx_escapable c then quote_replace c else [c]) :: pieces).
    split.
    + constructor; [apply quote_replace_spec | assumption].
    + unfold replace_escapable in *. simpl. now rewrite Heq.
Qed.

Lemma replace_escapable_id (f : N -> jsstring) (s : jsstring) :
  existsb rx_escapable s = false -> replace_escapable f s = s.
Proof.
  unfold replace_escapable. induction s as [| c s IH]; simpl; [reflexivity |].
  rewrite orb_false_iff. intros [Hc Hs]. rewrite Hc. simpl.
  now rewrite IH.
Qed.

(** Both branches of [quote] produce the replaced text between quotes. *)
Lemma quote_unfold (s : jsstring) :
  quote s = c_dquote :: replace_escapable quote_replace s ++ [c_dquote].
Proof.
  unfold quote. destruct (existsb rx_escapable s) eqn:E; [reflexivity |].
  now rewrite replace_escapable_id.
Qed.

(** C5. [quote] escapes exactly the units in the class of [rx_escapable]:
    the seven units of [meta] get their two-character escape, every other
    escaped unit gets a backslash, [u] and its four hexadecimal digits, in
    lower case and most significant first, and every other unit is kept; a
    string without such units is only wrapped in quotes; [stringify] of the
    string a, newline, b, quote, c uses the two-character escapes, and the
    units U+001F, U+007F, U+200C and U+FEFF are written as [\u001f],
    [\u007f], [\u200c] and [\ufeff]. *)
Theorem quote_escapes :
  (forall s : jsstring,
      (exists pieces,
          Forall2 escape_of s pieces
          /\ quote s = [c_dquote] ++ concat pieces ++ [c_dquote])
      /\ ((forall c, In c s -> ~ escapable c) ->
          quote s = [c_dquote] ++ s ++ [c_dquote]))
  /\ stringify create 1 (VString [97; 10; 98; 34; 99]%N)
       (RValue VUndefined) VUndefined
     = Ok (Some [34; 97; 92; 110; 98; 92; 34; 99; 34]%N)
  /\ quote [0x1f; 0x7f; 0x200c; 0xfeff]%N
     = [34; 92; 117; 48; 48; 49; 102; 92; 117; 48; 48; 55; 102;
        92; 117; 50; 48; 48; 99; 92; 117; 102; 101; 102; 102; 34]%N.
Proof.
  split; [| split; reflexivity].
  intros s. split.
  - destruct (replace_escapable_pieces s) as [pieces [HF Heq]].
    exists pieces. split; [assumption |].
    rewrite quote_unfold, Heq. reflexivity.
  - intros Hnone. unfold quote.
    assert (E : existsb rx_escapable s = false).
    { apply not_true_is_false. intros E. apply existsb_exists in E.
      destruct E as [c [Hin Hc]]. apply (Hnone c Hin).
      now apply rx_escapable_spec. }
    now rewrite E.
Qed.

(** ** The tag codec *)

Lemma split_cons_nonempty (sep : N) (s : jsstring) : split sep s <> [].
Proof.
  destruct s as [| c r]; simpl; [discriminate |].
  destruct (c =? sep)%N; [discriminate |].
  destruct (split sep r); discriminate.
Qed.

Lemma split_app_sep (s rest : jsstring) :
  forallb not_comma s = true ->
  split c_comma (s ++ c_comma :: rest) = s :: split c_comma rest.
Proof.
  induction s as [| c s IH]; simpl.
  - intros _. reflexivity.
  - rewrite andb_true_iff. unfold not_comma at 1. rewrite negb_true_iff.
    intros [Hc Hs]. rewrite Hc, (IH Hs). reflexivity.
Qed.

Lemma split_no_sep (s : jsstring) :
  forallb not_comma s = true -> split c_comma s = [s].
Proof.
  induction s as [| c s IH]; simpl; [reflexivity |].
  rewrite andb_true_iff. unfold not_comma at 1. rewrite negb_true_iff.
  intros [Hc Hs]. rewrite Hc, (IH Hs). reflexivity.
Qed.

Lemma span_not_comma_app (s : jsstring) :
  s = fst (span_not_comma s) ++ snd (span_not_comma s).
Proof.
  induction s as [| c s IH]; simpl; [reflexivity |].
  destruct (not_comma c); [| reflexivity].
  destruct (span_not_comma s) as [a rest]. simpl in *. now rewrite <- IH.
Qed.

Lemma span_not_comma_fst (s : jsstring) :
  forallb not_comma (fst (span_not_comma s)) = true.
Proof.
  induction s as [| c s IH]; simpl; [reflexivity |].
  destruct (not_comma c) eqn:E; [| reflexivity].
  destruct (span_not_comma s) as [a rest]. simpl in *. now rewrite E.
Qed.

Lemma span_not_comma_snd (s : jsstring) :
  snd (span_not_comma s) = []
  \/ exists r, snd (span_not_comma s) = c_comma :: r.
Proof.
  induction s as [| c s IH]; simpl; [now left |].
  destruct (not_comma c) eqn:E.
  - destruct (span_not_comma s) as [a rest]. exact IH.
  - right. exists s. unfold not_comma in E. rewrite negb_false_iff in E.
    apply N.eqb_eq in E. now subst.
Qed.

Lemma span_not_comma_all (s : jsstring) :
  forallb not_comma s = true -> span_not_comma s = (s, []).
Proof.
  induction s as [| c s IH]; simpl; [reflexivity |].
  rewrite andb_true_iff. intros [Hc Hs]. rewrite Hc, (IH Hs). reflexivity.
Qed.

(** The first segment of a split is the text before the first comma. *)
Lemma split_head (s : jsstring) :
  nth 0 (split c_comma s) [] = fst (span_not_comma s).
Proof.
  rewrite (span_not_comma_app s) at 1.
  destruct (span_not_comma_snd s) as [E | [r E]]; rewrite E.
  - rewrite app_nil_r, split_no_sep by apply span_not_comma_fst.
    reflexivity.
  - rewrite split_app_sep by apply span_not_comma_fst. reflexivity.
Qed.

(** C3 (as the code has it).  [parseDataURL] gives as value the segment
    between the first and the second comma: the text after the first comma
    up to the next comma, which is all of it when it holds no comma. *)
Theorem parseDataURL_value (head rest : jsstring) :
  forallb not_comma head = true ->
  url_value (parseDataURL (head ++ [c_comma] ++ rest))
  = Some (fst (span_not_comma rest))
  /\ (forallb not_comma rest = true ->
      url_value (parseDataURL (head ++ [c_comma] ++ rest)) = Some rest).
Proof.
  intros Hhead.
  assert (E : url_value (parseDataURL (head ++ [c_comma] ++ rest))
              = Some (fst (span_not_comma rest))).
  { unfold parseDataURL. simpl url_value. simpl app.
    rewrite (split_app_sep head rest Hhead). simpl nth_error.
    pose proof (split_head rest) as Hh.
    destruct (split c_comma rest) as [| seg segs] eqn:Es.
    - now apply split_cons_nonempty in Es.
    - simpl in Hh. now rewrite Hh. }
  split; [exact E |].
  intros Hrest. rewrite E, (span_not_comma_all rest Hrest). reflexivity.
Qed.

Lemma parseDataURL_value_witness :
  forallb not_comma (lit "data:date") = true
  /\ url_value (parseDataURL (lit "data:date" ++ [c_comma] ++ lit "12,3"))
     = Some (lit "12").
Proof.
  split; [reflexivity |].
  exact (proj1 (parseDataURL_value (lit "data:date") (lit "12,3") eq_refl)).
Defined.

(** C3 (counterexample).  For the token [data:x,a,b] the value is [a], not
    the remainder [a,b] after the first comma. *)
Lemma parseDataURL_drops_after_second_comma :
  url_value (parseDataURL (toDataURL (lit "x") (lit "a,b"))) = Some (lit "a")
  /\ url_value (parseDataURL (toDataURL (lit "x") (lit "a,b")))
     <> Some (lit "a,b").
Proof.
  split; [reflexivity | vm_compute; discriminate].
Qed.

Lemma is_type_false (t : option jsstring) (name : String.string) :
  t <> Some (lit name) -> is_type t name = false.
Proof.
  destruct t as [s |]; simpl; [| reflexivity].
  intros H. apply jsstring_eqb_neq. congruence.
Qed.

(** Without reviver and plugins, a string node that does not match the
    token pattern, or whose type as [parseDataURL] extracts it is none of
    [undefined], [number], [bigint], [date], is returned as the same
    string. *)
Lemma unrecognized_token_stays_string (key s : jsstring) :
  token_shape s = false
  \/ (forall name, In name known_types ->
                   url_type (parseDataURL s) <> Some name) ->
  revive None [] key (VString s) = Ok (VString s).
Proof.
  intros H. unfold revive.
  destruct (token_shape s) eqn:Eshape; [| reflexivity].
  destruct H as [H | H]; [discriminate |].
  unfold decode_tag.
  rewrite !is_type_false by (apply H; simpl; tauto).
  reflexivity.
Qed.

(** ** Decimal numerals *)

Lemma uint_units_inj (d d' : Decimal.uint) :
  uint_units d = uint_units d' -> d = d'.
Proof.
  revert d'. induction d; destruct d'; simpl; intros H;
    try discriminate; try reflexivity;
    injection H; intros H'; f_equal; auto.
Qed.

Lemma String_N_inj (n m : N) : String_N n = String_N m -> n = m.
Proof.
  unfold String_N. intros H.
  now apply DecimalN.Unsigned.to_uint_inj, uint_units_inj.
Qed.

Lemma to_uint_normal (n : N) : Decimal.unorm (N.to_uint n) = N.to_uint n.
Proof.
  rewrite <- (DecimalN.Unsigned.of_to n) at 2.
  now rewrite DecimalN.Unsigned.to_of.
Qed.

Lemma to_uint_nonnil (n : N) : N.to_uint n <> Decimal.Nil.
Proof. rewrite <- to_uint_normal. apply DecimalFacts.unorm_nonnil. Qed.

Lemma uint_units_digits (d : Decimal.uint) :
  forallb is_digit (uint_units d) = true.
Proof. induction d; simpl; auto. Qed.

Lemma String_N_digits (n : N) : forallb is_digit (String_N n) = true.
Proof. apply uint_units_digits. Qed.

Lemma String_N_nonempty (n : N) : nonempty (String_N n) = true.
Proof.
  unfold String_N. pose proof (to_uint_nonnil n) as H.
  destruct (N.to_uint n); simpl; congruence.
Qed.

Lemma String_N_not_length (n : N) :
  jsstring_eqb (String_N n) (lit "length") = false.
Proof.
  apply jsstring_eqb_neq. intros E.
  pose proof (String_N_digits n) as H. rewrite E in H. discriminate.
Qed.

(** ** Property access on arrays *)

Lemma find_index (f : nat -> jsstring) (i a n : nat) :
  (forall j k, f j = f k -> j = k) ->
  a <= i < a + n ->
  find (fun j => jsstring_eqb (f j) (f i)) (seq a n) = Some i.
Proof.
  intros Hinj. revert a. induction n as [| n IH]; intros a Hi; [lia |].
  simpl. destruct (jsstring_eqb (f a) (f i)) eqn:E.
  - apply jsstring_eqb_eq, Hinj in E. now subst.
  - apply IH. apply jsstring_eqb_neq in E.
    assert (a <> i) by congruence. lia.
Qed.

Lemma index_name_inj (j k : nat) :
  String_N (N.of_nat j) = String_N (N.of_nat k) -> j = k.
Proof. intros H. apply String_N_inj in H. lia. Qed.

Lemma index_of_key_index (len i : nat) :
  i < len -> index_of_key len (String_N (N.of_nat i)) = Some i.
Proof.
  intros Hi. unfold index_of_key.
  apply (find_index (fun j => String_N (N.of_nat j)));
    [exact index_name_inj | lia].
Qed.

Lemma index_of_key_bound (len : nat) (key : jsstring) (i : nat) :
  index_of_key len key = Some i ->
  i < len /\ key = String_N (N.of_nat i).
Proof.
  unfold index_of_key. intros H. apply find_some in H.
  destruct H as [Hin Heq]. apply in_seq in Hin.
  apply jsstring_eqb_eq in Heq. split; [lia | congruence].
Qed.

Lemma jsstring_eqb_sym (a b : jsstring) :
  jsstring_eqb a b = jsstring_eqb b a.
Proof.
  destruct (jsstring_eqb b a) eqn:E.
  - apply jsstring_eqb_eq in E. subst. apply jsstring_eqb_refl.
  - apply jsstring_eqb_neq. apply jsstring_eqb_neq in E. congruence.
Qed.

(** [elems[i]] *)
Lemma get_array_index (elems : list jsvalue) (i : nat) :
  i < length elems ->
  get (VArray elems) (String_N (N.of_nat i)) = nth i elems VUndefined.
Proof.
  intros Hi. unfold get.
  rewrite String_N_not_length, index_of_key_index by assumption.
  reflexivity.
Qed.

Lemma get_array_length (elems : list jsvalue) :
  get (VArray elems) (lit "length")
  = VNumber (Finite (Z.of_nat (length elems))).
Proof. reflexivity. Qed.

Lemma own_lookup_index (elems : list jsvalue) (i : nat) :
  i < length elems ->
  own_lookup (VArray elems) (String_N (N.of_nat i)) = true.
Proof.
  intros Hi. unfold own_lookup.
  rewrite index_of_key_index by assumption. apply orb_true_r.
Qed.

Lemma own_lookup_field (fields : list (jsstring * jsvalue)) (k : jsstring) :
  In k (map fst fields) -> own_lookup (VObject fields) k = true.
Proof.
  intros Hin. unfold own_lookup.
  destruct (assoc fields k) eqn:E; [reflexivity |]. exfalso.
  induction fields as [| [k' w] fields IH]; [contradiction |].
  simpl in E. destruct (jsstring_eqb k' k) eqn:Ek; [discriminate |].
  destruct Hin as [Hk | Hin]; [| now apply IH].
  simpl in Hk. subst k'. now rewrite jsstring_eqb_refl in Ek.
Qed.

(** ** Loops *)

Lemma bind_ret {A} (m : outcome A) : (x <- m ;; Ok x) = m.
Proof. now destruct m. Qed.

Lemma for_loop_ext (i n : nat) (f g : nat -> outcome (list jsstring)) :
  (forall j, i <= j < i + n -> f j = g j) ->
  for_loop i n f = for_loop i n g.
Proof.
  revert i. induction n as [| n IH]; intros i H; simpl; [reflexivity |].
  rewrite (H i) by lia. rewrite (IH (S i)); [reflexivity |].
  intros j Hj. apply H. lia.
Qed.

Lemma for_loop_abort (i n : nat) (f : nat -> outcome (list jsstring))
  (e : abort) :
  for_loop i n f = Abort e -> exists j, f j = Abort e.
Proof.
  revert i. induction n as [| n IH]; intros i; simpl; [discriminate |].
  destruct (f i) eqn:Ei; simpl.
  - destruct (for_loop (S i) n f) eqn:En; simpl; [discriminate |].
    intros H. injection H as <-. now apply (IH (S i)).
  - intros H. injection H as <-. now exists i.
Qed.

Lemma for_each_abort (keys : list jsstring)
  (f : jsstring -> outcome (list jsstring)) (e : abort) :
  for_each keys f = Abort e -> exists k, f k = Abort e.
Proof.
  induction keys as [| k keys IH]; simpl; [discriminate |].
  destruct (f k) eqn:Ek; simpl.
  - destruct (for_each keys f) eqn:En; simpl; [discriminate |].
    intros H. injection H as <-. now apply IH.
  - intros H. injection H as <-. now exists k.
Qed.

(** A loop over the indices of a list is a loop over its elements. *)
Lemma for_loop_elements (g : jsvalue -> outcome (list jsstring))
  (front l : list jsvalue) :
  for_loop (length front) (length l)
    (fun i => g (nth i (front ++ l) VUndefined))
  = (fix each (l : list jsvalue) : outcome (list jsstring) :=
       match l with
       | [] => Ok []
       | e :: l' =>
           here <- g e ;; rest <- each l' ;; Ok (here ++ rest)
       end) l.
Proof.
  revert front. induction l as [| e l IH]; intros front; simpl;
    [reflexivity |].
  rewrite app_nth2, Nat.sub_diag by lia. simpl.
  destruct (g e) as [here |]; simpl; [| reflexivity].
  specialize (IH (front ++ [e])).
  rewrite length_app in IH. simpl in IH.
  rewrite Nat.add_1_r, <- app_assoc in IH. simpl in IH.
  now rewrite IH.
Qed.

(** ** The replacer guard *)

Lemma loop_bound_abort (v : jsvalue) :
  loop_bound v <> Abort StringifyError.
Proof. destruct v as [| | | [| | |] | | | | | |]; discriminate. Qed.

(** Once [str] runs, the replacer error can no longer occur. *)
Lemma str_not_StringifyError (stack : nat) (c : context)
  (path : list jsstring) (gap key : jsstring) (holder : jsvalue) :
  str stack c path gap key holder <> Abort StringifyError.
Proof.
  revert path gap key holder.
  induction stack as [| stack IH]; intros path gap key holder;
    [discriminate |].
  simpl. destruct (own_lookup holder key); simpl; [| discriminate].
  destruct (transform c (path ++ [key]) key holder)
    as [| | b | [| | | z] | z | s | id | t | elems | fields];
    try discriminate;
    try (destruct (Z.abs z <=? MAX_SAFE_INTEGER)%Z; discriminate).
  - destruct (for_loop _ _ _) eqn:E; simpl; [discriminate |].
    intros H. injection H as ->.
    apply for_loop_abort in E. destruct E as [j Ej].
    destruct (str stack _ _ _ _ _) eqn:Es; simpl in Ej; [discriminate |].
    injection Ej as ->. now apply IH in Es.
  - assert (Hbody : forall k,
      (v <- str stack c (path ++ [key]) (gap ++ indent c) k (VObject fields) ;;
       match v with
       | Some t =>
           if nonempty t then Ok [member (gap ++ indent c) k t] else Ok []
       | None => Ok []
       end) <> Abort StringifyError).
    { intros k.
      destruct (str stack c (path ++ [key]) (gap ++ indent c) k
                  (VObject fields)) as [[t |] | e] eqn:Es; simpl;
        try discriminate.
      - destruct (nonempty t); discriminate.
      - intros H. injection H as ->. now apply IH in Es. }
    destruct (rep_truthy (rep c) && jstype_eqb (rep_typeof (rep c)) TObject).
    + destruct (loop_bound (rep_get (rep c) (lit "length"))) as [n | e]
        eqn:El; simpl.
      * destruct (for_loop 0 n _) eqn:E; simpl; [discriminate |].
        intros H. injection H as ->.
        apply for_loop_abort in E. destruct E as [j Ej].
        destruct (rep_get (rep c) (String_N (N.of_nat j)));
          try discriminate.
        now apply Hbody in Ej.
      * intros H. injection H as ->. now apply loop_bound_abort in El.
    + destruct (for_each (map fst fields) _) eqn:E; simpl; [discriminate |].
      intros H. injection H as ->.
      apply for_each_abort in E. destruct E as [k Ek].
      now apply Hbody in Ek.
Qed.

Lemma invalid_replacer_spec (replacer : replacer_arg) :
  invalid_replacer replacer = true
  <-> match replacer with
      | RFunction _ => False
      | RValue v => truthy v = true /\ ~ array_like v
      end.
Proof.
  unfold invalid_replacer, array_like.
  destruct replacer as [f | v]; simpl.
  - split; [discriminate | contradiction].
  - destruct (truthy v); simpl; [| split; [discriminate | tauto]].
    destruct (typeof v) eqn:Et; simpl;
      try (split; [intros _; split; [reflexivity | intros [H _]; discriminate]
                  | reflexivity]).
    destruct (get v (lit "length")) eqn:El; simpl;
      try (split;
           [intros _; split; [reflexivity | intros [_ [n H]]; discriminate]
           | reflexivity]).
    + split; [discriminate |].
      intros [_ H]. exfalso. apply H. split; [reflexivity | eauto].
    + destruct v; discriminate.
Qed.

(** C7 (as the code has it).  [stringify] fails with the replacer error
    exactly when the replacer is truthy, is no function and is no object
    with a numeric [length]; a falsy replacer of any type is accepted. *)
Theorem stringify_replacer_error (this : JSSerialization) (stack : nat)
  (value : jsvalue) (replacer : replacer_arg) (space : jsvalue) :
  space <> VNumber Infinity ->
  (stringify this stack value replacer space = Abort StringifyError
   <-> match replacer with
       | RFunction _ => False
       | RValue v => truthy v = true /\ ~ array_like v
       end).
Proof.
  intros Hspace. rewrite <- invalid_replacer_spec. unfold stringify.
  assert (Hi : exists i, indent_of space = Ok i).
  { destruct space as [| | | [| | |] | | | | | |]; simpl; eauto.
    congruence. }
  destruct Hi as [i ->]. simpl.
  destruct (invalid_replacer replacer).
  - tauto.
  - split; [| discriminate].
    intros H. now apply str_not_StringifyError in H.
Qed.

Lemma stringify_replacer_error_witness :
  VUndefined <> VNumber Infinity
  /\ stringify create 1 VNull (RValue (VBoolean true)) VUndefined
     = Abort StringifyError.
Proof.
  split; [discriminate |].
  apply (stringify_replacer_error create 1 VNull (RValue (VBoolean true))
           VUndefined); [discriminate |].
  split; [reflexivity |]. intros [H _]. discriminate.
Defined.

(** C7 (counterexample).  The replacer [false] is neither a function, nor
    [null], nor [undefined], nor array-like, and [stringify] accepts it. *)
Lemma stringify_accepts_false_replacer :
  ~ (forall v : jsvalue,
        v <> VNull -> v <> VUndefined -> ~ array_like v ->
        stringify create 1 VNull (RValue v) VUndefined
        = Abort StringifyError).
Proof.
  intros H. specialize (H (VBoolean false)).
  assert (E : stringify create 1 VNull (RValue (VBoolean false)) VUndefined
              = Ok (Some (lit "null"))) by reflexivity.
  rewrite H in E; try discriminate.
  intros [Ht _]. discriminate.
Qed.

(** ** The encoder without user code *)

Lemma transform_no_hooks (c : context) (path : list jsstring)
  (key : jsstring) (holder : jsvalue) :
  no_hooks c -> transform c path key holder = get holder key.
Proof.
  intros [Hp Hr]. unfold transform. rewrite Hp. simpl.
  destruct (rep c); [contradiction | reflexivity].
Qed.

Lemma each_string_entries (body : jsstring -> outcome (list jsstring))
  (entries : list jsvalue) :
  (fix each (l : list jsvalue) : outcome (list jsstring) :=
     match l with
     | [] => Ok []
     | e :: l' =>
         here <- match e with VString k => body k | _ => Ok [] end ;;
         rest <- each l' ;;
         Ok (here ++ rest)
     end) entries
  = for_each (string_entries entries) body.
Proof.
  induction entries as [| e entries IH]; [reflexivity |].
  rewrite IH.
  destruct e; simpl; try apply bind_ret.
  reflexivity.
Qed.

(** ** Loops whose steps are known *)

Lemma for_each_known {R} (keys : list jsstring) (results : list R)
  (body : jsstring -> outcome (list jsstring))
  (out : jsstring -> R -> list jsstring) :
  Forall2 (fun k r => body k = Ok (out k r)) keys results ->
  for_each keys body
  = Ok (flat_map (fun kr => out (fst kr) (snd kr)) (combine keys results)).
Proof.
  induction 1 as [| k r keys results Hk _ IH]; [reflexivity |].
  simpl. now rewrite Hk, IH.
Qed.

Lemma for_loop_known {R} (n : nat) (results : list R)
  (body : nat -> outcome (list jsstring)) (out : R -> jsstring) :
  forall i,
    Forall2 (fun j r => body j = Ok [out r]) (seq i n) results ->
    for_loop i n body = Ok (map out results).
Proof.
  revert results. induction n as [| n IH]; intros results i H.
  - inversion H. reflexivity.
  - simpl in H. inversion H as [| j r js rs Hj Hrest]; subst.
    simpl. rewrite Hj. simpl. now rewrite (IH rs (S i) Hrest).
Qed.

Lemma join_joined (sep : jsstring) (texts : list jsstring) :
  join sep texts = joined sep texts.
Proof.
  destruct texts as [| t rest]; [reflexivity |].
  revert t. induction rest as [| u rest IH]; intros t.
  - simpl. now rewrite app_nil_r.
  - change (join sep (t :: u :: rest)) with (t ++ sep ++ join sep (u :: rest)).
    rewrite IH. simpl. now rewrite <- app_assoc.
Qed.

(** [wrap] writes what the specification says of brackets. *)
Lemma wrap_enclosed (open close : N) (gap mind : jsstring)
  (texts : list jsstring) :
  wrap open close gap mind texts = enclosed [open] [close] gap mind texts.
Proof.
  unfold wrap, enclosed. destruct texts as [| t rest]; [reflexivity |].
  rewrite !join_joined. destruct gap; reflexivity.
Qed.

Lemma or_null_element (r : option jsstring) : or_null r = element_text r.
Proof. destruct r as [[| u t] |]; reflexivity. Qed.

Lemma member_step (gap k : jsstring) (r : option jsstring) :
  match r with
  | Some t => if nonempty t then Ok [member gap k t] else Ok []
  | None => Ok []
  end = Ok (member_texts gap k r).
Proof.
  destruct r as [[| u t] |]; try reflexivity.
  unfold member, member_texts. now destruct gap.
Qed.

(** The loop over an inclusion list is a loop over its string entries. *)
Lemma inclusion_list_loop (stack : nat) (c : context)
  (path : list jsstring) (gap key : jsstring) (holder : jsvalue)
  (fields : list (jsstring * jsvalue)) (entries : list jsvalue) :
  own_lookup holder key = true ->
  transform c (path ++ [key]) key holder = VObject fields ->
  rep c = RValue (VArray entries) ->
  str (S stack) c path gap key holder
  = (partial <-
       for_each (string_entries entries)
         (fun k =>
            v <- str stack c (path ++ [key]) (gap ++ indent c) k
                   (VObject fields) ;;
            match v with
            | Some t =>
                if nonempty t then Ok [member (gap ++ indent c) k t]
                else Ok []
            | None => Ok []
            end) ;;
     Ok (Some (wrap 123 125 (gap ++ indent c) gap partial))).
Proof.
  intros Hl Ht Hr. simpl str. rewrite Hl. cbn [negb]. cbv iota.
  rewrite Ht, Hr. simpl rep_truthy. simpl rep_typeof. simpl andb. cbv iota.
  unfold rep_get. rewrite get_array_length. simpl loop_bound.
  rewrite Nat2Z.id. simpl bind at 2.
  f_equal.
  rewrite <- each_string_entries.
  rewrite <- (for_loop_elements
                (fun e =>
                   match e with
                   | VString k =>
                       v <- str stack c (path ++ [key]) (gap ++ indent c) k
                              (VObject fields) ;;
                       match v with
                       | Some t =>
                           if nonempty t
                           then Ok [member (gap ++ indent c) k t]
                           else Ok []
                       | None => Ok []
                       end
                   | _ => Ok []
                   end) [] entries).
  apply for_loop_ext. intros j Hj. simpl in Hj. cbv beta.
  rewrite get_array_index by lia. rewrite app_nil_l. reflexivity.
Qed.

(** C4 (as the code has it).  When the replacer is an array, an object node
    looks up the string entries of the array, entry by entry in the order
    of the array; entries that are no strings are skipped and keys that are
    not listed are not visited.  An entry whose value has a text gives one
    member (the quoted key, a colon and the text), an entry whose value has
    none gives no member, and an entry that occurs twice is looked up and
    written twice.  The members stand between braces, joined with commas,
    or one per line behind the indent.  So [stringify({a:1,b:2,c:3},
    ['c','a'])] is the member [c] and then the member [a]. *)
Theorem inclusion_list_members (stack : nat) (c : context)
  (path : list jsstring) (gap key : jsstring) (holder : jsvalue)
  (fields : list (jsstring * jsvalue)) (entries : list jsvalue)
  (results : list (option jsstring)) :
  own_lookup holder key = true ->
  transform c (path ++ [key]) key holder = VObject fields ->
  rep c = RValue (VArray entries) ->
  Forall2 (fun k r =>
             str stack c (path ++ [key]) (gap ++ indent c) k (VObject fields)
             = Ok r)
    (string_entries entries) results ->
  str (S stack) c path gap key holder
  = Ok (Some (enclosed (lit "{") (lit "}") (gap ++ indent c) gap
                (flat_map (fun kr => member_texts (gap ++ indent c)
                                       (fst kr) (snd kr))
                   (combine (string_entries entries) results))))
  /\ stringify create 2
       (VObject [(lit "a", VNumber (Finite 1)); (lit "b", VNumber (Finite 2));
                 (lit "c", VNumber (Finite 3))])
       (RValue (VArray [VString (lit "c"); VString (lit "a")])) VUndefined
     = Ok (Some ([123; 34; 99; 34; 58; 51; 44; 34; 97; 34; 58; 49; 125]%N)).
Proof.
  intros Hl Ht Hr HF. split; [| reflexivity].
  rewrite (inclusion_list_loop stack c path gap key holder fields entries
             Hl Ht Hr).
  rewrite (for_each_known (string_entries entries) results _
             (member_texts (gap ++ indent c))).
  - simpl bind. now rewrite wrap_enclosed.
  - clear - HF. induction HF as [| k r ks rs Hk _ IH]; constructor;
      [| exact IH].
    rewrite Hk. simpl bind. apply member_step.
Qed.

Lemma inclusion_list_members_witness :
  str 2
    {| indent := []; rep := RValue (VArray [VString (lit "z"); VNull;
                                            VString (lit "s");
                                            VString (lit "z")]);
       plugins := [] |}
    [] [] [] (VObject [([], VObject [(lit "z", VNull);
                                     (lit "s", VSymbol 4)])])
  = Ok (Some ([123; 34; 122; 34; 58; 110; 117; 108; 108; 44;
               34; 122; 34; 58; 110; 117; 108; 108; 125]%N)).
Proof.
  refine (eq_trans
            (proj1 (inclusion_list_members 1
                      {| indent := [];
                         rep := RValue (VArray [VString (lit "z"); VNull;
                                                VString (lit "s");
                                                VString (lit "z")]);
                         plugins := [] |}
                      [] [] []
                      (VObject [([], VObject [(lit "z", VNull);
                                              (lit "s", VSymbol 4)])])
                      [(lit "z", VNull); (lit "s", VSymbol 4)]
                      [VString (lit "z"); VNull; VString (lit "s");
                       VString (lit "z")]
                      [Some (lit "null"); None; Some (lit "null")]
                      eq_refl eq_refl eq_refl _)) _).
  - repeat constructor.
  - reflexivity.
Defined.

(** C4 (counterexample).  An entry listed twice is emitted twice: the text
    for the list [a, a] has two members and differs from the text for the
    list [a]. *)
Lemma inclusion_list_duplicates_output :
  stringify create 2 (VObject [(lit "a", VNumber (Finite 1))])
    (RValue (VArray [VString (lit "a"); VString (lit "a")])) VUndefined
  = Ok (Some (lit "{" ++ quote (lit "a") ++ lit ":1," ++ quote (lit "a")
                ++ lit ":1}"))
  /\ stringify create 2 (VObject [(lit "a", VNumber (Finite 1))])
       (RValue (VArray [VString (lit "a"); VString (lit "a")])) VUndefined
     <> stringify create 2 (VObject [(lit "a", VNumber (Finite 1))])
          (RValue (VArray [VString (lit "a")])) VUndefined.
Proof.
  split; [reflexivity | vm_compute; discriminate].
Qed.

Lemma array_loop (stack : nat) (c : context) (path : list jsstring)
  (gap key : jsstring) (holder : jsvalue) (elems : list jsvalue) :
  own_lookup holder key = true ->
  transform c (path ++ [key]) key holder = VArray elems ->
  str (S stack) c path gap key holder
  = (partial <-
       for_loop 0 (length elems)
         (fun i =>
            v <- str stack c (path ++ [key]) (gap ++ indent c)
                   (String_N (N.of_nat i)) (VArray elems) ;;
            Ok [or_null v]) ;;
     Ok (Some (wrap 91 93 (gap ++ indent c) gap partial))).
Proof.
  intros Hl Ht. simpl str. rewrite Hl. cbn [negb]. cbv iota.
  now rewrite Ht.
Qed.

(** What [str] returns for an element of an array when no user code runs:
    [undefined] exactly for a symbol. *)
Lemma element_without_text (stack : nat) (c : context)
  (path : list jsstring) (gap : jsstring) (elems : list jsvalue) (i : nat)
  (r : option jsstring) :
  no_hooks c -> i < length elems ->
  str (S stack) c path gap (String_N (N.of_nat i)) (VArray elems) = Ok r ->
  (r = None <-> exists id, nth i elems VUndefined = VSymbol id).
Proof.
  intros Hc Hi. simpl str.
  rewrite (own_lookup_index elems i Hi). cbn [negb]. cbv iota.
  rewrite (transform_no_hooks c _ _ _ Hc), (get_array_index elems i Hi).
  destruct (nth i elems VUndefined)
    as [| | b | [| | | z] | z | s | id | t | l | l];
    try (intros H; injection H as <-;
         split; [discriminate | intros [id' E]; discriminate E]).
  - destruct (Z.abs z <=? MAX_SAFE_INTEGER)%Z; [| discriminate].
    intros H. injection H as <-.
    split; [discriminate | intros [id' E]; discriminate E].
  - intros H. injection H as <-. split; [eauto | reflexivity].
  - match goal with |- bind ?m _ = _ -> _ => destruct m end;
      [| discriminate].
    simpl. intros H. injection H as <-.
    split; [discriminate | intros [id' E]; discriminate E].
  - match goal with |- bind ?m _ = _ -> _ => destruct m end;
      [| discriminate].
    simpl. intros H. injection H as <-.
    split; [discriminate | intros [id' E]; discriminate E].
Qed.

(** C9 (as the code has it).  An array is encoded by encoding the indices
    [0 .. length-1] in order.  The text of an element is what [str] returns
    for it, and [null] when [str] returns [undefined]; the element texts
    stand between brackets, joined with commas, or each on a line of its own
    behind the accumulated indent when that indent is not empty, with the
    closing bracket behind the outer indent.  An absent element has a text,
    the quoted token [data:undefined,], so it is not written as [null]; a
    symbol has none; and without user code the symbols are the only elements
    without a text. *)
Theorem array_encoding (stack : nat) (c : context) (path : list jsstring)
  (gap key : jsstring) (holder : jsvalue) (elems : list jsvalue)
  (results : list (option jsstring)) :
  own_lookup holder key = true ->
  transform c (path ++ [key]) key holder = VArray elems ->
  let path' := path ++ [key] in
  let gap' := gap ++ indent c in
  let index i := String_N (N.of_nat i) in
  Forall2 (fun i r => str (S stack) c path' gap' (index i) (VArray elems)
                      = Ok r)
    (seq 0 (length elems)) results ->
  str (S (S stack)) c path gap key holder
  = Ok (Some (enclosed (lit "[") (lit "]") gap' gap
                (map element_text results)))
  /\ (forall i, i < length elems ->
        transform c (path' ++ [index i]) (index i) (VArray elems)
        = VUndefined ->
        str (S stack) c path' gap' (index i) (VArray elems)
        = Ok (Some ([c_dquote] ++ lit "data:undefined," ++ [c_dquote])))
  /\ (forall i id, i < length elems ->
        transform c (path' ++ [index i]) (index i) (VArray elems)
        = VSymbol id ->
        str (S stack) c path' gap' (index i) (VArray elems) = Ok None)
  /\ (no_hooks c ->
      forall i r, i < length elems ->
        str (S stack) c path' gap' (index i) (VArray elems) = Ok r ->
        (r = None <-> exists id, nth i elems VUndefined = VSymbol id)).
Proof.
  intros Hl Ht path' gap' index HF. subst path' gap' index.
  cbv beta in HF.
  split; [| split; [| split]].
  - rewrite (array_loop (S stack) c path gap key holder elems Hl Ht).
    rewrite (for_loop_known (length elems) results _ element_text 0).
    + simpl bind. now rewrite wrap_enclosed.
    + clear - HF. induction HF as [| i r js rs Hi _ IH]; constructor;
        [| exact IH].
      rewrite Hi. simpl bind. now rewrite or_null_element.
  - intros i Hi Hu. simpl str.
    rewrite (own_lookup_index elems i Hi). cbn [negb]. cbv iota.
    rewrite Hu. reflexivity.
  - intros i id Hi Hs. simpl str.
    rewrite (own_lookup_index elems i Hi). cbn [negb]. cbv iota.
    now rewrite Hs.
  - intros Hc i r Hi. now apply element_without_text.
Qed.

Lemma array_encoding_witness :
  str 2 {| indent := lit "  "; rep := RValue VNull; plugins := [] |}
    [] [] [] (VObject [([], VArray [VNumber (Finite 1); VUndefined;
                                    VSymbol 7; VNull])])
  = Ok (Some ([91; 10; 32; 32; 49; 44; 10; 32; 32; 34]%N
                ++ lit "data:undefined,"
                ++ [34; 44; 10; 32; 32; 110; 117; 108; 108; 44; 10; 32; 32;
                    110; 117; 108; 108; 10; 93]%N)).
Proof.
  refine (eq_trans
            (proj1 (array_encoding 0
                      {| indent := lit "  "; rep := RValue VNull;
                         plugins := [] |}
                      [] [] []
                      (VObject [([], VArray [VNumber (Finite 1); VUndefined;
                                             VSymbol 7; VNull])])
                      [VNumber (Finite 1); VUndefined; VSymbol 7; VNull]
                      [Some (lit "1");
                       Some ([c_dquote] ++ lit "data:undefined,"
                               ++ [c_dquote]);
                       None; Some (lit "null")]
                      eq_refl eq_refl _)) _).
  - repeat constructor.
  - reflexivity.
Defined.

(** C9 (counterexample).  An absent element does not become [null]: the
    array holding one absent element is encoded as the array of the quoted
    token. *)
Lemma array_absent_element_is_tagged :
  stringify create 2 (VArray [VUndefined]) (RValue VUndefined) VUndefined
  = Ok (Some (lit "[" ++ quote (lit "data:undefined,") ++ lit "]"))
  /\ stringify create 2 (VArray [VUndefined]) (RValue VUndefined) VUndefined
     <> Ok (Some (lit "[null]")).
Proof.
  split; [reflexivity | vm_compute; discriminate].
Qed.

(** C10.  [stringify] of a top-level absent value is the quoted token
    [data:undefined,]; [parse] of that text returns the symbol
    [undefinedSymbol], which is not the absent value; the sweep finds no key
    under a symbol and leaves the root as it is. *)
Theorem parse_top_level_absent_is_sentinel :
  (forall stack,
      stringify create (S stack) VUndefined (RValue VUndefined) VUndefined
      = Ok (Some (quote (lit "data:undefined,"))))
  /\ parse create (quote (lit "data:undefined,")) None = Ok undefinedSymbol
  /\ undefinedSymbol <> VUndefined
  /\ (forall fuel, sweep (S fuel) undefinedSymbol [[]] = Ok undefinedSymbol).
Proof.
  split; [intros stack; reflexivity |].
  split; [vm_compute; reflexivity |].
  split; [discriminate | intros fuel; destruct fuel; reflexivity].
Qed.

(** ** Property access *)

Lemma get_inert (v : jsvalue) (k : jsstring) :
  structure v = false -> leafy (get v k) = true.
Proof.
  destruct v; try discriminate; intros _; try reflexivity.
  unfold get. destruct (jsstring_eqb k (lit "length")); [reflexivity |].
  destruct (index_of_key (length s) k) as [i |]; [| reflexivity].
  destruct (nth_error s i); reflexivity.
Qed.

Lemma leafy_inert (v : jsvalue) : leafy v = true -> structure v = false.
Proof. destruct v; simpl; congruence. Qed.

Lemma deref_cons (json : jsvalue) (k : jsstring) (p : ref) :
  deref json (k :: p) = deref (get json k) p.
Proof. reflexivity. Qed.

Lemma deref_app (json : jsvalue) (a b : ref) :
  deref json (a ++ b) = deref (deref json a) b.
Proof. unfold deref. apply fold_left_app. Qed.

Lemma deref_leafy (v : jsvalue) (p : ref) :
  leafy v = true -> leafy (deref v p) = true.
Proof.
  revert v. induction p as [| k p IH]; intros v Hv; [exact Hv |].
  rewrite deref_cons. apply IH, get_inert, leafy_inert, Hv.
Qed.

Lemma deref_inert (v : jsvalue) (p : ref) :
  structure v = false -> p <> [] -> leafy (deref v p) = true.
Proof.
  intros Hv Hp. destruct p as [| k p]; [congruence |].
  rewrite deref_cons. apply deref_leafy, get_inert, Hv.
Qed.

Lemma leafy_not_marker (v : jsvalue) :
  leafy v = true -> is_undefinedSymbol v = false.
Proof. destruct v; simpl; congruence. Qed.

Lemma leafy_not_container (v : jsvalue) :
  leafy v = true -> is_container v = false.
Proof.
  destruct v as [| | b | n | z | s | id | t | elems | fields];
    simpl; try congruence; intros _; unfold is_container; simpl;
    try reflexivity.
  - now rewrite andb_false_r.
  - now rewrite andb_false_r.
  - now rewrite andb_false_r.
  - now rewrite andb_false_r.
Qed.

Lemma marker_not_container (v : jsvalue) :
  is_undefinedSymbol v = true -> is_container v = false.
Proof. destruct v; simpl; try discriminate. reflexivity. Qed.

(** A value below which the marker or a container is found has fields. *)
Lemma deref_marker_structure (v : jsvalue) (p : ref) :
  p <> [] -> leafy (deref v p) = false -> structure v = true.
Proof.
  intros Hp H. destruct (structure v) eqn:E; [reflexivity |].
  rewrite (deref_inert v p E Hp) in H. discriminate.
Qed.

Lemma get_has_field (h : jsvalue) (k : jsstring) :
  leafy (get h k) = false -> has_field h k = true.
Proof.
  destruct h as [| | b | n | z | s | id | t | elems | fields];
    try (intros H; now rewrite get_inert in H).
  - unfold get, has_field.
    destruct (jsstring_eqb k (lit "length")); [discriminate |].
    destruct (index_of_key (length elems) k); [reflexivity | discriminate].
  - unfold get, has_field.
    destruct (assoc fields k); [reflexivity | discriminate].
Qed.

Lemma set_nth_length (l : list jsvalue) (i : nat) (x : jsvalue) :
  length (set_nth l i x) = length l.
Proof.
  revert i. induction l as [| e l IH]; intros [| i]; simpl; auto.
Qed.

Lemma set_nth_same (l : list jsvalue) (i : nat) (x d : jsvalue) :
  i < length l -> nth i (set_nth l i x) d = x.
Proof.
  revert i. induction l as [| e l IH]; intros [| i]; simpl; try lia; auto.
  intros H. apply IH. lia.
Qed.

Lemma set_nth_other (l : list jsvalue) (i j : nat) (x d : jsvalue) :
  i <> j -> nth j (set_nth l i x) d = nth j l d.
Proof.
  revert i j. induction l as [| e l IH]; intros [| i] [| j] H; simpl;
    try congruence; auto.
Qed.

Lemma assoc_set_same (fields : list (jsstring * jsvalue)) (k : jsstring)
  (x : jsvalue) :
  assoc fields k <> None -> assoc (assoc_set fields k x) k = Some x.
Proof.
  induction fields as [| [k' v] fields IH]; simpl; [congruence |].
  destruct (jsstring_eqb k' k) eqn:E; simpl; rewrite E; auto.
Qed.

Lemma assoc_set_other (fields : list (jsstring * jsvalue)) (k k' : jsstring)
  (x : jsvalue) :
  k' <> k -> assoc (assoc_set fields k x) k' = assoc fields k'.
Proof.
  intros Hk. induction fields as [| [k0 v] fields IH]; simpl; [reflexivity |].
  destruct (jsstring_eqb k0 k) eqn:E; simpl.
  - apply jsstring_eqb_eq in E. subst k0.
    apply jsstring_eqb_neq in Hk. rewrite jsstring_eqb_sym in Hk.
    now rewrite Hk.
  - destruct (jsstring_eqb k0 k'); [reflexivity | exact IH].
Qed.

Lemma get_set_same (h : jsvalue) (k : jsstring) (x : jsvalue) :
  has_field h k = true -> get (set h k x) k = x.
Proof.
  destruct h as [| | b | n | z | s | id | t | elems | fields];
    try discriminate.
  - unfold has_field.
    destruct (jsstring_eqb k (lit "length")) eqn:El; [discriminate |].
    destruct (index_of_key (length elems) k) as [i |] eqn:Ei;
      [| discriminate].
    intros _. unfold set. rewrite El, Ei.
    unfold get. rewrite El, set_nth_length, Ei.
    apply set_nth_same. now apply index_of_key_bound in Ei.
  - unfold has_field. intros H. unfold set, get.
    rewrite assoc_set_same; [reflexivity |].
    destruct (assoc fields k); congruence.
Qed.

Lemma get_set_other (h : jsvalue) (k k' : jsstring) (x : jsvalue) :
  k' <> k -> get (set h k x) k' = get h k'.
Proof.
  intros Hk.
  destruct h as [| | b | n | z | s | id | t | elems | fields];
    try reflexivity.
  - unfold set.
    destruct (jsstring_eqb k (lit "length")); [reflexivity |].
    destruct (index_of_key (length elems) k) as [i |] eqn:Ei;
      [| reflexivity].
    unfold get. rewrite set_nth_length.
    destruct (jsstring_eqb k' (lit "length")); [reflexivity |].
    destruct (index_of_key (length elems) k') as [j |] eqn:Ej;
      [| reflexivity].
    apply set_nth_other. intros ->.
    apply index_of_key_bound in Ei, Ej. destruct Ei as [_ ->], Ej as [_ ->].
    congruence.
  - unfold get, set. now rewrite assoc_set_other.
Qed.

Lemma set_structure (h : jsvalue) (k : jsstring) (x : jsvalue) :
  structure (set h k x) = structure h
  /\ is_undefinedSymbol (set h k x) = is_undefinedSymbol h.
Proof.
  destruct h as [| | b | n | z | s | id | t | elems | fields];
    try (split; reflexivity).
  unfold set. destruct (jsstring_eqb k (lit "length")); [now split |].
  destruct (index_of_key (length elems) k); now split.
Qed.

(** ** Cleaning *)

Lemma clean_array (elems : list jsvalue) :
  clean (VArray elems) = VArray (map clean_field elems).
Proof. reflexivity. Qed.

Lemma clean_object (fields : list (jsstring * jsvalue)) :
  clean (VObject fields)
  = VObject (map (fun kv => (fst kv, clean_field (snd kv))) fields).
Proof. reflexivity. Qed.

Lemma clean_marker (v : jsvalue) :
  is_undefinedSymbol (clean v) = is_undefinedSymbol v.
Proof. now destruct v. Qed.

Lemma clean_structure (v : jsvalue) : structure (clean v) = structure v.
Proof. now destruct v. Qed.

Lemma clean_container (v : jsvalue) : is_container (clean v) = is_container v.
Proof. now destruct v. Qed.

Lemma clean_undefined (v : jsvalue) : clean v = VUndefined -> v = VUndefined.
Proof. destruct v; simpl; congruence. Qed.

Lemma clean_field_nodes (v : jsvalue) :
  nodes (clean v) = nodes v -> nodes (clean_field v) = nodes v.
Proof.
  unfold clean_field. destruct (is_undefinedSymbol v) eqn:E; [| auto].
  destruct v; try discriminate. reflexivity.
Qed.

Lemma clean_nodes (v : jsvalue) : nodes (clean v) = nodes v.
Proof.
  induction v as [| | b | n | z | s | id | t | elems IH | fields IH]
    using jsvalue_ind; try reflexivity.
  - rewrite clean_array. simpl. f_equal.
    induction IH as [| e elems He _ IHl]; simpl; [reflexivity |].
    now rewrite (clean_field_nodes e He), IHl.
  - rewrite clean_object. simpl. f_equal.
    induction IH as [| [k e] fields He _ IHl]; simpl; [reflexivity |].
    simpl in He. now rewrite (clean_field_nodes e He), IHl.
Qed.

Lemma clean_keys (v : jsvalue) : Object_keys (clean v) = Object_keys v.
Proof.
  destruct v as [| | b | n | z | s | id | t | elems | fields];
    try reflexivity.
  - rewrite clean_array. simpl. now rewrite length_map.
  - rewrite clean_object. simpl. now rewrite map_map.
Qed.

Lemma clean_field_distinct (v : jsvalue) :
  distinct_keys (clean v) = distinct_keys v ->
  distinct_keys (clean_field v) = distinct_keys v.
Proof.
  unfold clean_field. destruct (is_undefinedSymbol v) eqn:E; [| auto].
  destruct v; try discriminate. reflexivity.
Qed.

Lemma clean_distinct (v : jsvalue) :
  distinct_keys (clean v) = distinct_keys v.
Proof.
  induction v as [| | b | n | z | s | id | t | elems IH | fields IH]
    using jsvalue_ind; try reflexivity.
  - rewrite clean_array. simpl.
    induction IH as [| e elems He _ IHl]; simpl; [reflexivity |].
    now rewrite (clean_field_distinct e He), IHl.
  - rewrite clean_object. simpl. rewrite map_map. simpl. f_equal.
    induction IH as [| [k e] fields He _ IHl]; simpl; [reflexivity |].
    simpl in He. now rewrite (clean_field_distinct e He), IHl.
Qed.

Lemma clean_field_set_nth (elems : list jsvalue) (i : nat) (x : jsvalue) :
  clean_field x = clean_field (nth i elems VUndefined) ->
  map clean_field (set_nth elems i x) = map clean_field elems.
Proof.
  revert i. induction elems as [| e elems IH]; intros [| i] H; simpl in *;
    try reflexivity.
  - now rewrite H.
  - now rewrite IH.
Qed.

Lemma clean_field_assoc_set (fields : list (jsstring * jsvalue))
  (k : jsstring) (x : jsvalue) :
  clean_field x
  = clean_field (match assoc fields k with Some v => v | None => VUndefined
                 end) ->
  map (fun kv => (fst kv, clean_field (snd kv))) (assoc_set fields k x)
  = map (fun kv => (fst kv, clean_field (snd kv))) fields.
Proof.
  induction fields as [| [k' v] fields IH]; simpl; [reflexivity |].
  destruct (jsstring_eqb k' k); simpl; intros H.
  - now rewrite H.
  - now rewrite IH.
Qed.

(** Writing a value that cleans like the old one keeps the clean holder. *)
Lemma clean_set (h : jsvalue) (k : jsstring) (x : jsvalue) :
  clean_field x = clean_field (get h k) ->
  clean (set h k x) = clean h.
Proof.
  destruct h as [| | b | n | z | s | id | t | elems | fields];
    try reflexivity.
  - unfold get, set.
    destruct (jsstring_eqb k (lit "length")); [reflexivity |].
    destruct (index_of_key (length elems) k) as [i |]; [| reflexivity].
    intros H. rewrite !clean_array. f_equal.
    now apply clean_field_set_nth.
  - unfold get, set. intros H. rewrite !clean_object. f_equal.
    now apply clean_field_assoc_set.
Qed.

(** ** The relation between a document and its later states *)

Lemma settled_refl (a : jsvalue) : settled a a.
Proof. split; auto. Qed.

Lemma settled_trans (a b c : jsvalue) :
  settled a b -> settled b c -> settled a c.
Proof. intros [H1 H2] [H3 H4]. split; [congruence | auto]. Qed.

Lemma settled_clean (a b : jsvalue) :
  settled a b -> is_undefinedSymbol a = false ->
  clean a = clean b /\ is_undefinedSymbol b = false.
Proof.
  intros [H1 H2] Ha.
  assert (Hb : is_undefinedSymbol b = false).
  { destruct (is_undefinedSymbol b); [| reflexivity].
    rewrite H2 in Ha; [discriminate | reflexivity]. }
  split; [| exact Hb].
  unfold clean_field in H1. now rewrite Ha, Hb in H1.
Qed.

Lemma settled_marker (a b : jsvalue) :
  settled a b -> is_undefinedSymbol a = true ->
  is_undefinedSymbol b = true \/ b = VUndefined.
Proof.
  intros [H1 _] Ha. unfold clean_field in H1. rewrite Ha in H1.
  destruct (is_undefinedSymbol b); [now left | right].
  now apply clean_undefined.
Qed.

Lemma settled_container (a b : jsvalue) :
  settled a b -> is_container b = is_container a.
Proof.
  intros H. destruct (is_undefinedSymbol a) eqn:Ea.
  - rewrite (marker_not_container a Ea).
    destruct (settled_marker a b H Ea) as [Hb | ->];
      [now apply marker_not_container | reflexivity].
  - destruct (settled_clean a b H Ea) as [Hc _].
    now rewrite <- (clean_container b), <- Hc, clean_container.
Qed.

Lemma settled_nodes (a b : jsvalue) : settled a b -> nodes b = nodes a.
Proof.
  intros H. destruct (is_undefinedSymbol a) eqn:Ea.
  - destruct (settled_marker a b H Ea) as [Hb | ->].
    + destruct a, b; try discriminate. reflexivity.
    + destruct a; try discriminate. reflexivity.
  - destruct (settled_clean a b H Ea) as [Hc _].
    now rewrite <- (clean_nodes b), <- Hc, clean_nodes.
Qed.

Lemma settled_keys (a b : jsvalue) :
  settled a b -> is_undefinedSymbol a = false ->
  Object_keys b = Object_keys a.
Proof.
  intros H Ha. destruct (settled_clean a b H Ha) as [Hc _].
  now rewrite <- (clean_keys b), <- Hc, clean_keys.
Qed.

(** ** Writing through a reference *)

Lemma deref_undefined (p : ref) : deref VUndefined p = VUndefined.
Proof. induction p as [| k p IH]; [reflexivity | exact IH]. Qed.

Lemma deref_marker_not_leafy (v : jsvalue) (p : ref) :
  is_undefinedSymbol (deref v p) = true -> leafy v = false.
Proof.
  intros H. destruct (leafy v) eqn:E; [| reflexivity].
  apply (deref_leafy v p), leafy_not_marker in E. congruence.
Qed.

Lemma not_leafy_field (json : jsvalue) (k : jsstring) :
  leafy (get json k) = false ->
  structure json = true /\ has_field json k = true.
Proof.
  intros H. split; [| now apply get_has_field].
  destruct (structure json) eqn:E; [reflexivity |].
  rewrite (get_inert json k E) in H. discriminate.
Qed.

Lemma structure_not_marker (v : jsvalue) :
  structure v = true -> is_undefinedSymbol v = false.
Proof. destruct v; simpl; congruence. Qed.

(** Replacing a marker by [undefined] settles every part of the document. *)
Lemma assign_settled (r : ref) (json : jsvalue) :
  is_undefinedSymbol (deref json r) = true ->
  forall q, settled (deref json q) (deref (assign json r VUndefined) q).
Proof.
  revert json. induction r as [| k r IH]; intros json Hm q.
  - simpl in Hm. simpl assign. rewrite deref_undefined.
    split; [| discriminate].
    destruct q as [| k q].
    + simpl. unfold clean_field. now rewrite Hm.
    + rewrite deref_cons.
      destruct json; try discriminate.
      unfold get. now rewrite deref_undefined.
  - rewrite deref_cons in Hm. simpl assign.
    specialize (IH (get json k) Hm).
    destruct (not_leafy_field json k (deref_marker_not_leafy _ _ Hm))
      as [Hs Hf].
    destruct q as [| k' q].
    + simpl. split.
      * unfold clean_field.
        rewrite (proj2 (set_structure json k _)),
          (structure_not_marker json Hs).
        symmetry. apply clean_set. symmetry. exact (proj1 (IH [])).
      * rewrite (proj2 (set_structure json k _)),
          (structure_not_marker json Hs). discriminate.
    + rewrite !deref_cons.
      destruct (list_eq_dec N.eq_dec k' k) as [-> | Hk].
      * rewrite get_set_same by assumption. apply IH.
      * rewrite get_set_other by assumption. apply settled_refl.
Qed.

Lemma assign_deref (r : ref) (json x : jsvalue) :
  is_undefinedSymbol (deref json r) = true ->
  deref (assign json r x) r = x.
Proof.
  revert json. induction r as [| k r IH]; intros json Hm; [reflexivity |].
  rewrite deref_cons in Hm. simpl assign. rewrite deref_cons.
  destruct (not_leafy_field json k (deref_marker_not_leafy _ _ Hm))
    as [_ Hf].
  rewrite get_set_same by assumption. now apply IH.
Qed.

(** ** The loop over the keys of one object *)

Lemma get_deref (json : jsvalue) (current : ref) (k : jsstring) :
  get (deref json current) k = deref json (current ++ [k]).
Proof. now rewrite deref_app. Qed.

Lemma enqueued_settled (current : ref) (json json' : jsvalue)
  (keys : list jsstring) :
  (forall q, settled (deref json q) (deref json' q)) ->
  enqueued current json' keys = enqueued current json keys.
Proof.
  intros H. unfold enqueued. f_equal. apply filter_ext. intros k.
  rewrite !get_deref. apply settled_container, H.
Qed.

Lemma sweep_keys_spec (current : ref) (keys : list jsstring)
  (json : jsvalue) (queue : list ref) :
  exists json',
    sweep_keys current keys json queue
    = (json', queue ++ enqueued current json keys)
    /\ (forall q, settled (deref json q) (deref json' q))
    /\ (forall k, In k keys ->
                  is_undefinedSymbol (get (deref json' current) k) = false).
Proof.
  revert json queue. induction keys as [| key keys IH]; intros json queue.
  - exists json. unfold enqueued. simpl. rewrite app_nil_r.
    split; [reflexivity |].
    split; [intros q; apply settled_refl | contradiction].
  - simpl sweep_keys.
    destruct (is_undefinedSymbol (get (deref json current) key)) eqn:Em.
    + (* the field holds the marker: it is overwritten *)
      set (json1 := assign json (current ++ [key]) VUndefined).
      assert (H1 : forall q, settled (deref json q) (deref json1 q)).
      { apply assign_settled. now rewrite <- get_deref. }
      destruct (IH json1 queue) as [json' [Heq [Hs Hk]]].
      exists json'. split; [| split].
      * rewrite Heq. f_equal. f_equal.
        rewrite (enqueued_settled current json json1 keys H1).
        unfold enqueued. simpl.
        now rewrite (marker_not_container _ Em).
      * intros q. eapply settled_trans; [apply H1 | apply Hs].
      * intros k [<- | Hin]; [| now apply Hk].
        assert (E : get (deref json1 current) key = VUndefined).
        { rewrite get_deref. apply assign_deref.
          now rewrite <- get_deref. }
        destruct (is_undefinedSymbol (get (deref json' current) key))
          eqn:E'; [| reflexivity].
        rewrite get_deref in E'. apply (proj2 (Hs _)) in E'.
        rewrite <- get_deref, E in E'. discriminate.
    + destruct (truthy (get (deref json current) key)
                && jstype_eqb (typeof (get (deref json current) key))
                     TObject) eqn:Ec.
      * (* the field holds an object: it is enqueued *)
        destruct (IH json (queue ++ [current ++ [key]]))
          as [json' [Heq [Hs Hk]]].
        exists json'. split; [| split].
        -- rewrite Heq. f_equal. rewrite <- app_assoc. f_equal.
           unfold enqueued. simpl. unfold is_container at 2.
           now rewrite Ec.
        -- exact Hs.
        -- intros k [<- | Hin]; [| now apply Hk].
           destruct (is_undefinedSymbol (get (deref json' current) key))
             eqn:E'; [| reflexivity].
           rewrite get_deref in E'. apply (proj2 (Hs _)) in E'.
           rewrite <- get_deref in E'. congruence.
      * destruct (IH json queue) as [json' [Heq [Hs Hk]]].
        exists json'. split; [| split].
        -- rewrite Heq. f_equal. f_equal.
           unfold enqueued. simpl. unfold is_container at 2.
           now rewrite Ec.
        -- exact Hs.
        -- intros k [<- | Hin]; [| now apply Hk].
           destruct (is_undefinedSymbol (get (deref json' current) key))
             eqn:E'; [| reflexivity].
           rewrite get_deref in E'. apply (proj2 (Hs _)) in E'.
           rewrite <- get_deref in E'. congruence.
Qed.

(** ** Keys and fields *)

Lemma nodupb_spec (keys : list jsstring) :
  nodupb keys = true <-> NoDup keys.
Proof.
  induction keys as [| k keys IH]; simpl.
  - split; [constructor | reflexivity].
  - rewrite andb_true_iff, negb_true_iff, IH. split.
    + intros [Hk Hn]. constructor; [| assumption].
      intros Hin. apply not_true_iff_false in Hk. apply Hk.
      apply existsb_exists. exists k. split; [assumption |].
      apply jsstring_eqb_refl.
    + intros H. inversion H as [| ? ? Hk Hn]; subst. split; [| assumption].
      apply not_true_iff_false. intros He. apply existsb_exists in He.
      destruct He as [k' [Hin He]]. apply jsstring_eqb_eq in He. now subst.
Qed.

Lemma assoc_in (fields : list (jsstring * jsvalue)) (k : jsstring)
  (v : jsvalue) :
  assoc fields k = Some v -> In (k, v) fields.
Proof.
  induction fields as [| [k' w] fields IH]; simpl; [discriminate |].
  destruct (jsstring_eqb k' k) eqn:E.
  - apply jsstring_eqb_eq in E. intros H. injection H as ->. subst.
    now left.
  - intros H. right. now apply IH.
Qed.

Lemma assoc_nodup (fields : list (jsstring * jsvalue)) (k : jsstring)
  (v : jsvalue) :
  NoDup (map fst fields) -> In (k, v) fields -> assoc fields k = Some v.
Proof.
  induction fields as [| [k' w] fields IH]; simpl; [contradiction |].
  intros Hn [H | H].
  - injection H as -> ->. now rewrite jsstring_eqb_refl.
  - inversion Hn as [| ? ? Hk Hn']; subst.
    destruct (jsstring_eqb k' k) eqn:E; [| now apply IH].
    apply jsstring_eqb_eq in E. subst k'. exfalso. apply Hk.
    apply in_map_iff. now exists (k, v).
Qed.

Lemma keys_of_field (v : jsvalue) (keys : list jsstring) (k : jsstring) :
  Object_keys v = Ok keys -> has_field v k = true -> In k keys.
Proof.
  destruct v as [| | b | n | z | s | id | t | elems | fields];
    try discriminate; simpl; intros H Hf; injection H as <-.
  - apply andb_true_iff in Hf. destruct Hf as [_ Hf].
    destruct (index_of_key (length elems) k) as [i |] eqn:Ei;
      [| discriminate].
    apply index_of_key_bound in Ei. destruct Ei as [Hi ->].
    apply in_map_iff. exists i. split; [reflexivity |].
    apply in_seq. lia.
  - destruct (assoc fields k) as [w |] eqn:Ea; [| discriminate].
    apply assoc_in in Ea. apply in_map_iff. now exists (k, w).
Qed.

Lemma distinct_get (v : jsvalue) (k : jsstring) :
  distinct_keys v = true -> distinct_keys (get v k) = true.
Proof.
  destruct v as [| | b | n | z | s | id | t | elems | fields];
    try reflexivity.
  - intros _. pose proof (get_inert (VString s) k eq_refl) as H.
    destruct (get (VString s) k); try reflexivity; discriminate.
  - simpl. intros H. unfold get.
    destruct (jsstring_eqb k (lit "length")); [reflexivity |].
    destruct (index_of_key (length elems) k) as [i |]; [| reflexivity].
    rewrite forallb_forall in H.
    destruct (nth_in_or_default i elems VUndefined) as [Hin | ->];
      [now apply H | reflexivity].
  - simpl. rewrite andb_true_iff. intros [_ H]. unfold get.
    destruct (assoc fields k) as [w |] eqn:Ea; [| reflexivity].
    rewrite forallb_forall in H. apply assoc_in in Ea.
    exact (H _ Ea).
Qed.

Lemma distinct_deref (v : jsvalue) (p : ref) :
  distinct_keys v = true -> distinct_keys (deref v p) = true.
Proof.
  revert v. induction p as [| k p IH]; intros v H; [exact H |].
  rewrite deref_cons. apply IH, distinct_get, H.
Qed.

(** ** Counting nodes *)

Lemma nodes_array (elems : list jsvalue) :
  nodes (VArray elems) = S (list_sum (map nodes elems)).
Proof.
  simpl. f_equal. induction elems as [| e elems IH]; simpl; congruence.
Qed.

Lemma nodes_object (fields : list (jsstring * jsvalue)) :
  nodes (VObject fields)
  = S (list_sum (map (fun kv => nodes (snd kv)) fields)).
Proof.
  simpl. f_equal. induction fields as [| e fields IH]; simpl; congruence.
Qed.

Lemma sum_filter_map {A} (P : jsstring -> bool) (F : jsstring -> nat)
  (G : A -> nat) (key : A -> jsstring) (l : list A) :
  (forall a, In a l -> F (key a) = G a) ->
  list_sum (map F (filter P (map key l))) <= list_sum (map G l).
Proof.
  induction l as [| a l IH]; intros H; simpl; [lia |].
  assert (IH' : list_sum (map F (filter P (map key l)))
                <= list_sum (map G l))
    by (apply IH; intros b Hb; apply H; now right).
  destruct (P (key a)); simpl; [| lia].
  rewrite (H a) by now left. lia.
Qed.

Lemma sum_seq_nth (elems : list jsvalue) (front : list jsvalue) :
  list_sum (map (fun i => nodes (nth i (front ++ elems) VUndefined))
              (seq (length front) (length elems)))
  = list_sum (map nodes elems).
Proof.
  revert front. induction elems as [| e elems IH]; intros front;
    [reflexivity |].
  simpl. rewrite app_nth2, Nat.sub_diag by lia. simpl. f_equal.
  specialize (IH (front ++ [e])).
  rewrite length_app, <- app_assoc in IH. simpl in IH.
  now rewrite Nat.add_1_r in IH.
Qed.

(** The objects enqueued from a node are strictly smaller than the node. *)
Lemma enqueued_weight (json : jsvalue) (current : ref)
  (keys : list jsstring) :
  distinct_keys (deref json current) = true ->
  Object_keys (deref json current) = Ok keys ->
  weight json (enqueued current json keys) < nodes (deref json current).
Proof.
  unfold weight, enqueued. rewrite map_map.
  rewrite (map_ext (fun k => nodes (deref json (current ++ [k])))
             (fun k => nodes (get (deref json current) k)))
    by (intros k; now rewrite get_deref).
  destruct (deref json current)
    as [| | b | n | z | s | id | t | elems | fields] eqn:Enode;
    try discriminate; intros Hd Hk; injection Hk as <-;
    try (simpl; lia).
  - (* a string lists its indices, none of which holds an object *)
    simpl nodes.
    assert (E : filter (fun k => is_container (get (VString s) k))
                  (map (fun i => String_N (N.of_nat i)) (seq 0 (length s)))
                = []).
    { induction (map (fun i => String_N (N.of_nat i)) (seq 0 (length s)))
        as [| k l IHl]; [reflexivity |].
      simpl. rewrite leafy_not_container by now apply get_inert.
      exact IHl. }
    rewrite E. simpl. lia.
  - rewrite nodes_array.
    apply Nat.lt_succ_r.
    rewrite <- (sum_seq_nth elems []).
    apply sum_filter_map with (G := fun i => nodes (nth i elems VUndefined)).
    intros i Hi. apply in_seq in Hi. simpl in Hi.
    rewrite get_array_index by lia. reflexivity.
  - rewrite nodes_object.
    apply Nat.lt_succ_r.
    apply sum_filter_map with (G := fun kv => nodes (snd kv)).
    intros [k w] Hin. simpl in Hd. apply andb_true_iff in Hd.
    destruct Hd as [Hn _]. apply nodupb_spec in Hn.
    cbn [fst snd]. unfold get.
    now rewrite (assoc_nodup fields k w Hn Hin).
Qed.

Lemma weight_app (json : jsvalue) (a b : list ref) :
  weight json (a ++ b) = weight json a + weight json b.
Proof. unfold weight. now rewrite map_app, list_sum_app. Qed.

Lemma weight_settled (json json' : jsvalue) (queue : list ref) :
  (forall q, settled (deref json q) (deref json' q)) ->
  weight json' queue = weight json queue.
Proof.
  intros H. unfold weight. f_equal. apply map_ext.
  intros r. apply settled_nodes, H.
Qed.

(** ** A document without markers is clean *)

Lemma map_fixed {A} (f : A -> A) (l : list A) :
  (forall a, In a l -> f a = a) -> map f l = l.
Proof.
  induction l as [| a l IH]; intros H; simpl; [reflexivity |].
  rewrite (H a) by now left. f_equal. apply IH. intros b Hb. apply H.
  now right.
Qed.

Lemma clean_no_marker (json : jsvalue) :
  distinct_keys json = true ->
  (forall d k, is_undefinedSymbol (get (deref json d) k) = false) ->
  clean json = json.
Proof.
  induction json as [| | b | n | z | s | id | t | elems IH | fields IH]
    using jsvalue_ind; try reflexivity; intros Hd Hm.
  - rewrite clean_array. f_equal. apply map_fixed. intros e Hin.
    destruct (In_nth elems e VUndefined Hin) as [i [Hi He]].
    assert (Hg : get (VArray elems) (String_N (N.of_nat i)) = e)
      by (now rewrite get_array_index).
    unfold clean_field.
    pose proof (Hm [] (String_N (N.of_nat i))) as H0.
    simpl deref in H0. rewrite Hg in H0. rewrite H0.
    rewrite Forall_forall in IH. apply (IH e Hin).
    + simpl in Hd. rewrite forallb_forall in Hd. now apply Hd.
    + intros d k. specialize (Hm (String_N (N.of_nat i) :: d) k).
      rewrite deref_cons, Hg in Hm. exact Hm.
  - rewrite clean_object. f_equal. apply map_fixed. intros [k e] Hin.
    simpl in Hd. apply andb_true_iff in Hd. destruct Hd as [Hn Hd].
    apply nodupb_spec in Hn.
    assert (Hg : get (VObject fields) k = e)
      by (unfold get; now rewrite (assoc_nodup fields k e Hn Hin)).
    cbn [fst snd]. f_equal. unfold clean_field.
    pose proof (Hm [] k) as H0. simpl deref in H0. rewrite Hg in H0.
    rewrite H0.
    rewrite Forall_forall in IH. apply (IH (k, e) Hin).
    + rewrite forallb_forall in Hd. exact (Hd _ Hin).
    + intros d k'. specialize (Hm (k :: d) k').
      rewrite deref_cons, Hg in Hm. exact Hm.
Qed.

Lemma clean_marker_free (v : jsvalue) : marker_free (clean v) = true.
Proof.
  induction v as [| | b | n | z | s | id | t | elems IH | fields IH]
    using jsvalue_ind; try reflexivity.
  - rewrite clean_array. simpl.
    induction IH as [| e elems He _ IHl]; simpl; [reflexivity |].
    rewrite IHl, andb_true_r. unfold clean_field.
    destruct (is_undefinedSymbol e) eqn:E; [reflexivity |].
    now rewrite clean_marker, E, He.
  - rewrite clean_object. simpl.
    induction IH as [| [k e] fields He _ IHl]; simpl; [reflexivity |].
    simpl in He. rewrite IHl, andb_true_r. unfold clean_field.
    destruct (is_undefinedSymbol e) eqn:E; [reflexivity |].
    now rewrite clean_marker, E, He.
Qed.

(** ** One iteration of the loop *)

Lemma nodes_positive (v : jsvalue) : 0 < nodes v.
Proof. destruct v; simpl; lia. Qed.

Lemma container_keys (v : jsvalue) :
  is_container v = true -> exists keys, Object_keys v = Ok keys.
Proof. destruct v; try discriminate; simpl; eauto. Qed.

Lemma container_not_leafy (v : jsvalue) :
  is_container v = true -> leafy v = false.
Proof.
  intros H. destruct (leafy v) eqn:E; [| reflexivity].
  rewrite (leafy_not_container v E) in H. discriminate.
Qed.

Lemma structure_container (v : jsvalue) :
  structure v = true -> is_container v = true.
Proof. destruct v; try discriminate; reflexivity. Qed.

Lemma container_not_marker (v : jsvalue) :
  is_container v = true -> is_undefinedSymbol v = false.
Proof.
  intros H. destruct (is_undefinedSymbol v) eqn:E; [| reflexivity].
  rewrite (marker_not_container v E) in H. discriminate.
Qed.

Lemma settled_distinct (json0 json : jsvalue) (q : ref) :
  distinct_keys json0 = true ->
  settled (deref json0 q) (deref json q) ->
  is_container (deref json q) = true ->
  distinct_keys (deref json q) = true.
Proof.
  intros Hd Hs Hc.
  assert (Hm : is_undefinedSymbol (deref json0 q) = false).
  { apply container_not_marker.
    now rewrite <- (settled_container _ _ Hs). }
  destruct (settled_clean _ _ Hs Hm) as [Hcl _].
  rewrite <- clean_distinct, <- Hcl, clean_distinct.
  now apply distinct_deref.
Qed.

Lemma enqueued_in (current : ref) (json : jsvalue) (keys : list jsstring)
  (k : jsstring) :
  Object_keys (deref json current) = Ok keys ->
  is_container (get (deref json current) k) = true ->
  In (current ++ [k]) (enqueued current json keys).
Proof.
  intros Hk Hc. unfold enqueued. apply in_map_iff. exists k.
  split; [reflexivity |]. apply filter_In. split; [| exact Hc].
  apply (keys_of_field _ _ _ Hk), get_has_field, container_not_leafy, Hc.
Qed.

Lemma enqueued_container (current : ref) (json : jsvalue)
  (keys : list jsstring) (q : ref) :
  In q (enqueued current json keys) -> is_container (deref json q) = true.
Proof.
  unfold enqueued. intros H. apply in_map_iff in H.
  destruct H as [k [<- Hin]]. apply filter_In in Hin.
  rewrite <- get_deref. exact (proj2 Hin).
Qed.

(** Visiting the head of the queue keeps the invariant and shrinks the
    weight of the queue. *)
Lemma sweep_step (json0 json : jsvalue) (current : ref) (rest : list ref) :
  distinct_keys json0 = true ->
  sweep_inv json0 json (current :: rest) ->
  exists keys json',
    Object_keys (deref json current) = Ok keys
    /\ sweep_keys current keys json (current :: rest)
       = (json', current :: rest ++ enqueued current json keys)
    /\ sweep_inv json0 json' (rest ++ enqueued current json keys)
    /\ weight json' (rest ++ enqueued current json keys)
       < weight json (current :: rest)
    /\ (forall q, settled (deref json q) (deref json' q)).
Proof.
  intros Hd [Hs [Hc Hdirt]].
  assert (Hcur : is_container (deref json current) = true)
    by (apply Hc; now left).
  destruct (container_keys _ Hcur) as [keys Hkeys].
  destruct (sweep_keys_spec current keys json (current :: rest))
    as [json' [Heq [Hs' Hclean]]].
  exists keys, json'. split; [exact Hkeys |]. split; [exact Heq |].
  split; [| split; [| exact Hs']].
  - split; [| split].
    + intros q. eapply settled_trans; [apply Hs | apply Hs'].
    + intros q Hin. rewrite (settled_container _ _ (Hs' q)).
      apply in_app_or in Hin. destruct Hin as [Hin | Hin].
      * apply Hc. now right.
      * now apply (enqueued_container current json keys).
    + intros d k Hm.
      assert (Hm0 : is_undefinedSymbol (get (deref json d) k) = true).
      { rewrite get_deref in *. exact (proj2 (Hs' _) Hm). }
      destruct (Hdirt d k Hm0) as [q [s [[<- | Hin] ->]]].
      * destruct s as [| k1 s].
        -- (* a field of the visited object: it was overwritten *)
           rewrite app_nil_r in Hm.
           assert (Hk : In k keys).
           { apply (keys_of_field _ _ _ Hkeys), get_has_field.
             rewrite app_nil_r in Hm0.
             destruct (get (deref json current) k); try discriminate.
             reflexivity. }
           rewrite (Hclean k Hk) in Hm. discriminate.
        -- (* a field further down: its ancestor was enqueued *)
           exists (current ++ [k1]), s. split.
           ++ apply in_or_app. right.
              apply (enqueued_in current json keys k1 Hkeys).
              apply structure_container.
              rewrite get_deref in Hm0.
              replace ((current ++ k1 :: s) ++ [k])
                with ((current ++ [k1]) ++ (s ++ [k])) in Hm0
                by (rewrite <- !app_assoc; reflexivity).
              rewrite deref_app in Hm0. rewrite get_deref.
              apply (deref_marker_structure _ (s ++ [k]));
                [now destruct s |].
              destruct (deref (deref json (current ++ [k1])) (s ++ [k]));
                try discriminate. reflexivity.
           ++ now rewrite <- app_assoc.
      * exists q, s. split; [| reflexivity].
        apply in_or_app. now left.
  - rewrite (weight_settled json json' _ Hs'), weight_app.
    unfold weight at 3. simpl. fold (weight json rest).
    pose proof (enqueued_weight json current keys
                  (settled_distinct json0 json current Hd (Hs current) Hcur)
                  Hkeys).
    lia.
Qed.

(** ** The whole sweep *)

(** When the queue is empty, the document is the clean one. *)
Lemma sweep_inv_done (json0 json : jsvalue) :
  distinct_keys json0 = true ->
  is_container json0 = true ->
  sweep_inv json0 json [] ->
  json = clean json0.
Proof.
  intros Hd Hroot [Hs [_ Hdirt]].
  pose proof (Hs []) as H0. simpl in H0.
  destruct (settled_clean _ _ H0 (container_not_marker _ Hroot)) as [Hc _].
  rewrite Hc. symmetry. apply clean_no_marker.
  - rewrite <- clean_distinct, <- Hc, clean_distinct. exact Hd.
  - intros d k. destruct (is_undefinedSymbol (get (deref json d) k)) eqn:E;
      [| reflexivity].
    destruct (Hdirt d k E) as [q [s [[] _]]].
Qed.

Lemma sweep_run (json0 : jsvalue) :
  distinct_keys json0 = true ->
  is_container json0 = true ->
  forall fuel json queue,
    sweep_inv json0 json queue ->
    weight json queue <= fuel ->
    sweep fuel json queue = Ok (clean json0).
Proof.
  intros Hd Hroot. induction fuel as [| fuel IH]; intros json queue Hinv Hw.
  - destruct queue as [| current rest].
    + simpl. f_equal. now apply (sweep_inv_done json0).
    + unfold weight in Hw. simpl in Hw.
      pose proof (nodes_positive (deref json current)). lia.
  - destruct queue as [| current rest].
    + simpl. f_equal. now apply (sweep_inv_done json0).
    + destruct (sweep_step json0 json current rest Hd Hinv)
        as [keys [json' [Hk [Heq [Hinv' [Hw' _]]]]]].
      simpl sweep. rewrite Hk. simpl bind. rewrite Heq. simpl tl.
      apply IH; [exact Hinv' | lia].
Qed.

Lemma sweep_inv_init (json : jsvalue) :
  is_container json = true -> sweep_inv json json [[]].
Proof.
  intros Hc. split; [| split].
  - intros q. apply settled_refl.
  - intros q [<- | []]. exact Hc.
  - intros d k _. exists [], d. split; [now left | reflexivity].
Qed.

Lemma weight_init (json : jsvalue) : weight json [[]] = nodes json.
Proof. unfold weight. simpl. lia. Qed.

Lemma sweep_keys_inert (current : ref) (keys : list jsstring)
  (json : jsvalue) (queue : list ref) :
  (forall k, leafy (get (deref json current) k) = true) ->
  sweep_keys current keys json queue = (json, queue).
Proof.
  intros H. induction keys as [| k keys IH]; [reflexivity |].
  simpl. rewrite (leafy_not_marker _ (H k)).
  pose proof (leafy_not_container _ (H k)) as Hc.
  unfold is_container in Hc. now rewrite Hc.
Qed.

(** A root that is no object has nothing to sweep. *)
Lemma sweep_inert_root (json : jsvalue) :
  is_container json = false ->
  json <> VNull -> json <> VUndefined ->
  sweep (nodes json) json [[]] = Ok json /\ clean json = json.
Proof.
  intros Hc Hn Hu.
  assert (Hs : structure json = false).
  { destruct (structure json) eqn:E; [| reflexivity].
    now rewrite (structure_container json E) in Hc. }
  assert (Hk : exists keys, Object_keys json = Ok keys)
    by (destruct json; try congruence; simpl; eauto).
  destruct Hk as [keys Hk].
  split; [| destruct json; try discriminate; reflexivity].
  replace (nodes json) with 1 by (destruct json; try discriminate;
                                  reflexivity).
  simpl. rewrite Hk. simpl.
  rewrite sweep_keys_inert by (intros k; now apply get_inert).
  reflexivity.
Qed.

(** The sweep applied to a whole document. *)
Lemma sweep_clean (json : jsvalue) :
  distinct_keys json = true ->
  json <> VNull -> json <> VUndefined ->
  sweep (nodes json) json [[]] = Ok (clean json).
Proof.
  intros Hd Hn Hu. destruct (is_container json) eqn:Hc.
  - apply (sweep_run json Hd Hc).
    + now apply sweep_inv_init.
    + now rewrite weight_init.
  - destruct (sweep_inert_root json Hc Hn Hu) as [H1 H2]. now rewrite H2.
Qed.

(** ** The references the sweep dequeues *)

Lemma reachable_prefix (json : jsvalue) (a b : ref) :
  reachable json (a ++ b) ->
  reachable json a
  /\ (forall k b', b = k :: b' ->
                   is_container (get (deref json a) k) = true).
Proof.
  induction b as [| x b IH] using rev_ind.
  - rewrite app_nil_r. intros H. split; [exact H | discriminate].
  - rewrite app_assoc. intros H.
    inversion H as [E | r key Hr Hc E].
    + symmetry in E. now apply app_eq_nil in E as [_ E].
    + apply app_inj_tail in E. destruct E as [-> ->].
      destruct (IH Hr) as [Ha Hfirst]. split; [exact Ha |].
      intros k b' Eb. destruct b as [| y b].
      * simpl in Eb. injection Eb as <- <-. now rewrite app_nil_r in Hc.
      * simpl in Eb. injection Eb as <- <-. now apply (Hfirst y b).
Qed.

Lemma reachable_settled (json0 json : jsvalue) (r : ref) :
  (forall q, settled (deref json0 q) (deref json q)) ->
  reachable json0 r -> reachable json r.
Proof.
  intros Hs H. induction H as [| r key Hr IH Hc]; [constructor |].
  constructor; [exact IH |].
  rewrite get_deref in *. now rewrite (settled_container _ _ (Hs _)).
Qed.

Lemma visited_run (json0 : jsvalue) :
  distinct_keys json0 = true ->
  forall fuel json queue done,
    sweep_inv json0 json queue ->
    weight json queue <= fuel ->
    covered json0 done queue ->
    forall r, reachable json0 r ->
              In r (done ++ visited fuel json queue).
Proof.
  intros Hd. induction fuel as [| fuel IH];
    intros json queue done Hinv Hw Hcov r Hr.
  - destruct queue as [| current rest].
    + destruct (Hcov r Hr) as [H | [q [s [[] _]]]].
      apply in_or_app. now left.
    + unfold weight in Hw. simpl in Hw.
      pose proof (nodes_positive (deref json current)). lia.
  - destruct queue as [| current rest].
    + destruct (Hcov r Hr) as [H | [q [s [[] _]]]].
      apply in_or_app. now left.
    + destruct (sweep_step json0 json current rest Hd Hinv)
        as [keys [json' [Hk [Heq [Hinv' [Hw' Hs']]]]]].
      simpl visited. rewrite Hk, Heq. simpl tl.
      replace (done ++ current :: visited fuel json'
                         (rest ++ enqueued current json keys))
        with ((done ++ [current])
                ++ visited fuel json' (rest ++ enqueued current json keys))
        by (rewrite <- app_assoc; reflexivity).
      apply IH; [exact Hinv' | lia | | exact Hr].
      intros r' Hr'.
      destruct (Hcov r' Hr') as [H | [q [s [[<- | Hin] ->]]]].
      * left. apply in_or_app. now left.
      * destruct s as [| k1 s].
        -- left. rewrite app_nil_r. apply in_or_app. right. now left.
        -- right. exists (current ++ [k1]), s. split.
           ++ apply in_or_app. right.
              apply (enqueued_in current json keys k1 Hk).
              apply (reachable_settled json0 json) in Hr';
                [| exact (proj1 Hinv)].
              exact (proj2 (reachable_prefix json current (k1 :: s) Hr')
                       k1 s eq_refl).
           ++ now rewrite <- app_assoc.
      * right. exists q, s. split; [| reflexivity].
        apply in_or_app. now left.
Qed.

Lemma reachable_inert (json : jsvalue) (r : ref) :
  is_container json = false -> reachable json r -> r = [].
Proof.
  intros Hc H. induction H as [| r key Hr IH Hk]; [reflexivity |].
  subst r. simpl in Hk.
  assert (Hs : structure json = false).
  { destruct (structure json) eqn:E; [| reflexivity].
    now rewrite (structure_container json E) in Hc. }
  rewrite (leafy_not_container _ (get_inert json key Hs)) in Hk.
  discriminate.
Qed.

Lemma visited_all (json : jsvalue) :
  distinct_keys json = true ->
  json <> VNull -> json <> VUndefined ->
  forall r, reachable json r -> In r (visited (nodes json) json [[]]).
Proof.
  intros Hd Hn Hu r Hr. destruct (is_container json) eqn:Hc.
  - apply (visited_run json Hd (nodes json) json [[]] []).
    + now apply sweep_inv_init.
    + now rewrite weight_init.
    + intros r' _. right. exists [], r'. split; [now left | reflexivity].
    + exact Hr.
  - rewrite (reachable_inert json r Hc Hr).
    assert (Hk : exists keys, Object_keys json = Ok keys)
      by (destruct json; try congruence; simpl; eauto).
    destruct Hk as [keys Hk].
    destruct (nodes json) eqn:En;
      [pose proof (nodes_positive json); lia |].
    simpl. rewrite Hk.
    destruct (sweep_keys [] keys json [[]]). now left.
Qed.

(** ** Reading back what [quote] writes *)

Lemma digit_value_hex (d : N) :
  (d < 16)%N -> digit_value 16 (hex_digit d) = Some d.
Proof.
  intros H.
  assert (E : (d = 0 \/ d = 1 \/ d = 2 \/ d = 3 \/ d = 4 \/ d = 5 \/ d = 6
               \/ d = 7 \/ d = 8 \/ d = 9 \/ d = 10 \/ d = 11 \/ d = 12
               \/ d = 13 \/ d = 14 \/ d = 15)%N) by lia.
  repeat (destruct E as [E | E]; [subst d; reflexivity |]).
  subst d. reflexivity.
Qed.

Lemma hex4_digits (c : N) :
  (c < 65536)%N ->
  hex4 (hex_digit (c / 4096)) (hex_digit ((c / 256) mod 16))
    (hex_digit ((c / 16) mod 16)) (hex_digit (c mod 16))
  = Some c.
Proof.
  intros Hc. unfold hex4.
  rewrite !digit_value_hex
    by (try (apply N.mod_lt; lia); apply N.Div0.div_lt_upper_bound; lia).
  f_equal. symmetry. now apply hex_digits_value.
Qed.

(** One unit of the string, as [quote] writes it, is read back as itself. *)
Lemma parse_string_piece (c : N) (tail : jsstring) :
  parse_string_body ((if rx_escapable c then quote_replace c else [c])
                       ++ tail)
  = (res <- parse_string_body tail ;; Ok (c :: fst res, snd res)).
Proof.
  destruct (rx_escapable c) eqn:E.
  - apply rx_escapable_spec in E.
    destruct (in_dec N.eq_dec c (map fst short_escapes)) as [Hin | Hout].
    + unfold short_escapes in Hin. simpl in Hin.
      repeat (destruct Hin as [Hin | Hin]; [subst c; reflexivity |]).
      contradiction.
    + unfold quote_replace. rewrite (meta_lookup_other c Hout).
      pose proof (escapable_bound c E) as Hb.
      rewrite (padded_hex c Hb). simpl app.
      change (parse_string_body
                (c_backslash :: 117%N :: hex_digit (c / 4096)
                   :: hex_digit ((c / 256) mod 16)
                   :: hex_digit ((c / 16) mod 16)
                   :: hex_digit (c mod 16) :: tail))
        with (match hex4 (hex_digit (c / 4096))
                      (hex_digit ((c / 256) mod 16))
                      (hex_digit ((c / 16) mod 16)) (hex_digit (c mod 16))
              with
              | Some u =>
                  res <- parse_string_body tail ;; Ok (u :: fst res, snd res)
              | None => Abort SyntaxError
              end).
      now rewrite (hex4_digits c Hb).
  - apply rx_escapable_false in E. simpl app.
    assert (H34 : (c =? c_dquote)%N = false)
      by (apply N.eqb_neq; intros ->; apply E; unfold escapable, c_dquote;
          tauto).
    assert (H92 : (c =? c_backslash)%N = false)
      by (apply N.eqb_neq; intros ->; apply E;
          unfold escapable, c_backslash; tauto).
    assert (H32 : (c <? 32)%N = false)
      by (apply N.ltb_ge; unfold escapable in E; lia).
    simpl parse_string_body. now rewrite H34, H92, H32.
Qed.

Lemma parse_string_replaced (s rest : jsstring) :
  parse_string_body (replace_escapable quote_replace s ++ c_dquote :: rest)
  = Ok (s, rest).
Proof.
  induction s as [| c s IH]; [reflexivity |].
  unfold replace_escapable in *. simpl flat_map. rewrite <- app_assoc.
  rewrite parse_string_piece, IH. reflexivity.
Qed.

(** A quoted string followed by any text is read back. *)
Lemma parse_string_quote (s rest : jsstring) :
  exists body,
    quote s ++ rest = c_dquote :: body
    /\ parse_string_body body = Ok (s, rest).
Proof.
  exists (replace_escapable quote_replace s ++ c_dquote :: rest). split.
  - rewrite quote_unfold. simpl. now rewrite <- app_assoc.
  - apply parse_string_replaced.
Qed.

(** ** Reading back a decimal numeral *)

Lemma units_uint_units (d : Decimal.uint) : units_uint (uint_units d) = d.
Proof. induction d; simpl; congruence. Qed.

Lemma String_N_value (n : N) : N.of_uint (units_uint (String_N n)) = n.
Proof.
  unfold String_N. rewrite units_uint_units.
  apply DecimalN.Unsigned.of_to.
Qed.

Lemma span_digits_app (s rest : jsstring) :
  forallb is_digit s = true ->
  match rest with c :: _ => is_digit c = false | [] => True end ->
  span_digits (s ++ rest) = (s, rest).
Proof.
  intros Hs Hrest. induction s as [| c s IH]; simpl.
  - destruct rest as [| c r]; [reflexivity |]. simpl. now rewrite Hrest.
  - simpl in Hs. apply andb_true_iff in Hs. destruct Hs as [Hc Hs].
    now rewrite Hc, (IH Hs).
Qed.

(** The numeral of a positive number does not start with the digit 0. *)
Lemma String_N_head (n : N) :
  n <> 0%N -> starts_with 48 (String_N n) = false.
Proof.
  intros Hn. unfold String_N.
  pose proof (to_uint_normal n) as Hnorm.
  destruct (N.to_uint n) as [| d | | | | | | | | |] eqn:E; try reflexivity.
  exfalso. unfold Decimal.unorm in Hnorm. simpl Decimal.nzhead in Hnorm.
  pose proof (DecimalFacts.nb_digits_nzhead d) as Hl.
  destruct (Decimal.nzhead d) eqn:Ez; try discriminate.
  - injection Hnorm as Hd. subst d. apply Hn.
    rewrite <- (DecimalN.Unsigned.of_to n), E. reflexivity.
  - injection Hnorm as Hd. subst. simpl in Hl. lia.
Qed.

Lemma is_digit_spec (c : N) : is_digit c = true <-> (48 <= c <= 57)%N.
Proof. unfold is_digit. apply between_spec. Qed.

Lemma String_N_cons (n : N) :
  exists c t, String_N n = c :: t /\ is_digit c = true.
Proof.
  pose proof (String_N_nonempty n) as Hn.
  pose proof (String_N_digits n) as Hd.
  destruct (String_N n) as [| c t]; [discriminate |].
  simpl in Hd. apply andb_true_iff in Hd. now exists c, t.
Qed.

Lemma starts_with_app (c : N) (s rest : jsstring) :
  nonempty s = true -> starts_with c (s ++ rest) = starts_with c s.
Proof. destruct s; [discriminate | reflexivity]. Qed.

Lemma starts_with_digit (c : N) (s : jsstring) :
  nonempty s = true -> forallb is_digit s = true ->
  is_digit c = false -> starts_with c s = false.
Proof.
  destruct s as [| d t]; [discriminate |]. intros _ H Hc.
  simpl in H. apply andb_true_iff in H. destruct H as [Hd _].
  unfold starts_with. apply N.eqb_neq. intros ->. congruence.
Qed.

Lemma number_end_starts (rest : jsstring) :
  number_end rest ->
  starts_with 46 rest || starts_with 101 rest || starts_with 69 rest = false.
Proof.
  destruct rest as [| c r]; [reflexivity |].
  intros [_ [H1 [H2 H3]]]. unfold starts_with.
  apply N.eqb_neq in H1, H2, H3. now rewrite H1, H2, H3.
Qed.

Lemma number_end_digit (rest : jsstring) :
  number_end rest ->
  match rest with c :: _ => is_digit c = false | [] => True end.
Proof. destruct rest; [auto | now intros [H _]]. Qed.

(** The digits of a non-negative number, read as a number token. *)
Lemma parse_digits (negative : bool) (n : N) (rest : jsstring) :
  number_end rest ->
  (if starts_with 48 (String_N n ++ rest)
   then ([48%N], tl (String_N n ++ rest))
   else span_digits (String_N n ++ rest))
  = (String_N n, rest).
Proof.
  intros Hrest. destruct (N.eq_dec n 0) as [-> | Hn]; [reflexivity |].
  rewrite starts_with_app by apply String_N_nonempty.
  rewrite (String_N_head n Hn).
  apply span_digits_app; [apply String_N_digits |].
  now apply number_end_digit.
Qed.

Lemma parse_number_String_Z (z : Z) (rest : jsstring) :
  (Z.abs z <= MAX_SAFE_INTEGER)%Z ->
  number_end rest ->
  parse_number (String_Z z ++ rest) = Ok (VNumber (Finite z), rest).
Proof.
  intros Hz Hrest. unfold String_Z, parse_number.
  destruct (z <? 0)%Z eqn:Eneg.
  - apply Z.ltb_lt in Eneg.
    change (starts_with 45 ((45%N :: String_N (Z.abs_N z)) ++ rest))
      with true.
    cbv iota. simpl tl.
    rewrite (parse_digits true (Z.abs_N z) rest Hrest).
    destruct (String_N_cons (Z.abs_N z)) as [c [t [E _]]].
    rewrite E at 1. rewrite (number_end_starts rest Hrest).
    rewrite String_N_value, N2Z.inj_abs_N.
    assert (E0 : (Z.abs z =? 0)%Z = false) by (apply Z.eqb_neq; lia).
    assert (Em : (MAX_SAFE_INTEGER <? Z.abs z)%Z = false)
      by (apply Z.ltb_ge; lia).
    rewrite E0, Em. simpl. do 4 f_equal. lia.
  - apply Z.ltb_ge in Eneg.
    assert (E45 : starts_with 45 (String_N (Z.to_N z) ++ rest) = false).
    { rewrite starts_with_app by apply String_N_nonempty.
      apply starts_with_digit;
        [apply String_N_nonempty | apply String_N_digits | reflexivity]. }
    rewrite E45.
    rewrite (parse_digits false (Z.to_N z) rest Hrest).
    destruct (String_N_cons (Z.to_N z)) as [c [t [E _]]].
    rewrite E at 1. rewrite (number_end_starts rest Hrest).
    rewrite String_N_value, Z2N.id by assumption.
    assert (Em : (MAX_SAFE_INTEGER <? z)%Z = false)
      by (apply Z.ltb_ge; lia).
    rewrite Em. reflexivity.
Qed.

Lemma delimited_number_end (rest : jsstring) :
  delimited rest -> number_end rest.
Proof.
  intros [-> | [c [r [-> H]]]]; [exact I |].
  simpl. destruct H as [-> | [-> | ->]]; repeat split; discriminate.
Qed.

Lemma delimited_skip (rest : jsstring) :
  delimited rest -> skip_ws rest = rest.
Proof.
  intros [-> | [c [r [-> H]]]]; [reflexivity |].
  destruct H as [-> | [-> | ->]]; reflexivity.
Qed.

(** ** The first unit of a text *)

Lemma value_start_tests (c : N) :
  value_start c ->
  is_json_ws c = false /\ (c =? 93)%N = false /\ (c =? 125)%N = false
  /\ (c =? c_comma)%N = false.
Proof.
  intros [H | H].
  - simpl in H.
    repeat (destruct H as [H | H]; [subst c; repeat split; reflexivity |]).
    contradiction.
  - apply is_digit_spec in H. unfold is_json_ws, c_comma.
    repeat split;
      repeat (apply orb_false_iff; split); apply N.eqb_neq; lia.
Qed.

Lemma text_head (j : jsvalue) :
  is_document j = true ->
  exists c t, text_of j = c :: t /\ value_start c.
Proof.
  destruct j as [| | b | [| | | z] | z | s | id | t | elems | fields];
    try discriminate; intros _.
  - exists 110%N, (lit "ull"). split; [reflexivity |]. left. simpl. tauto.
  - destruct b.
    + exists 116%N, (lit "rue"). split; [reflexivity |]. left. simpl. tauto.
    + exists 102%N, (lit "alse"). split; [reflexivity |]. left. simpl. tauto.
  - simpl text_of. unfold String_Z. destruct (z <? 0)%Z.
    + eexists _, _. split; [reflexivity |]. left. simpl. tauto.
    + destruct (String_N_cons (Z.to_N z)) as [c [t [E Hc]]].
      exists c, t. split; [exact E | now right].
  - simpl text_of. rewrite quote_unfold.
    eexists _, _. split; [reflexivity |]. left. simpl. tauto.
  - simpl text_of. unfold wrap.
    destruct (map text_of elems);
      (eexists _, _; split; [reflexivity |]; left; simpl; tauto).
  - simpl text_of. unfold wrap.
    destruct (map _ fields);
      (eexists _, _; split; [reflexivity |]; left; simpl; tauto).
Qed.

(** ** Reading back a document *)

Lemma parse_value_S (fuel : nat) (s : jsstring) :
  parse_value (S fuel) s
  = match skip_ws s with
    | [] => Abort SyntaxError
    | c :: r =>
        if (c =? c_dquote)%N then
          res <- parse_string_body r ;;
          Ok (VString (fst res), snd res)
        else if (c =? 91)%N then
          if starts_with 93 (skip_ws r)
          then Ok (VArray [], tl (skip_ws r))
          else
            res <- parse_elements fuel r ;;
            Ok (VArray (fst res), snd res)
        else if (c =? 123)%N then
          if starts_with 125 (skip_ws r)
          then Ok (VObject [], tl (skip_ws r))
          else
            res <- parse_members fuel [] r ;;
            Ok (VObject (fst res), snd res)
        else if (c =? 45)%N || is_digit c then parse_number (c :: r)
        else parse_literal (c :: r)
    end.
Proof. reflexivity. Qed.

Lemma parse_elements_S (fuel : nat) (s : jsstring) :
  parse_elements (S fuel) s
  = (first <- parse_value fuel s ;;
     match skip_ws (snd first) with
     | [] => Abort SyntaxError
     | c :: r =>
         if (c =? c_comma)%N then
           rest <- parse_elements fuel r ;;
           Ok (fst first :: fst rest, snd rest)
         else if (c =? 93)%N then Ok ([fst first], r)
         else Abort SyntaxError
     end).
Proof. reflexivity. Qed.

Lemma parse_members_S (fuel : nat) (acc : list (jsstring * jsvalue))
  (s : jsstring) :
  parse_members (S fuel) acc s
  = if starts_with c_dquote (skip_ws s) then
      key <- parse_string_body (tl (skip_ws s)) ;;
      if starts_with c_colon (skip_ws (snd key)) then
        v <- parse_value fuel (tl (skip_ws (snd key))) ;;
        let acc := obj_set acc (fst key) (fst v) in
        match skip_ws (snd v) with
        | [] => Abort SyntaxError
        | c :: r =>
            if (c =? c_comma)%N then parse_members fuel acc r
            else if (c =? 125)%N then Ok (acc, r)
            else Abort SyntaxError
        end
      else Abort SyntaxError
    else Abort SyntaxError.
Proof. reflexivity. Qed.

Lemma skip_ws_start (c : N) (t : jsstring) :
  value_start c -> skip_ws (c :: t) = c :: t.
Proof.
  intros H. simpl. now rewrite (proj1 (value_start_tests c H)).
Qed.

Lemma join_single (sep p : jsstring) : join sep [p] = p.
Proof. reflexivity. Qed.

Lemma join_cons (sep p q : jsstring) (l : list jsstring) :
  join sep (p :: q :: l) = p ++ sep ++ join sep (q :: l).
Proof. reflexivity. Qed.

Lemma obj_set_fresh (acc : list (jsstring * jsvalue)) (k : jsstring)
  (v : jsvalue) :
  ~ In k (map fst acc) -> obj_set acc k v = acc ++ [(k, v)].
Proof.
  induction acc as [| [k' w] acc IH]; simpl; intros H; [reflexivity |].
  destruct (jsstring_eqb k' k) eqn:E.
  - apply jsstring_eqb_eq in E. subst. exfalso. apply H. now left.
  - rewrite IH; [reflexivity |]. intros Hin. apply H. now right.
Qed.

Lemma delimited_cons (c : N) (r : jsstring) :
  (c = 44 \/ c = 93 \/ c = 125)%N -> delimited (c :: r).
Proof. intros H. right. exists c, r. now split. Qed.

Lemma join_cons_app (sep p q t : jsstring) (l : list jsstring) :
  join sep (p :: q :: l) ++ t = p ++ sep ++ (join sep (q :: l) ++ t).
Proof. rewrite join_cons, <- !app_assoc. reflexivity. Qed.

(** One element and the delimiter behind it. *)
Lemma parse_element_step (fuel : nat) (e : jsvalue) (r : jsstring) :
  reads_back e -> is_document e = true -> size e <= fuel ->
  parse_elements (S fuel) (text_of e ++ [c_comma] ++ r)
  = (rest <- parse_elements fuel r ;; Ok (e :: fst rest, snd rest))
  /\ parse_elements (S fuel) (text_of e ++ 93%N :: r) = Ok ([e], r).
Proof.
  intros He Hd Hf. split; rewrite parse_elements_S.
  - rewrite (He Hd fuel ([c_comma] ++ r) Hf)
      by (apply delimited_cons; tauto).
    reflexivity.
  - rewrite (He Hd fuel (93%N :: r) Hf) by (apply delimited_cons; tauto).
    reflexivity.
Qed.

(** The elements of a non-empty array, up to the closing bracket. *)
Lemma parse_elements_join (e : jsvalue) (elems : list jsvalue) :
  Forall reads_back (e :: elems) ->
  forallb is_document (e :: elems) = true ->
  forall fuel rest,
    list_sum (map (fun e => S (size e)) (e :: elems)) <= fuel ->
    parse_elements fuel (join [c_comma] (map text_of (e :: elems))
                           ++ 93%N :: rest)
    = Ok (e :: elems, rest).
Proof.
  revert e. induction elems as [| e2 elems IH]; intros e HF Hdoc fuel rest Hf;
    inversion HF as [| ? ? He HF']; subst;
    simpl in Hdoc; apply andb_true_iff in Hdoc; destruct Hdoc as [Hd Hdoc];
    (destruct fuel as [| fuel]; [simpl in Hf; lia |]).
  - change (map text_of [e]) with [text_of e]. rewrite join_single.
    apply (parse_element_step fuel e rest He Hd). simpl in Hf. lia.
  - change (map text_of (e :: e2 :: elems))
      with (text_of e :: text_of e2 :: map text_of elems).
    rewrite join_cons_app.
    rewrite (proj1 (parse_element_step fuel e _ He Hd
                      ltac:(simpl in Hf; lia))).
    change (text_of e2 :: map text_of elems)
      with (map text_of (e2 :: elems)).
    rewrite (IH e2 HF' Hdoc fuel rest) by (simpl in Hf |- *; lia).
    reflexivity.
Qed.

(** One member and the delimiter behind it. *)
Lemma parse_member_step (fuel : nat) (acc : list (jsstring * jsvalue))
  (k : jsstring) (e : jsvalue) (r : jsstring) :
  reads_back e -> is_document e = true -> size e <= fuel ->
  ~ In k (map fst acc) ->
  parse_members (S fuel) acc (member [] k (text_of e) ++ [c_comma] ++ r)
  = parse_members fuel (acc ++ [(k, e)]) r
  /\ parse_members (S fuel) acc (member [] k (text_of e) ++ 125%N :: r)
     = Ok (acc ++ [(k, e)], r).
Proof.
  intros He Hd Hf Hfresh.
  assert (Hstep : forall tail,
    delimited tail ->
    parse_members (S fuel) acc (member [] k (text_of e) ++ tail)
    = match skip_ws tail with
      | [] => Abort SyntaxError
      | c :: r =>
          if (c =? c_comma)%N then parse_members fuel (acc ++ [(k, e)]) r
          else if (c =? 125)%N then Ok (acc ++ [(k, e)], r)
          else Abort SyntaxError
      end).
  { intros tail Htail. rewrite parse_members_S. unfold member.
    simpl nonempty. cbv iota. rewrite <- !app_assoc.
    destruct (parse_string_quote k ([c_colon] ++ text_of e ++ tail))
      as [body [Ebody Hbody]].
    rewrite Ebody.
    change (skip_ws (c_dquote :: body)) with (c_dquote :: body).
    change (starts_with c_dquote (c_dquote :: body)) with true.
    cbv iota. simpl tl. rewrite Hbody. simpl bind. simpl snd. simpl fst.
    change (skip_ws ([c_colon] ++ text_of e ++ tail))
      with (c_colon :: text_of e ++ tail).
    change (starts_with c_colon (c_colon :: text_of e ++ tail)) with true.
    cbv iota. simpl tl.
    rewrite (He Hd fuel tail Hf Htail).
    simpl bind. simpl snd. simpl fst. cbv zeta.
    now rewrite (obj_set_fresh acc k e Hfresh). }
  split.
  - rewrite Hstep by (apply delimited_cons; tauto). reflexivity.
  - rewrite Hstep by (apply delimited_cons; tauto). reflexivity.
Qed.

(** The members of a non-empty object, up to the closing brace. *)
Lemma parse_members_join (kv : jsstring * jsvalue)
  (fields : list (jsstring * jsvalue)) :
  Forall (fun kv => reads_back (snd kv)) (kv :: fields) ->
  forallb (fun kv => is_document (snd kv)) (kv :: fields) = true ->
  forall acc fuel rest,
    NoDup (map fst (acc ++ kv :: fields)) ->
    list_sum (map (fun kv => S (size (snd kv))) (kv :: fields)) <= fuel ->
    parse_members fuel acc
      (join [c_comma]
         (map (fun kv => member [] (fst kv) (text_of (snd kv)))
            (kv :: fields))
         ++ 125%N :: rest)
    = Ok (acc ++ kv :: fields, rest).
Proof.
  revert kv. induction fields as [| kv2 fields IH];
    intros [k e] HF Hdoc acc fuel rest Hn Hf;
    inversion HF as [| ? ? He HF']; subst; simpl in He;
    simpl in Hdoc; apply andb_true_iff in Hdoc; destruct Hdoc as [Hd Hdoc];
    (destruct fuel as [| fuel]; [simpl in Hf; lia |]);
    assert (Hfresh : ~ In k (map fst acc))
      by (rewrite map_app in Hn; simpl in Hn;
          apply NoDup_remove_2 in Hn; intros Hin; apply Hn;
          apply in_or_app; now left).
  - cbn [map fst snd]. rewrite join_single.
    apply (parse_member_step fuel acc k e rest He Hd); [| exact Hfresh].
    simpl in Hf. lia.
  - cbn [map fst snd]. rewrite join_cons_app.
    rewrite (proj1 (parse_member_step fuel acc k e _ He Hd
                      ltac:(simpl in Hf; lia) Hfresh)).
    pose proof (IH kv2 HF' Hdoc (acc ++ [(k, e)]) fuel rest) as IH2.
    cbn [map] in IH2. rewrite IH2.
    + now rewrite <- app_assoc.
    + now rewrite <- app_assoc.
    + simpl in Hf |- *. lia.
Qed.

Lemma digit_tests (c : N) :
  is_digit c = true ->
  (c =? c_dquote)%N = false /\ (c =? 91)%N = false /\ (c =? 123)%N = false.
Proof.
  intros H. apply is_digit_spec in H. unfold c_dquote.
  repeat split; apply N.eqb_neq; lia.
Qed.

Lemma document_reads_back (j : jsvalue) : reads_back j.
Proof.
  induction j as [| | b | n | z | s | id | t | elems IH | fields IH]
    using jsvalue_ind; intros Hdoc fuel rest Hf Htail;
    try discriminate;
    (destruct fuel as [| fuel]; [simpl in Hf; lia |]).
  - rewrite parse_value_S. reflexivity.
  - rewrite parse_value_S. destruct b; reflexivity.
  - destruct n as [| | | z]; try discriminate.
    simpl in Hdoc. apply Z.leb_le in Hdoc.
    rewrite parse_value_S.
    destruct (text_head (VNumber (Finite z))) as [c [t [E Hc]]];
      [simpl; now apply Z.leb_le |].
    simpl text_of in E |- *. rewrite E. simpl app.
    rewrite (skip_ws_start c _ Hc).
    assert (Hn : parse_number (c :: t ++ rest)
                 = Ok (VNumber (Finite z), rest)).
    { change (c :: t ++ rest) with ((c :: t) ++ rest). rewrite <- E.
      apply parse_number_String_Z; [exact Hdoc |].
      now apply delimited_number_end. }
    destruct Hc as [Hc | Hc].
    + (* a minus sign *)
      assert (c = 45%N).
      { unfold String_Z in E. destruct (z <? 0)%Z.
        - now injection E as <- _.
        - destruct (String_N_cons (Z.to_N z)) as [c' [t' [E' Hd]]].
          rewrite E' in E. injection E as -> _.
          apply is_digit_spec in Hd. simpl in Hc.
          repeat (destruct Hc as [Hc | Hc]; [subst c; lia |]).
          contradiction. }
      subst c. exact Hn.
    + destruct (digit_tests c Hc) as [H1 [H2 H3]].
      now rewrite H1, H2, H3, Hc, orb_true_r.
  - rewrite parse_value_S. simpl text_of.
    destruct (parse_string_quote s rest) as [body [-> Hbody]].
    change (skip_ws (c_dquote :: body)) with (c_dquote :: body).
    change ((c_dquote =? c_dquote)%N) with true. cbv iota.
    now rewrite Hbody.
  - rewrite parse_value_S. simpl text_of. simpl in Hdoc.
    destruct elems as [| e elems]; [reflexivity |].
    unfold wrap. cbn [map nonempty]. cbv iota.
    rewrite <- !app_assoc.
    change (skip_ws ([91%N] ++ ?x)) with (91%N :: x).
    change ((91 =? c_dquote)%N) with false.
    change ((91 =? 91)%N) with true. cbv iota.
    change (text_of e :: map text_of elems) with (map text_of (e :: elems)).
    assert (Hhead : exists c t,
               join [c_comma] (map text_of (e :: elems)) ++ [93%N] ++ rest
               = c :: t /\ value_start c).
    { destruct (text_head e) as [c [t [E Hc]]];
        [now apply andb_true_iff in Hdoc |].
      cbn [map]. destruct elems as [| e2 elems].
      - rewrite join_single, E. eexists _, _. split; [reflexivity | exact Hc].
      - cbn [map]. rewrite join_cons_app, E.
        eexists _, _. split; [reflexivity | exact Hc]. }
    destruct Hhead as [c [t [E Hc]]].
    rewrite E, (skip_ws_start c t Hc). unfold starts_with.
    rewrite (proj1 (proj2 (value_start_tests c Hc))). rewrite <- E.
    change ([93%N] ++ rest) with (93%N :: rest).
    rewrite (parse_elements_join e elems IH Hdoc fuel rest)
      by (simpl in Hf |- *; lia).
    reflexivity.
  - rewrite parse_value_S. simpl text_of. simpl in Hdoc.
    apply andb_true_iff in Hdoc. destruct Hdoc as [Hn Hdoc].
    apply nodupb_spec in Hn.
    destruct fields as [| kv fields]; [reflexivity |].
    unfold wrap. cbn [map nonempty]. cbv iota.
    rewrite <- !app_assoc.
    change (skip_ws ([123%N] ++ ?x)) with (123%N :: x).
    change ((123 =? c_dquote)%N) with false.
    change ((123 =? 91)%N) with false.
    change ((123 =? 123)%N) with true. cbv iota.
    change (member [] (fst kv) (text_of (snd kv))
              :: map (fun kv => member [] (fst kv) (text_of (snd kv))) fields)
      with (map (fun kv => member [] (fst kv) (text_of (snd kv)))
              (kv :: fields)).
    assert (Hhead : exists t,
               join [c_comma]
                 (map (fun kv => member [] (fst kv) (text_of (snd kv)))
                    (kv :: fields)) ++ [125%N] ++ rest
               = c_dquote :: t).
    { cbn [map]. unfold member at 1. rewrite quote_unfold.
      destruct fields as [| kv2 fields].
      - rewrite join_single. eexists. reflexivity.
      - cbn [map]. rewrite join_cons_app. eexists. reflexivity. }
    destruct Hhead as [t E].
    rewrite E.
    change (skip_ws (c_dquote :: t)) with (c_dquote :: t).
    change (starts_with 125 (c_dquote :: t)) with false. cbv iota.
    rewrite <- E.
    change ([125%N] ++ rest) with (125%N :: rest).
    rewrite (parse_members_join kv fields IH Hdoc [] fuel rest Hn)
      by (simpl in Hf |- *; lia).
    reflexivity.
Qed.

(** ** The fuel of [JSON.parse] suffices *)

Lemma join_length (texts : list jsstring) :
  texts <> [] ->
  S (length (join [c_comma] texts))
  = list_sum (map (fun t => S (length t)) texts).
Proof.
  induction texts as [| t texts IH]; [congruence |]. intros _.
  destruct texts as [| t2 texts].
  - rewrite join_single. simpl. lia.
  - rewrite join_cons, !length_app.
    specialize (IH ltac:(discriminate)).
    cbn [map length] in *. unfold list_sum in *. cbn [fold_right] in *.
    lia.
Qed.

Lemma list_sum_le {A} (f g : A -> nat) (l : list A) :
  Forall (fun a => f a <= g a) l ->
  list_sum (map f l) <= list_sum (map g l).
Proof. induction 1; simpl; lia. Qed.

Lemma size_text (j : jsvalue) :
  is_document j = true -> size j <= length (text_of j).
Proof.
  induction j as [| | b | n | z | s | id | t | elems IH | fields IH]
    using jsvalue_ind; intros Hdoc; try discriminate.
  - simpl. lia.
  - destruct b; simpl; lia.
  - destruct (text_head (VNumber n) Hdoc) as [c [t [E _]]].
    rewrite E. destruct n; simpl; lia.
  - simpl text_of. rewrite quote_unfold. simpl. lia.
  - simpl text_of. simpl in Hdoc. rewrite forallb_forall in Hdoc.
    destruct elems as [| e elems]; [simpl; lia |].
    unfold wrap. cbn [map nonempty]. cbv iota.
    rewrite !length_app. cbn [length].
    change (text_of e :: map text_of elems) with (map text_of (e :: elems)).
    pose proof (join_length (map text_of (e :: elems))
                  ltac:(discriminate)) as Hj.
    rewrite map_map in Hj.
    assert (Hs : list_sum (map (fun e => S (size e)) (e :: elems))
                 <= list_sum (map (fun x => S (length (text_of x)))
                               (e :: elems))).
    { apply list_sum_le. rewrite Forall_forall in IH |- *.
      intros x Hx. apply le_n_S. apply (IH x Hx). now apply Hdoc. }
    cbn [size]. lia.
  - simpl text_of. simpl in Hdoc. apply andb_true_iff in Hdoc.
    destruct Hdoc as [_ Hdoc]. rewrite forallb_forall in Hdoc.
    destruct fields as [| kv fields]; [simpl; lia |].
    unfold wrap. cbn [map nonempty]. cbv iota.
    rewrite !length_app. cbn [length].
    change (member [] (fst kv) (text_of (snd kv))
              :: map (fun kv => member [] (fst kv) (text_of (snd kv))) fields)
      with (map (fun kv => member [] (fst kv) (text_of (snd kv)))
              (kv :: fields)).
    pose proof (join_length
                  (map (fun kv => member [] (fst kv) (text_of (snd kv)))
                     (kv :: fields)) ltac:(discriminate)) as Hj.
    rewrite map_map in Hj.
    assert (Hs : list_sum (map (fun kv => S (size (snd kv))) (kv :: fields))
                 <= list_sum
                      (map (fun x => S (length (member [] (fst x)
                                                  (text_of (snd x)))))
                         (kv :: fields))).
    { apply list_sum_le. rewrite Forall_forall in IH |- *.
      intros x Hx. apply le_n_S. unfold member. rewrite !length_app.
      pose proof (IH x Hx (Hdoc x Hx)). lia. }
    cbn [size]. lia.
Qed.

(** The text of a document denotes the document. *)
Lemma JSON_parse_text_of (j : jsvalue) :
  is_document j = true -> JSON_parse_text (text_of j) = Ok j.
Proof.
  intros Hdoc. unfold JSON_parse_text.
  rewrite <- (app_nil_r (text_of j)) at 2.
  rewrite (document_reads_back j Hdoc (S (length (text_of j))) []).
  - reflexivity.
  - pose proof (size_text j Hdoc). lia.
  - now left.
Qed.

(** ** Decoding the tokens [str] writes *)

Lemma String_Z_cons (z : Z) :
  exists c t, String_Z z = c :: t /\ (c = 45%N \/ is_digit c = true)
              /\ forallb is_digit t = true.
Proof.
  unfold String_Z. destruct (z <? 0)%Z.
  - exists 45%N, (String_N (Z.abs_N z)).
    split; [reflexivity |]. split; [now left | apply String_N_digits].
  - pose proof (String_N_digits (Z.to_N z)) as Hd.
    destruct (String_N_cons (Z.to_N z)) as [c [t [E Hc]]].
    rewrite E in Hd. simpl in Hd. apply andb_true_iff in Hd.
    exists c, t. split; [exact E |]. split; [now right | tauto].
Qed.

Lemma digit_not_comma (s : jsstring) :
  forallb is_digit s = true -> forallb not_comma s = true.
Proof.
  induction s as [| c s IH]; simpl; [reflexivity |].
  rewrite !andb_true_iff. intros [Hc Hs]. split; [| now apply IH].
  apply is_digit_spec in Hc. unfold not_comma, c_comma.
  apply negb_true_iff, N.eqb_neq. lia.
Qed.

Lemma String_Z_not_comma (z : Z) : forallb not_comma (String_Z z) = true.
Proof.
  destruct (String_Z_cons z) as [c [t [-> [Hc Ht]]]].
  simpl. rewrite (digit_not_comma t Ht), andb_true_r.
  unfold not_comma, c_comma. apply negb_true_iff, N.eqb_neq.
  destruct Hc as [-> | Hc]; [discriminate |].
  apply is_digit_spec in Hc. lia.
Qed.

Lemma digit_not_space (c : N) :
  c = 45%N \/ is_digit c = true -> is_StrWhiteSpaceChar c = false.
Proof.
  intros [-> | H]; [reflexivity |].
  apply is_digit_spec in H. unfold is_StrWhiteSpaceChar.
  repeat (apply orb_false_iff; split);
    try (apply N.eqb_neq; lia);
    apply not_true_is_false; rewrite between_spec; lia.
Qed.

Lemma trim_start_head (c : N) (t : jsstring) :
  is_StrWhiteSpaceChar c = false -> trim_start (c :: t) = c :: t.
Proof. intros H. simpl. now rewrite H. Qed.

Lemma trim_String_Z (z : Z) : trim (String_Z z) = String_Z z.
Proof.
  destruct (String_Z_cons z) as [c [t [-> [Hc Ht]]]].
  unfold trim. rewrite trim_start_head by now apply digit_not_space.
  assert (Hlast : exists d u, rev (c :: t) = d :: u
                              /\ (d = 45%N \/ is_digit d = true)).
  { destruct (rev (c :: t)) as [| d u] eqn:E.
    - apply (f_equal (@length N)) in E. rewrite length_rev in E.
      discriminate.
    - exists d, u. split; [reflexivity |].
      assert (Hin : In d (c :: t))
        by (apply in_rev; rewrite E; now left).
      destruct Hin as [<- | Hin]; [exact Hc | right].
      rewrite forallb_forall in Ht. now apply Ht. }
  destruct Hlast as [d [u [E Hd]]].
  rewrite E, trim_start_head by now apply digit_not_space.
  now rewrite <- E, rev_involutive.
Qed.

Lemma decimal_digits_String_N (n : N) :
  decimal_digits (String_N n) = Some n.
Proof.
  unfold decimal_digits.
  now rewrite String_N_nonempty, String_N_digits, String_N_value.
Qed.

Lemma signed_integer_String_Z (z : Z) : signed_integer (String_Z z) = Some z.
Proof.
  unfold String_Z, signed_integer. destruct (z <? 0)%Z eqn:E.
  - apply Z.ltb_lt in E.
    change (starts_with 43 (45%N :: String_N (Z.abs_N z))) with false.
    change (starts_with 45 (45%N :: String_N (Z.abs_N z))) with true.
    cbv iota. simpl tl. rewrite decimal_digits_String_N. simpl.
    f_equal. lia.
  - apply Z.ltb_ge in E.
    rewrite !starts_with_digit, decimal_digits_String_N;
      try apply String_N_nonempty; try apply String_N_digits;
      try reflexivity.
    simpl. f_equal. lia.
Qed.

Lemma String_Z_nonempty (z : Z) : String_Z z <> [].
Proof. destruct (String_Z_cons z) as [c [t [-> _]]]. discriminate. Qed.

Lemma BigInt_String_Z (z : Z) : BigInt (Some (String_Z z)) = Ok (VBigInt z).
Proof.
  unfold BigInt. rewrite trim_String_Z, signed_integer_String_Z.
  pose proof (String_Z_nonempty z).
  destruct (String_Z z); congruence.
Qed.

Lemma Date_of_String_Z (t : Z) :
  (Z.abs t <= MAX_TIME)%Z ->
  Date_of (Some (String_Z t)) = Ok (VDate (Some t)).
Proof.
  intros Ht. unfold Date_of.
  rewrite trim_String_Z, signed_integer_String_Z.
  pose proof (String_Z_nonempty t).
  destruct (String_Z t); [congruence |].
  unfold TimeClip. unfold MAX_TIME in Ht.
  apply Z.leb_le in Ht. now rewrite Ht.
Qed.

(** A token with a payload free of commas is recognized with its parts. *)
Lemma token_parts (type : jsstring) (payload : jsstring) :
  forallb not_comma type = true ->
  nonempty type = true ->
  forallb not_comma payload = true ->
  token_shape (toDataURL type payload) = true
  /\ url_value (parseDataURL (toDataURL type payload)) = Some payload
  /\ nth 0 (split c_comma (toDataURL type payload)) []
     = lit "data:" ++ type.
Proof.
  intros Ht Hne Hp. split; [| split].
  - unfold token_shape, toDataURL.
    change (strip_prefix (lit "data:")
              (lit "data:" ++ type ++ [c_comma] ++ payload))
      with (Some (type ++ [c_comma] ++ payload)).
    assert (E : span_not_comma (type ++ [c_comma] ++ payload)
                = (type, c_comma :: payload)).
    { clear Hne. induction type as [| c t IH]; [reflexivity |].
      simpl in Ht. apply andb_true_iff in Ht. destruct Ht as [Hc Ht].
      simpl. rewrite Hc. simpl in IH. now rewrite (IH Ht). }
    cbv beta iota. rewrite E. now rewrite Hne, Hp.
  - unfold toDataURL. rewrite app_assoc.
    change ([c_comma] ++ payload) with (c_comma :: payload).
    unfold parseDataURL. cbn [url_value].
    rewrite (split_app_sep (lit "data:" ++ type) payload)
      by (rewrite forallb_app; now rewrite Ht).
    now rewrite (split_no_sep payload Hp).
  - unfold toDataURL. rewrite app_assoc.
    change ([c_comma] ++ payload) with (c_comma :: payload).
    rewrite (split_app_sep (lit "data:" ++ type) payload); [reflexivity |].
    rewrite forallb_app. now rewrite Ht.
Qed.

Lemma revive_bigint (key : jsstring) (z : Z) :
  revive None [] key (VString (toDataURL (lit "bigint") (String_Z z)))
  = Ok (VBigInt z).
Proof.
  destruct (token_parts (lit "bigint") (String_Z z) eq_refl eq_refl
              (String_Z_not_comma z)) as [Hs [Hv Ht]].
  unfold revive. rewrite Hs. unfold decode_tag.
  unfold parseDataURL at 1 2 3 4. cbn [url_type]. rewrite Ht.
  change (nth_error (split c_colon (lit "data:" ++ lit "bigint")) 1)
    with (Some (lit "bigint")).
  change (is_type (Some (lit "bigint")) "undefined") with false.
  change (is_type (Some (lit "bigint")) "number") with false.
  change (is_type (Some (lit "bigint")) "bigint") with true.
  cbv iota. rewrite Hv, BigInt_String_Z. reflexivity.
Qed.

Lemma revive_date (key : jsstring) (t : Z) :
  (Z.abs t <= MAX_TIME)%Z ->
  revive None [] key (VString (toDataURL (lit "date") (String_Z t)))
  = Ok (VDate (Some t)).
Proof.
  intros Hr.
  destruct (token_parts (lit "date") (String_Z t) eq_refl eq_refl
              (String_Z_not_comma t)) as [Hs [Hv Ht]].
  unfold revive. rewrite Hs. unfold decode_tag.
  unfold parseDataURL at 1 2 3 4 5. cbn [url_type]. rewrite Ht.
  change (nth_error (split c_colon (lit "data:" ++ lit "date")) 1)
    with (Some (lit "date")).
  change (is_type (Some (lit "date")) "undefined") with false.
  change (is_type (Some (lit "date")) "number") with false.
  change (is_type (Some (lit "date")) "bigint") with false.
  change (is_type (Some (lit "date")) "date") with true.
  cbv iota. rewrite Hv, (Date_of_String_Z t Hr). reflexivity.
Qed.

(** A string that is no recognized token is returned as it is. *)
Lemma revive_plain_string (key s : jsstring) :
  recognized_token s = false ->
  revive None [] key (VString s) = Ok (VString s).
Proof.
  unfold recognized_token, revive. intros H.
  destruct (token_shape s); [| reflexivity].
  rewrite andb_true_l in H. cbv zeta in H.
  apply orb_false_iff in H. destruct H as [H Hn].
  apply orb_false_iff in H. destruct H as [H Hd].
  apply orb_false_iff in H. destruct H as [Hu Hb].
  unfold decode_tag. rewrite Hu, Hb, Hd.
  destruct (is_type (url_type (parseDataURL s)) "number"); [| reflexivity].
  rewrite andb_true_l in Hn.
  apply orb_false_iff in Hn. destruct Hn as [Hn H3].
  apply orb_false_iff in Hn. destruct Hn as [H1 H2].
  rewrite H1, H2, H3. reflexivity.
Qed.

(** ** The reviver walk on the document of a value *)

Lemma mark_not_undefined (v : jsvalue) : mark v <> VUndefined.
Proof. destruct v; discriminate. Qed.

Lemma internalize_array (f : jsstring -> jsvalue -> outcome jsvalue)
  (name : jsstring) (elems marked : list jsvalue) :
  Forall2 (fun e m => forall k, internalize f k e = Ok m) elems marked ->
  internalize f name (VArray elems) = f name (VArray marked).
Proof.
  intros H. simpl.
  assert (E : forall i,
    (fix walk (i : nat) (l : list jsvalue) : outcome (list jsvalue) :=
       match l with
       | [] => Ok []
       | e :: l' =>
           e' <- internalize f (String_N (N.of_nat i)) e ;;
           rest <- walk (S i) l' ;;
           Ok (e' :: rest)
       end) i elems = Ok marked).
  { induction H as [| e m elems marked He _ IH]; intros i; [reflexivity |].
    rewrite He. simpl. now rewrite IH. }
  now rewrite E.
Qed.

Lemma internalize_object (f : jsstring -> jsvalue -> outcome jsvalue)
  (name : jsstring) (fields marked : list (jsstring * jsvalue)) :
  Forall2 (fun kv km => fst kv = fst km
                        /\ snd km <> VUndefined
                        /\ forall k, internalize f k (snd kv) = Ok (snd km))
    fields marked ->
  internalize f name (VObject fields) = f name (VObject marked).
Proof.
  intros H. simpl.
  assert (E :
    (fix walk (l : list (jsstring * jsvalue))
       : outcome (list (jsstring * jsvalue)) :=
       match l with
       | [] => Ok []
       | (k, e) :: l' =>
           e' <- internalize f k e ;;
           rest <- walk l' ;;
           match e' with
           | VUndefined => Ok rest
           | _ => Ok ((k, e') :: rest)
           end
       end) fields = Ok marked).
  { induction H as [| [k e] [k' m] fields marked [Hk [Hm He]] _ IH];
      [reflexivity |].
    simpl in Hk, Hm, He. subst k'. rewrite He. simpl. rewrite IH. simpl.
    destruct m; congruence. }
  now rewrite E.
Qed.

Lemma Forall2_map {A B C} (R : B -> C -> Prop) (f : A -> B) (g : A -> C)
  (l : list A) :
  Forall (fun a => R (f a) (g a)) l -> Forall2 R (map f l) (map g l).
Proof. induction 1; simpl; constructor; auto. Qed.

Lemma internalize_json_of (v : jsvalue) :
  portable v = true ->
  forall name, internalize (revive None []) name (json_of v) = Ok (mark v).
Proof.
  induction v as [| | b | n | z | s | id | t | elems IH | fields IH]
    using jsvalue_ind; intros Hp name; try reflexivity; try discriminate.
  - destruct n; reflexivity.
  - apply revive_bigint.
  - simpl in Hp. apply negb_true_iff in Hp.
    now apply revive_plain_string.
  - destruct t as [t |]; [| reflexivity].
    apply revive_date. simpl in Hp. now apply Z.leb_le.
  - simpl json_of. simpl mark. simpl in Hp.
    rewrite forallb_forall in Hp. rewrite Forall_forall in IH.
    rewrite (internalize_array _ name (map json_of elems) (map mark elems));
      [reflexivity |].
    apply Forall2_map. apply Forall_forall. intros e Hin k.
    apply IH; auto.
  - simpl json_of. simpl mark. simpl in Hp.
    rewrite forallb_forall in Hp. rewrite Forall_forall in IH.
    rewrite (internalize_object _ name
               (map (fun kv => (fst kv, json_of (snd kv))) fields)
               (map (fun kv => (fst kv, mark (snd kv))) fields));
      [reflexivity |].
    apply Forall2_map. apply Forall_forall. intros kv Hin. simpl.
    split; [reflexivity |]. split; [apply mark_not_undefined |].
    intros k. apply IH; auto.
Qed.

(** ** The sweep on the marked value *)

Lemma clean_field_mark (v : jsvalue) :
  portable v = true -> clean_field (mark v) = v.
Proof.
  induction v as [| | b | n | z | s | id | t | elems IH | fields IH]
    using jsvalue_ind; intros Hp; try reflexivity; try discriminate.
  - simpl mark. unfold clean_field. simpl is_undefinedSymbol. cbv iota.
    rewrite clean_array, map_map. f_equal.
    simpl in Hp. rewrite forallb_forall in Hp. rewrite Forall_forall in IH.
    apply map_fixed. intros e Hin. apply IH; auto.
  - simpl mark. unfold clean_field. simpl is_undefinedSymbol. cbv iota.
    rewrite clean_object, map_map. f_equal.
    simpl in Hp. rewrite forallb_forall in Hp. rewrite Forall_forall in IH.
    apply map_fixed. intros [k e] Hin. simpl. f_equal.
    apply (IH (k, e) Hin). exact (Hp _ Hin).
Qed.

Lemma clean_mark (v : jsvalue) :
  portable v = true -> v <> VUndefined -> clean (mark v) = v.
Proof.
  intros Hp Hu. pose proof (clean_field_mark v Hp) as H.
  unfold clean_field in H.
  destruct (is_undefinedSymbol (mark v)) eqn:E; [| exact H].
  destruct v; try discriminate; congruence.
Qed.

Lemma mark_distinct (v : jsvalue) :
  distinct_keys (mark v) = distinct_keys v.
Proof.
  induction v as [| | b | n | z | s | id | t | elems IH | fields IH]
    using jsvalue_ind; try reflexivity.
  - simpl. induction IH as [| e elems He _ IHl]; simpl; [reflexivity |].
    now rewrite He, IHl.
  - simpl. rewrite map_map. simpl. f_equal.
    induction IH as [| [k e] fields He _ IHl]; simpl; [reflexivity |].
    simpl in He. now rewrite He, IHl.
Qed.

(** ** The document of a value *)

Lemma json_of_document (v : jsvalue) :
  portable v = true -> distinct_keys v = true ->
  is_document (json_of v) = true.
Proof.
  induction v as [| | b | n | z | s | id | t | elems IH | fields IH]
    using jsvalue_ind; intros Hp Hd; try reflexivity; try discriminate.
  - destruct n; try reflexivity. exact Hp.
  - simpl in *. rewrite forallb_forall in Hp, Hd. rewrite Forall_forall in IH.
    rewrite forallb_forall. intros j Hin. apply in_map_iff in Hin.
    destruct Hin as [e [<- Hin]]. apply IH; auto.
  - simpl in *. apply andb_true_iff in Hd. destruct Hd as [Hn Hd].
    assert (Ek : map fst (map (fun kv => (fst kv, json_of (snd kv))) fields)
                 = map fst fields)
      by (rewrite map_map; apply map_ext; reflexivity).
    rewrite Ek, Hn. simpl.
    rewrite forallb_forall in Hp, Hd. rewrite Forall_forall in IH.
    rewrite forallb_forall. intros j Hin. apply in_map_iff in Hin.
    destruct Hin as [kv [<- Hin]]. simpl. apply IH; auto.
Qed.

Lemma text_nonempty (j : jsvalue) :
  is_document j = true -> nonempty (text_of j) = true.
Proof.
  intros H. destruct (text_head j H) as [c [t [-> _]]]. reflexivity.
Qed.

(** ** The text [str] writes for a value *)

Lemma for_loop_pure (f : nat -> jsstring) (i n : nat)
  (body : nat -> outcome (list jsstring)) :
  (forall j, i <= j < i + n -> body j = Ok [f j]) ->
  for_loop i n body = Ok (map f (seq i n)).
Proof.
  revert i. induction n as [| n IH]; intros i H; [reflexivity |].
  simpl. rewrite (H i) by lia. simpl.
  rewrite (IH (S i)) by (intros j Hj; apply H; lia).
  reflexivity.
Qed.

Lemma for_each_pure (f : jsstring -> jsstring) (keys : list jsstring)
  (body : jsstring -> outcome (list jsstring)) :
  (forall k, In k keys -> body k = Ok [f k]) ->
  for_each keys body = Ok (map f keys).
Proof.
  induction keys as [| k keys IH]; intros H; [reflexivity |].
  simpl. rewrite (H k) by now left. simpl.
  rewrite IH by (intros k' Hk'; apply H; now right).
  reflexivity.
Qed.

Lemma map_seq_nth {B} (F : jsvalue -> B) (front l : list jsvalue) :
  map (fun i => F (nth i (front ++ l) VUndefined))
    (seq (length front) (length l))
  = map F l.
Proof.
  revert front. induction l as [| e l IH]; intros front; [reflexivity |].
  simpl. rewrite app_nth2, Nat.sub_diag by lia. simpl. f_equal.
  specialize (IH (front ++ [e])).
  rewrite length_app, <- app_assoc in IH. simpl in IH.
  now rewrite Nat.add_1_r in IH.
Qed.

Lemma depth_element (e : jsvalue) (elems : list jsvalue) :
  In e elems -> depth e <= list_max (map depth elems).
Proof.
  intros H. pose proof (proj1 (list_max_le (map depth elems) _)
                          (Nat.le_refl _)) as Hall.
  rewrite Forall_forall in Hall. apply Hall. now apply in_map.
Qed.

Lemma depth_field (kv : jsstring * jsvalue)
  (fields : list (jsstring * jsvalue)) :
  In kv fields ->
  depth (snd kv) <= list_max (map (fun kv => depth (snd kv)) fields).
Proof.
  intros H. pose proof (proj1 (list_max_le
                                 (map (fun kv => depth (snd kv)) fields) _)
                          (Nat.le_refl _)) as Hall.
  rewrite Forall_forall in Hall. apply Hall.
  apply in_map_iff. now exists kv.
Qed.

(** Without user code and without indent, [str] writes the compact text of
    the document of the value. *)
Lemma str_compact (v : jsvalue) :
  portable v = true -> distinct_keys v = true ->
  forall stack c path key holder,
    no_hooks c -> indent c = [] ->
    rep_truthy (rep c) && jstype_eqb (rep_typeof (rep c)) TObject = false ->
    own_lookup holder key = true ->
    get holder key = v ->
    depth v < stack ->
    str stack c path [] key holder = Ok (Some (text_of (json_of v))).
Proof.
  induction v as [| | b | n | z | s | id | t | elems IH | fields IH]
    using jsvalue_ind;
    intros Hp Hd stack c path key holder Hc Hi Hr Hl Hget Hs;
    (destruct stack as [| stack]; [lia |]);
    simpl str; rewrite Hl; cbn [negb]; cbv iota;
    rewrite (transform_no_hooks c _ key holder Hc), Hget;
    try reflexivity; try discriminate.
  - destruct n; try reflexivity. simpl in Hp. now rewrite Hp.
  - (* an array *)
    rewrite Hi. simpl app.
    simpl in Hp, Hd, Hs. rewrite forallb_forall in Hp, Hd.
    rewrite Forall_forall in IH.
    rewrite (for_loop_pure
               (fun i => text_of (json_of (nth i elems VUndefined)))).
    + pose proof (map_seq_nth (fun e => text_of (json_of e)) [] elems) as E.
      simpl app in E. simpl length in E. rewrite E.
      simpl. now rewrite map_map.
    + intros j Hj. simpl in Hj.
      assert (Hin : In (nth j elems VUndefined) elems)
        by (apply nth_In; lia).
      rewrite (IH _ Hin (Hp _ Hin) (Hd _ Hin) stack c (path ++ [key])
                 (String_N (N.of_nat j)) (VArray elems) Hc Hi Hr).
      * simpl. unfold or_null.
        now rewrite (text_nonempty _ (json_of_document _ (Hp _ Hin)
                                        (Hd _ Hin))).
      * apply own_lookup_index. lia.
      * apply get_array_index. lia.
      * pose proof (depth_element _ _ Hin). lia.
  - (* an object *)
    rewrite Hi, Hr. simpl app.
    simpl in Hp, Hd, Hs. apply andb_true_iff in Hd. destruct Hd as [Hn Hd].
    apply nodupb_spec in Hn.
    rewrite forallb_forall in Hp, Hd. rewrite Forall_forall in IH.
    rewrite (for_each_pure
               (fun k => member [] k (text_of (json_of
                                                 (get (VObject fields) k))))).
    + simpl. do 3 f_equal. rewrite !map_map.
      apply map_ext_in. intros [k e] Hin. simpl. do 3 f_equal.
      unfold get. now rewrite (assoc_nodup fields k e Hn Hin).
    + intros k Hk. apply in_map_iff in Hk. destruct Hk as [[k' e] [Ek Hin]].
      simpl in Ek. subst k'.
      assert (Hg : get (VObject fields) k = e)
        by (unfold get; now rewrite (assoc_nodup fields k e Hn Hin)).
      rewrite (IH _ Hin (Hp _ Hin) (Hd _ Hin) stack c (path ++ [key]) k
                 (VObject fields) Hc Hi Hr
                 (own_lookup_field fields k
                    (in_map fst fields (k, e) Hin)) Hg).
      * simpl. rewrite Hg.
        pose proof (text_nonempty _ (json_of_document _ (Hp _ Hin)
                                       (Hd _ Hin))) as Hne.
        simpl in Hne. now rewrite Hne.
      * pose proof (depth_field _ _ Hin). simpl in *. lia.
Qed.

Lemma mark_not_null (v : jsvalue) : v <> VNull -> mark v <> VNull.
Proof. destruct v; simpl; intros H E; try discriminate E; congruence. Qed.




(** At the top level, [null] is written as [null] and [parse] of that text
    fails: the sweep asks for the keys of [null]. *)
Lemma parse_null_fails :
  stringify create 1 VNull (RValue VUndefined) VUndefined
  = Ok (Some (lit "null"))
  /\ parse create (lit "null") None = Abort TypeError.
Proof. split; reflexivity. Qed.

(** ** What [JSON.parse] returns is a document *)

Lemma unrepresented_aborts (rest : jsstring) (res : jsvalue * jsstring) :
  unrepresented rest <> Ok res.
Proof.
  unfold unrepresented. destruct (number_tail rest) as [r |];
    [destruct (follows_value r) |]; discriminate.
Qed.

Lemma parse_number_document (s : jsstring) (v : jsvalue) (r : jsstring) :
  parse_number s = Ok (v, r) -> is_document v = true.
Proof.
  unfold parse_number. cbv zeta.
  match goal with
  | |- context [let (_, _) := ?X in _] => destruct X as [digits rest]
  end.
  destruct digits as [| d digits]; [discriminate |].
  destruct (starts_with 46 rest || starts_with 101 rest
            || starts_with 69 rest);
    [intros H; now apply unrepresented_aborts in H |].
  set (n := Z.of_N (N.of_uint (units_uint (d :: digits)))).
  assert (Hn : (0 <= n)%Z) by (unfold n; lia).
  destruct (starts_with 45 s && (n =? 0)%Z);
    [intros H; now apply unrepresented_aborts in H |].
  destruct (MAX_SAFE_INTEGER <? n)%Z eqn:Em;
    [intros H; now apply unrepresented_aborts in H |].
  apply Z.ltb_ge in Em. intros H. injection H as <- _.
  simpl. apply Z.leb_le. destruct (starts_with 45 s); lia.
Qed.

Lemma parse_literal_document (s : jsstring) (v : jsvalue) (r : jsstring) :
  parse_literal s = Ok (v, r) -> is_document v = true.
Proof.
  unfold parse_literal.
  destruct (strip_prefix (lit "null") s);
    [intros H; now injection H as <- _ |].
  destruct (strip_prefix (lit "true") s);
    [intros H; now injection H as <- _ |].
  destruct (strip_prefix (lit "false") s);
    [intros H; now injection H as <- _ | discriminate].
Qed.

Lemma obj_set_keys (acc : list (jsstring * jsvalue)) (k x : jsstring)
  (v : jsvalue) :
  In x (map fst (obj_set acc k v)) -> In x (map fst acc) \/ x = k.
Proof.
  induction acc as [| [k' w] acc IH]; simpl.
  - intros [<- | []]. now right.
  - destruct (jsstring_eqb k' k); simpl.
    + tauto.
    + intros [<- | H]; [tauto |]. destruct (IH H); tauto.
Qed.

Lemma obj_set_nodup (acc : list (jsstring * jsvalue)) (k : jsstring)
  (v : jsvalue) :
  NoDup (map fst acc) -> NoDup (map fst (obj_set acc k v)).
Proof.
  induction acc as [| [k' w] acc IH]; simpl; intros H.
  - constructor; [tauto | constructor].
  - inversion H as [| ? ? Hk Hn]; subst.
    destruct (jsstring_eqb k' k) eqn:E; simpl; [now constructor |].
    constructor; [| now apply IH].
    intros Hin. apply obj_set_keys in Hin. destruct Hin as [Hin | ->].
    + contradiction.
    + now rewrite jsstring_eqb_refl in E.
Qed.

Lemma obj_set_documents (acc : list (jsstring * jsvalue)) (k : jsstring)
  (v : jsvalue) :
  forallb (fun kv => is_document (snd kv)) acc = true ->
  is_document v = true ->
  forallb (fun kv => is_document (snd kv)) (obj_set acc k v) = true.
Proof.
  intros Ha Hv. induction acc as [| [k' w] acc IH]; simpl.
  - now rewrite Hv.
  - simpl in Ha. apply andb_true_iff in Ha. destruct Ha as [Hw Ha].
    destruct (jsstring_eqb k' k); simpl.
    + now rewrite Hv, Ha.
    + now rewrite Hw, IH.
Qed.

Lemma parser_documents (fuel : nat) :
  (forall s v r, parse_value fuel s = Ok (v, r) -> is_document v = true)
  /\ (forall s vs r, parse_elements fuel s = Ok (vs, r) ->
                     forallb is_document vs = true)
  /\ (forall acc s fs r,
         parse_members fuel acc s = Ok (fs, r) ->
         NoDup (map fst acc) ->
         forallb (fun kv => is_document (snd kv)) acc = true ->
         NoDup (map fst fs)
         /\ forallb (fun kv => is_document (snd kv)) fs = true).
Proof.
  induction fuel as [| fuel [IHv [IHe IHm]]].
  - repeat split; discriminate.
  - split; [| split].
    + intros s v r. rewrite parse_value_S.
      destruct (skip_ws s) as [| c t]; [discriminate |].
      destruct (c =? c_dquote)%N.
      { destruct (parse_string_body t) as [[str rest] |]; [| discriminate].
        intros H. now injection H as <- _. }
      destruct (c =? 91)%N.
      { destruct (starts_with 93 (skip_ws t)).
        - intros H. now injection H as <- _.
        - destruct (parse_elements fuel t) as [[vs rest] |] eqn:E;
            [| discriminate].
          intros H. injection H as <- _. simpl. exact (IHe _ _ _ E). }
      destruct (c =? 123)%N.
      { destruct (starts_with 125 (skip_ws t)).
        - intros H. now injection H as <- _.
        - destruct (parse_members fuel [] t) as [[fs rest] |] eqn:E;
            [| discriminate].
          intros H. injection H as <- _. simpl.
          destruct (IHm _ _ _ _ E (NoDup_nil _) eq_refl) as [Hn Hd].
          apply nodupb_spec in Hn. now rewrite Hn, Hd. }
      destruct ((c =? 45)%N || is_digit c).
      * apply parse_number_document.
      * apply parse_literal_document.
    + intros s vs r. rewrite parse_elements_S.
      destruct (parse_value fuel s) as [[v rest] |] eqn:E; [| discriminate].
      simpl bind. simpl snd. simpl fst.
      destruct (skip_ws rest) as [| c t]; [discriminate |].
      destruct (c =? c_comma)%N.
      { destruct (parse_elements fuel t) as [[vs' rest'] |] eqn:E';
          [| discriminate].
        intros H. injection H as <- _. simpl.
        now rewrite (IHv _ _ _ E), (IHe _ _ _ E'). }
      destruct (c =? 93)%N; [| discriminate].
      intros H. injection H as <- _. simpl. now rewrite (IHv _ _ _ E).
    + intros acc s fs r. rewrite parse_members_S.
      destruct (starts_with c_dquote (skip_ws s)); [| discriminate].
      destruct (parse_string_body (tl (skip_ws s))) as [[key rest] |];
        [| discriminate].
      simpl bind. simpl snd. simpl fst.
      destruct (starts_with c_colon (skip_ws rest)); [| discriminate].
      destruct (parse_value fuel (tl (skip_ws rest))) as [[v rest'] |] eqn:E;
        [| discriminate].
      simpl bind. simpl snd. simpl fst. cbv zeta.
      intros H Hn Hd.
      pose proof (obj_set_nodup acc key v Hn) as Hn'.
      pose proof (obj_set_documents acc key v Hd (IHv _ _ _ E)) as Hd'.
      destruct (skip_ws rest') as [| c t]; [discriminate |].
      destruct (c =? c_comma)%N; [exact (IHm _ _ _ _ H Hn' Hd') |].
      destruct (c =? 125)%N; [| discriminate].
      injection H as <- _. now split.
Qed.

Lemma JSON_parse_text_document (text : jsstring) (tree : jsvalue) :
  JSON_parse_text text = Ok tree -> is_document tree = true.
Proof.
  unfold JSON_parse_text.
  destruct (parse_value (S (length text)) text) as [[v r] |] eqn:E;
    [| discriminate].
  simpl. destruct (skip_ws r); [| discriminate].
  intros H. injection H as <-.
  exact (proj1 (parser_documents _) _ _ _ E).
Qed.

Lemma document_distinct (j : jsvalue) :
  is_document j = true -> distinct_keys j = true.
Proof.
  induction j as [| | b | n | z | s | id | t | elems IH | fields IH]
    using jsvalue_ind; intros H; try reflexivity; try discriminate.
  - simpl in *. rewrite forallb_forall in H. rewrite Forall_forall in IH.
    apply forallb_forall. intros e Hin. apply IH; auto.
  - simpl in *. apply andb_true_iff in H. destruct H as [Hn H].
    rewrite Hn. simpl.
    rewrite forallb_forall in H. rewrite Forall_forall in IH.
    apply forallb_forall. intros e Hin. apply IH; auto.
Qed.


(** ** The reviver walk keeps documents well formed *)

Lemma BigInt_result (arg : option jsstring) (x : jsvalue) :
  BigInt arg = Ok x -> exists z, x = VBigInt z.
Proof.
  unfold BigInt. destruct arg as [s |]; [| discriminate].
  destruct (trim s); [intros H; injection H as <-; eauto |].
  destruct (signed_integer _); [intros H; injection H as <-; eauto |].
  destruct (non_decimal_literal _); [| discriminate].
  intros H. injection H as <-. eauto.
Qed.

Lemma Date_of_result (arg : option jsstring) (x : jsvalue) :
  Date_of arg = Ok x -> exists t, x = VDate t.
Proof.
  unfold Date_of. destruct arg as [s |];
    [| intros H; injection H as <-; eauto].
  destruct (trim s); [intros H; injection H as <-; eauto |].
  destruct (signed_integer _); [intros H; injection H as <-; eauto |].
  destruct (non_decimal_literal _); [intros H; injection H as <-; eauto |].
  destruct (jsstring_eqb _ _); [intros H; injection H as <-; eauto |].
  destruct (fractional_literal _); [discriminate |].
  intros H. injection H as <-. eauto.
Qed.

Lemma decode_tag_result (s : jsstring) (p : data_url) (x : jsvalue) :
  decode_tag (VString s) p = Ok x -> structure x = false.
Proof.
  unfold decode_tag.
  destruct (is_type (url_type p) "undefined");
    [intros H; now injection H as <- |].
  destruct (is_type (url_type p) "number").
  { destruct (is_type (url_value p) "NaN");
      [intros H; now injection H as <- |].
    destruct (is_type (url_value p) "Infinity");
      [intros H; now injection H as <- |].
    destruct (is_type (url_value p) "-Infinity");
      intros H; now injection H as <-. }
  destruct (is_type (url_type p) "bigint").
  { intros H. apply BigInt_result in H. destruct H as [z ->]. reflexivity. }
  destruct (is_type (url_type p) "date").
  { intros H. apply Date_of_result in H. destruct H as [t ->]. reflexivity. }
  intros H. now injection H as <-.
Qed.

(** What the callback of [parse] returns: never [undefined]; an array or
    object as it is; for anything else a value without fields. *)
Lemma revive_result (key : jsstring) (v x : jsvalue) :
  revive None [] key v = Ok x ->
  x <> VUndefined
  /\ (structure v = true -> x = v)
  /\ (structure v = false -> structure x = false).
Proof.
  unfold revive.
  destruct v as [| | b | n | z | s | id | t | elems | fields];
    try (simpl; intros H; injection H as <-;
         split; [discriminate
                | split; intros E; first [reflexivity | discriminate]]).
  destruct (token_shape s).
  - destruct (decode_tag (VString s) (parseDataURL s)) as [y |] eqn:E;
      [| discriminate].
    apply decode_tag_result in E. simpl.
    destruct y; try discriminate; intros H; injection H as <-;
      (split; [discriminate
              | split; intros E'; first [reflexivity | discriminate]]).
  - simpl. intros H. injection H as <-.
    split; [discriminate
           | split; intros E; first [reflexivity | discriminate]].
Qed.

Lemma inert_distinct (v : jsvalue) :
  structure v = false -> distinct_keys v = true.
Proof. destruct v; try discriminate; reflexivity. Qed.

Lemma internalize_array_inv (f : jsstring -> jsvalue -> outcome jsvalue)
  (name : jsstring) (elems : list jsvalue) (x : jsvalue) :
  internalize f name (VArray elems) = Ok x ->
  exists elems',
    Forall2 (fun e e' => exists k, internalize f k e = Ok e') elems elems'
    /\ f name (VArray elems') = Ok x.
Proof.
  simpl.
  set (walk := fix walk (i : nat) (l : list jsvalue)
                 : outcome (list jsvalue) :=
         match l with
         | [] => Ok []
         | e :: l' =>
             e' <- internalize f (String_N (N.of_nat i)) e ;;
             rest <- walk (S i) l' ;;
             Ok (e' :: rest)
         end).
  assert (Hw : forall l i l', walk i l = Ok l' ->
             Forall2 (fun e e' => exists k, internalize f k e = Ok e') l l').
  { induction l as [| e l IH]; intros i l'; simpl.
    - intros H. injection H as <-. constructor.
    - destruct (internalize f _ e) as [e' |] eqn:Ee; [| discriminate].
      simpl. destruct (walk (S i) l) as [rest |] eqn:Er; [| discriminate].
      simpl. intros H. injection H as <-.
      constructor; [eauto | eapply IH; eauto]. }
  destruct (walk 0 elems) as [elems' |] eqn:E; [| discriminate].
  simpl. intros H. exists elems'. split; [eapply Hw; eauto | exact H].
Qed.

Lemma internalize_object_inv (f : jsstring -> jsvalue -> outcome jsvalue)
  (name : jsstring) (fields : list (jsstring * jsvalue)) (x : jsvalue) :
  internalize f name (VObject fields) = Ok x ->
  exists fields',
    f name (VObject fields') = Ok x
    /\ (forall k e', In (k, e') fields' ->
          exists e, In (k, e) fields /\ internalize f k e = Ok e')
    /\ (NoDup (map fst fields) -> NoDup (map fst fields')).
Proof.
  simpl.
  set (walk := fix walk (l : list (jsstring * jsvalue))
                 : outcome (list (jsstring * jsvalue)) :=
         match l with
         | [] => Ok []
         | (k, e) :: l' =>
             e' <- internalize f k e ;;
             rest <- walk l' ;;
             match e' with
             | VUndefined => Ok rest
             | _ => Ok ((k, e') :: rest)
             end
         end).
  assert (Hw : forall l l', walk l = Ok l' ->
             (forall k e', In (k, e') l' ->
                exists e, In (k, e) l /\ internalize f k e = Ok e')
             /\ (NoDup (map fst l) -> NoDup (map fst l'))).
  { induction l as [| [k e] l IH]; intros l'; simpl.
    - intros H. injection H as <-. split; [contradiction | auto].
    - destruct (internalize f k e) as [e' |] eqn:Ee; [| discriminate].
      simpl. destruct (walk l) as [rest |] eqn:Er; [| discriminate].
      simpl. destruct (IH rest eq_refl) as [Hin Hnd].
      assert (Hrest : (forall k0 e0, In (k0, e0) rest ->
                         exists e1, ((k, e) = (k0, e1) \/ In (k0, e1) l)
                                    /\ internalize f k0 e1 = Ok e0)
                      /\ (NoDup (k :: map fst l) -> NoDup (map fst rest))).
      { split.
        - intros k0 e0 H0. destruct (Hin k0 e0 H0) as [e1 [H1 H2]].
          exists e1. tauto.
        - intros H. inversion H; subst. auto. }
      assert (Hcons : (forall k0 e0, In (k0, e0) ((k, e') :: rest) ->
                         exists e1, ((k, e) = (k0, e1) \/ In (k0, e1) l)
                                    /\ internalize f k0 e1 = Ok e0)
                      /\ (NoDup (k :: map fst l) ->
                          NoDup (map fst ((k, e') :: rest)))).
      { split.
        - intros k0 e0 [H0 | H0].
          + injection H0 as <- <-. exists e. tauto.
          + destruct (Hin k0 e0 H0) as [e1 [H1 H2]]. exists e1. tauto.
        - intros H. inversion H as [| ? ? Hk Hn]; subst. simpl.
          constructor; [| auto].
          intros Hc. apply Hk. apply in_map_iff in Hc.
          destruct Hc as [[k1 e1] [Ek H1]]. simpl in Ek. subst k1.
          destruct (Hin k e1 H1) as [e2 [H2 _]].
          apply in_map_iff. now exists (k, e2). }
      destruct e'; intros H; injection H as <-;
        first [exact Hrest | exact Hcons]. }
  destruct (walk fields) as [fields' |] eqn:E; [| discriminate].
  simpl. intros H. exists fields'. split; [exact H |].
  now apply Hw.
Qed.

Lemma Forall2_in_right {A B : Type} (R : A -> B -> Prop) (l : list A)
  (l' : list B) (y : B) :
  Forall2 R l l' -> In y l' -> exists x, In x l /\ R x y.
Proof.
  induction 1 as [| a b l l' Hab _ IH]; simpl; [contradiction |].
  intros [<- | Hin]; [now exists a; auto |].
  destruct (IH Hin) as [x [Hx HR]]. exists x. auto.
Qed.

Lemma internalize_distinct (tree : jsvalue) :
  distinct_keys tree = true ->
  forall name json,
    internalize (revive None []) name tree = Ok json ->
    distinct_keys json = true.
Proof.
  induction tree as [| | b | n | z | s | id | t | elems IH | fields IH]
    using jsvalue_ind; intros Hd name json H;
    try (cbn [internalize] in H; apply revive_result in H;
         apply inert_distinct; now apply (proj2 (proj2 H))).
  - apply internalize_array_inv in H. destruct H as [elems' [HF H]].
    apply revive_result in H. destruct H as [_ [H _]].
    rewrite (H eq_refl). simpl. simpl in Hd.
    rewrite forallb_forall in Hd. rewrite Forall_forall in IH.
    apply forallb_forall. intros e' Hin.
    destruct (Forall2_in_right _ _ _ _ HF Hin) as [e [He [k Hk]]].
    apply (IH e He (Hd e He) k e' Hk).
  - apply internalize_object_inv in H.
    destruct H as [fields' [H [Hin Hnd]]].
    apply revive_result in H. destruct H as [_ [H _]].
    rewrite (H eq_refl). simpl. simpl in Hd.
    apply andb_true_iff in Hd. destruct Hd as [Hn Hd].
    apply nodupb_spec in Hn.
    rewrite (proj2 (nodupb_spec _) (Hnd Hn)). simpl.
    rewrite forallb_forall in Hd. rewrite Forall_forall in IH.
    apply forallb_forall. intros [k e'] Hin'. simpl.
    destruct (Hin k e' Hin') as [e [He Hk]].
    apply (IH (k, e) He (Hd _ He) k e' Hk).
Qed.

(** What [parse] returns is the clean form of a well-formed document. *)
Lemma parse_result_clean (text : jsstring) (result : jsvalue) :
  parse create text None = Ok result ->
  exists json, distinct_keys json = true /\ result = clean json.
Proof.
  unfold parse. simpl this_plugins.
  destruct (JSON_parse_text text) as [tree |] eqn:Et; [| discriminate].
  simpl bind.
  destruct (internalize (revive None []) [] tree) as [json |] eqn:Ej;
    [| discriminate].
  simpl bind. intros H.
  assert (Hd : distinct_keys json = true).
  { apply (internalize_distinct tree) with (name := []); [| exact Ej].
    now apply document_distinct, (JSON_parse_text_document text). }
  exists json. split; [exact Hd |].
  destruct json as [| | b | n | z | s | id | t | elems | fields];
    try discriminate;
    match goal with
    | |- _ = clean ?j =>
        rewrite (sweep_clean j Hd ltac:(discriminate) ltac:(discriminate))
          in H
    end; now injection H.
Qed.

(** * Further properties of the engine *)

(** ** The tag codec, both ways *)

Lemma split_absent (sep : N) (s : jsstring) :
  forallb (fun c => negb (c =? sep)%N) s = true -> split sep s = [s].
Proof.
  induction s as [| c s IH]; simpl; [reflexivity |].
  rewrite andb_true_iff, negb_true_iff.
  intros [Hc Hs]. now rewrite Hc, (IH Hs).
Qed.

Lemma split_at_sep (sep : N) (s rest : jsstring) :
  forallb (fun c => negb (c =? sep)%N) s = true ->
  split sep (s ++ sep :: rest) = s :: split sep rest.
Proof.
  induction s as [| c s IH]; simpl.
  - intros _. now rewrite N.eqb_refl.
  - rewrite andb_true_iff, negb_true_iff.
    intros [Hc Hs]. now rewrite Hc, (IH Hs).
Qed.

Lemma token_payload_span (type value : jsstring) :
  match snd (span_not_comma (type ++ c_comma :: value)) with
  | _ :: payload => forallb not_comma payload
  | [] => false
  end
  = forallb not_comma type && forallb not_comma value.
Proof.
  induction type as [| c type IH]; [reflexivity |].
  simpl. destruct (not_comma c) eqn:Ec.
  - destruct (span_not_comma (type ++ c_comma :: value)) as [a rest].
    exact IH.
  - simpl. rewrite forallb_app. simpl.
    now rewrite andb_false_r.
Qed.

(** X12.  The decoder's pattern accepts the token built from a type and a payload
    exactly when the type is not empty and neither part holds a comma. *)
Theorem token_shape_toDataURL (type value : jsstring) :
  token_shape (toDataURL type value)
  = nonempty type && forallb not_comma type && forallb not_comma value.
Proof.
  unfold token_shape, toDataURL.
  change (strip_prefix (lit "data:")
            (lit "data:" ++ type ++ [c_comma] ++ value))
    with (Some (type ++ c_comma :: value)).
  cbv beta iota.
  pose proof (token_payload_span type value) as H.
  destruct type as [| c type]; [reflexivity |].
  simpl in *. destruct (not_comma c); [| reflexivity].
  destruct (span_not_comma (type ++ c_comma :: value)) as [a rest].
  exact H.
Qed.

Lemma parseDataURL_token (type value : jsstring) :
  forallb not_comma type = true ->
  forallb (fun c => negb (c =? c_colon)%N) type = true ->
  forallb not_comma value = true ->
  parseDataURL (toDataURL type value)
  = {| url_type := Some type; url_value := Some value |}.
Proof.
  intros Ht Hc Hv. unfold parseDataURL, toDataURL.
  rewrite app_assoc.
  change ([c_comma] ++ value) with (c_comma :: value).
  rewrite (split_app_sep (lit "data:" ++ type) value)
    by (rewrite forallb_app; now rewrite Ht).
  rewrite (split_no_sep value Hv). cbn [nth nth_error].
  change (lit "data:" ++ type) with (lit "data" ++ c_colon :: type).
  rewrite (split_at_sep c_colon (lit "data") type eq_refl).
  now rewrite (split_absent c_colon type Hc).
Qed.

(** X13.  [parseDataURL] returns the two parts [toDataURL] was given, provided
    the type holds neither a comma nor a colon and the payload holds no
    comma. *)
Theorem parseDataURL_toDataURL (type value : jsstring) :
  forallb not_comma type = true ->
  forallb (fun c => negb (c =? c_colon)%N) type = true ->
  forallb not_comma value = true ->
  parseDataURL (toDataURL type value)
  = {| url_type := Some type; url_value := Some value |}.
Proof. apply parseDataURL_token. Qed.

Lemma parseDataURL_toDataURL_witness :
  parseDataURL (toDataURL (lit "bigint") (lit "12"))
  = {| url_type := Some (lit "bigint"); url_value := Some (lit "12") |}.
Proof.
  apply (parseDataURL_toDataURL (lit "bigint") (lit "12"));
    reflexivity.
Defined.

(** ** What [quote] writes *)

Lemma hex_digit_plain (h : N) :
  (h < 16)%N -> rx_escapable (hex_char h) = false.
Proof.
  intros Hh. rewrite <- (hex_digit_char h Hh).
  apply rx_escapable_false. unfold escapable, hex_digit.
  destruct (N.ltb_spec h 10); lia.
Qed.

(** X10.  The only units of the escaped class that [quote] writes are double
    quotes and backslashes: no control character and no other unit of the
    class reaches the text. *)
Theorem quote_text_units (s : jsstring) (c : N) :
  In c (quote s) -> rx_escapable c = true ->
  c = c_dquote \/ c = c_backslash.
Proof.
  rewrite quote_unfold. intros Hin Hc.
  destruct Hin as [<- | Hin]; [now left |].
  apply in_app_or in Hin.
  destruct Hin as [Hin | [<- | []]]; [| now left].
  unfold replace_escapable in Hin. apply in_flat_map in Hin.
  destruct Hin as [c0 [_ Hin]].
  cbv beta in Hin.
  generalize (quote_replace_spec c0). revert Hin.
  destruct (rx_escapable c0) eqn:E0; intros Hin Hspec.
  - inversion Hspec as [letter Hl E | h3 h2 h1 h0 He Hout Hh Ec E | Hn E];
      rewrite <- E in Hin; simpl in Hin.
    + destruct Hin as [<- | [<- | []]]; [now right |].
      unfold short_escapes in Hl. simpl in Hl.
      repeat (destruct Hl as [Hl | Hl];
              [injection Hl as <- <-;
               first [now left | now right
                     | vm_compute in Hc; discriminate Hc] |]).
      contradiction.
    + destruct Hh as [H3 [H2 [H1 H0]]].
      destruct Hin as [<- | [<- | [<- | [<- | [<- | [<- | []]]]]]];
        first [now right | vm_compute in Hc; discriminate Hc
              | now rewrite hex_digit_plain in Hc].
    + apply rx_escapable_spec in E0. contradiction.
  - simpl in Hin. destruct Hin as [<- | []]. congruence.
Qed.

Lemma quote_text_units_witness :
  In 92%N (quote [10%N]) /\ (92%N = c_dquote \/ 92%N = c_backslash).
Proof.
  split; [right; left; reflexivity |].
  apply (quote_text_units [10%N] 92%N); [right; left |]; reflexivity.
Defined.

(** X11.  The host parser reads the text [quote] writes for a string as that
    string, whatever units it holds. *)
Theorem quote_reads_back (s : jsstring) :
  JSON_parse_text (quote s) = Ok (VString s).
Proof. exact (JSON_parse_text_of (VString s) eq_refl). Qed.

(** ** [quote] and the host's [QuoteJSONString] *)

Lemma native_quote_body_low (s : jsstring) :
  (forall c, In c s -> (c < 127)%N) ->
  Native.quote_body s = replace_escapable quote_replace s.
Proof.
  induction s as [| c s IH]; intros H; [reflexivity |].
  assert (Hc : (c < 127)%N) by (apply H; now left).
  assert (Hs : forall d, In d s -> (d < 127)%N)
    by (intros d Hd; apply H; now right).
  unfold replace_escapable in *. cbn [flat_map Native.quote_body].
  rewrite <- (IH Hs).
  destruct (rx_escapable c) eqn:E.
  - unfold quote_replace. destruct (meta_lookup meta c) as [esc |] eqn:Em;
      [reflexivity |].
    assert (Hlow : (c <? 32)%N = true).
    { apply N.ltb_lt. apply rx_escapable_spec in E. unfold escapable in E.
      destruct (N.eq_dec c 34) as [-> | H34]; [discriminate Em |].
      destruct (N.eq_dec c 92) as [-> | H92]; [discriminate Em |].
      lia. }
    rewrite Hlow. rewrite padded_hex by lia.
    unfold Native.UnicodeEscape.
    rewrite (N.mod_small (c / 4096) 16)
      by (apply N.Div0.div_lt_upper_bound; lia).
    reflexivity.
  - assert (Hn : ~ escapable c) by now apply rx_escapable_false.
    unfold escapable in Hn.
    rewrite meta_lookup_other
      by (unfold short_escapes; simpl; lia).
    assert (Hlow : (c <? 32)%N = false) by (apply N.ltb_ge; lia).
    rewrite Hlow.
    unfold Native.is_high_surrogate, Native.is_low_surrogate.
    assert (H1 : between 0xd800 0xdbff c = false).
    { apply not_true_is_false. rewrite between_spec. lia. }
    assert (H2 : between 0xdc00 0xdfff c = false).
    { apply not_true_is_false. rewrite between_spec. lia. }
    now rewrite H1, H2.
Qed.

(** X8.  On strings whose units are all below U+007F, [quote] writes what the
    host's [QuoteJSONString] writes. *)
Theorem quote_matches_native (s : jsstring) :
  (forall c, In c s -> (c < 127)%N) ->
  quote s = Native.QuoteJSONString s.
Proof.
  intros H. rewrite quote_unfold. unfold Native.QuoteJSONString.
  now rewrite (native_quote_body_low s H).
Qed.

Lemma quote_matches_native_witness :
  quote [97; 10; 34]%N = Native.QuoteJSONString [97; 10; 34]%N.
Proof.
  apply (quote_matches_native [97; 10; 34]%N).
  intros c [<- | [<- | [<- | []]]]; reflexivity.
Defined.

(** X9.  From U+007F on, every unit of the escaped class is written by
    [quote] as a backslash, the letter u and the four lower-case hexadecimal
    digits of the unit, and left as it is by the host. *)
Theorem quote_differs_from_native (c : N) :
  rx_escapable c = true -> (127 <= c)%N ->
  quote [c]
  = [c_dquote; c_backslash; 117%N; hex_char (c / 4096);
     hex_char ((c / 256) mod 16); hex_char ((c / 16) mod 16);
     hex_char (c mod 16); c_dquote]
  /\ Native.QuoteJSONString [c] = [c_dquote; c; c_dquote]
  /\ quote [c] <> Native.QuoteJSONString [c].
Proof.
  intros E Hc.
  assert (He : escapable c) by now apply rx_escapable_spec.
  assert (Hm : meta_lookup meta c = None).
  { apply meta_lookup_other. unfold short_escapes. simpl. lia. }
  assert (Hn : Native.QuoteJSONString [c] = [c_dquote; c; c_dquote]).
  { unfold Native.QuoteJSONString. cbn [Native.quote_body]. rewrite Hm.
    assert (Hlow : (c <? 32)%N = false) by (apply N.ltb_ge; lia).
    rewrite Hlow.
    unfold Native.is_high_surrogate, Native.is_low_surrogate.
    assert (H1 : between 0xd800 0xdbff c = false).
    { apply not_true_is_false. rewrite between_spec.
      unfold escapable in He. lia. }
    assert (H2 : between 0xdc00 0xdfff c = false).
    { apply not_true_is_false. rewrite between_spec.
      unfold escapable in He. lia. }
    now rewrite H1, H2. }
  assert (Hq : quote [c]
               = [c_dquote; c_backslash; 117%N; hex_char (c / 4096);
                  hex_char ((c / 256) mod 16); hex_char ((c / 16) mod 16);
                  hex_char (c mod 16); c_dquote]).
  { rewrite quote_unfold. unfold replace_escapable. cbn [flat_map].
    rewrite E. unfold quote_replace. rewrite Hm.
    pose proof (escapable_bound c He) as Hb.
    rewrite (padded_hex c Hb).
    rewrite !hex_digit_char;
      [reflexivity | | | |];
      first [ apply N.mod_lt; lia
            | apply N.Div0.div_lt_upper_bound; lia ]. }
  split; [exact Hq |]. split; [exact Hn |].
  rewrite Hq, Hn. intros H. injection H as H _.
  unfold c_backslash in H. lia.
Qed.

Lemma quote_differs_from_native_witness :
  quote [127%N] = [34; 92; 117; 48; 48; 55; 102; 34]%N
  /\ Native.QuoteJSONString [127%N] = [c_dquote; 127%N; c_dquote]
  /\ quote [127%N] <> Native.QuoteJSONString [127%N].
Proof.
  apply (quote_differs_from_native 127%N); [reflexivity | lia].
Defined.

(** ** The sweep of [parse] *)

(** X15.  On a document whose objects have distinct keys and whose root is neither
    [null] nor [undefined], the sweep ends within as many iterations as the
    document has nodes; it returns the document with [undefined] in every
    field that held the sentinel and every other field as it was, so no
    field of the result holds the sentinel. *)
Theorem sweep_replaces_sentinels (json : jsvalue) :
  distinct_keys json = true ->
  json <> VNull -> json <> VUndefined ->
  sweep (nodes json) json [[]] = Ok (clean json)
  /\ marker_free (clean json) = true.
Proof.
  intros Hd Hn Hu. split; [now apply sweep_clean | apply clean_marker_free].
Qed.

Lemma sweep_replaces_sentinels_witness :
  sweep 5
    (VObject [(lit "a", undefinedSymbol);
              (lit "b", VArray [undefinedSymbol; VNull])])
    [[]]
  = Ok (VObject [(lit "a", VUndefined);
                 (lit "b", VArray [VUndefined; VNull])])
  /\ marker_free
       (VObject [(lit "a", VUndefined);
                 (lit "b", VArray [VUndefined; VNull])]) = true.
Proof.
  apply (sweep_replaces_sentinels
           (VObject [(lit "a", undefinedSymbol);
                     (lit "b", VArray [undefinedSymbol; VNull])]));
    [reflexivity | discriminate | discriminate].
Defined.

(** X16.  The loop of the sweep dequeues every array and object that can be
    reached from the root through fields: none is skipped. *)
Theorem sweep_visits_every_container (json : jsvalue) (r : ref) :
  distinct_keys json = true ->
  json <> VNull -> json <> VUndefined ->
  reachable json r ->
  In r (visited (nodes json) json [[]]).
Proof. intros Hd Hn Hu Hr. now apply visited_all. Qed.

Lemma sweep_visits_every_container_witness :
  In [lit "b"; lit "0"]
    (visited 4 (VObject [(lit "b", VArray [VArray [undefinedSymbol]])])
       [[]]).
Proof.
  apply (sweep_visits_every_container
           (VObject [(lit "b", VArray [VArray [undefinedSymbol]])])
           [lit "b"; lit "0"]);
    [reflexivity | discriminate | discriminate |].
  apply (reachable_field _ [lit "b"] (lit "0")); [| reflexivity].
  apply (reachable_field _ [] (lit "b")); [| reflexivity].
  apply reachable_root.
Defined.

(** X17.  A text that denotes [null] makes [parse] throw a [TypeError]: the sweep
    asks for the keys of the root. *)
Theorem parse_null_document_fails (text : jsstring) :
  JSON_parse_text text = Ok VNull ->
  parse create text None = Abort TypeError.
Proof. intros H. unfold parse. rewrite H. reflexivity. Qed.

Lemma parse_null_document_fails_witness :
  parse create (lit " null ") None = Abort TypeError.
Proof.
  apply (parse_null_document_fails (lit " null ")). reflexivity.
Defined.

(** X18.  Without reviver and plugins, whatever [parse] returns holds the
    sentinel in no field of any array or object, and the keys of each of
    its objects are distinct. *)
Theorem parse_result_marker_free (text : jsstring) (result : jsvalue) :
  parse create text None = Ok result ->
  marker_free result = true /\ distinct_keys result = true.
Proof.
  intros H. apply parse_result_clean in H.
  destruct H as [json [Hd ->]]. split.
  - apply clean_marker_free.
  - now rewrite clean_distinct.
Qed.

Lemma parse_result_marker_free_witness :
  marker_free (VArray [VUndefined; VNumber (Finite 1)]) = true
  /\ distinct_keys (VArray [VUndefined; VNumber (Finite 1)]) = true.
Proof.
  apply (parse_result_marker_free
           ([91%N] ++ quote (lit "data:undefined,") ++ lit ",1]")).
  reflexivity.
Defined.

(** ** The text [stringify] writes *)

Lemma stringify_compact (v : jsvalue) (stack : nat) :
  portable v = true -> distinct_keys v = true -> depth v < stack ->
  stringify create stack v (RValue VUndefined) VUndefined
  = Ok (Some (text_of (json_of v))).
Proof.
  intros Hp Hd Hs. unfold stringify. simpl.
  apply (str_compact v Hp Hd); try reflexivity; [| exact Hs].
  split; [reflexivity | exact I].
Qed.

(** X3.  Without user code and without indent, the text written for a value of
    the round trip is valid for the host parser, which reads it as the
    value with every absent value, non-finite number, big integer and date
    replaced by the string that holds its token. *)
Theorem stringify_writes_document (v : jsvalue) (stack : nat) :
  portable v = true -> distinct_keys v = true -> depth v < stack ->
  exists text,
    stringify create stack v (RValue VUndefined) VUndefined = Ok (Some text)
    /\ JSON_parse_text text = Ok (json_of v).
Proof.
  intros Hp Hd Hs. exists (text_of (json_of v)). split.
  - now apply stringify_compact.
  - apply JSON_parse_text_of. now apply json_of_document.
Qed.

Lemma stringify_writes_document_witness :
  exists text,
    stringify create 2 (VArray [VUndefined; VBigInt 7]) (RValue VUndefined)
      VUndefined = Ok (Some text)
    /\ JSON_parse_text text
       = Ok (VArray [VString (lit "data:undefined,");
                     VString (lit "data:bigint,7")]).
Proof.
  apply (stringify_writes_document (VArray [VUndefined; VBigInt 7]) 2);
    try reflexivity.
  simpl. lia.
Defined.

(** X2.  A string that spells the token of another value is written exactly as
    that value is, and [parse] returns the value for both: the string does
    not come back. *)
Theorem token_string_collides (v : jsvalue) (s : jsstring) :
  portable v = true ->
  json_of v = VString s ->
  v <> VUndefined ->
  stringify create 1 (VString s) (RValue VUndefined) VUndefined
  = Ok (Some (quote s))
  /\ stringify create 1 v (RValue VUndefined) VUndefined
     = Ok (Some (quote s))
  /\ parse create (quote s) None = Ok v.
Proof.
  intros Hp Hj Hu.
  assert (Hleaf : structure v = false)
    by (destruct v; try reflexivity; discriminate Hj).
  assert (Hd : distinct_keys v = true) by now apply inert_distinct.
  assert (Hn : v <> VNull) by (intros ->; discriminate Hj).
  split; [reflexivity |]. split.
  - change (quote s) with (text_of (VString s)). rewrite <- Hj.
    apply (stringify_compact v 1 Hp Hd).
    destruct v; try discriminate Hleaf; simpl; lia.
  - change (quote s) with (text_of (VString s)). rewrite <- Hj.
    unfold parse. simpl this_plugins.
    rewrite (JSON_parse_text_of _ (json_of_document v Hp Hd)). simpl bind.
    rewrite (internalize_json_of v Hp []). simpl bind.
    rewrite sweep_clean.
    + now rewrite clean_mark.
    + now rewrite mark_distinct.
    + now apply mark_not_null.
    + apply mark_not_undefined.
Qed.

Lemma token_string_collides_witness :
  stringify create 1 (VString (lit "data:number,NaN")) (RValue VUndefined)
    VUndefined
  = Ok (Some (quote (lit "data:number,NaN")))
  /\ stringify create 1 (VNumber NaN) (RValue VUndefined) VUndefined
     = Ok (Some (quote (lit "data:number,NaN")))
  /\ parse create (quote (lit "data:number,NaN")) None = Ok (VNumber NaN).
Proof.
  apply (token_string_collides (VNumber NaN) (lit "data:number,NaN"));
    [reflexivity | reflexivity | discriminate].
Defined.

(** ** The callback of [parse] *)

Lemma revive_not_undefined (rv : option JSSerializationReviver)
  (ps : list JSSerializationPlugin) (key : jsstring) (value x : jsvalue) :
  revive rv ps key value = Ok x -> x <> VUndefined.
Proof.
  unfold revive.
  destruct (match value with
            | VString s =>
                if token_shape s
                then
                  let parsedResult := parseDataURL s in
                  result <- decode_tag value parsedResult ;;
                  Ok (result, Some parsedResult)
                else Ok (value, None)
            | _ => Ok (value, None)
            end) as [[result parsed] |]; [| discriminate].
  simpl.
  destruct (apply_revivers ps key value parsed
              match rv with
              | Some f => f key result value parsed
              | None => result
              end) eqn:E;
    intros H; injection H as <-; discriminate.
Qed.

(** X19.  Whatever the reviver and the plugins return, the callback of [parse]
    never returns [undefined]; so the host's walk deletes no member: the
    object handed to the callback has every key of the parsed object, in
    order, each with what the callback returned for it. *)
Theorem reviver_walk_keeps_keys (rv : option JSSerializationReviver)
  (ps : list JSSerializationPlugin) (name : jsstring)
  (fields : list (jsstring * jsvalue)) (x : jsvalue) :
  internalize (revive rv ps) name (VObject fields) = Ok x ->
  x <> VUndefined
  /\ exists fields',
       map fst fields' = map fst fields
       /\ Forall2 (fun kv kv' =>
                     internalize (revive rv ps) (fst kv) (snd kv)
                     = Ok (snd kv')) fields fields'
       /\ revive rv ps name (VObject fields') = Ok x.
Proof.
  simpl.
  set (walk := fix walk (l : list (jsstring * jsvalue))
                 : outcome (list (jsstring * jsvalue)) :=
         match l with
         | [] => Ok []
         | (k, e) :: l' =>
             e' <- internalize (revive rv ps) k e ;;
             rest <- walk l' ;;
             match e' with
             | VUndefined => Ok rest
             | _ => Ok ((k, e') :: rest)
             end
         end).
  assert (Hw : forall l l', walk l = Ok l' ->
             map fst l' = map fst l
             /\ Forall2 (fun kv kv' =>
                           internalize (revive rv ps) (fst kv) (snd kv)
                           = Ok (snd kv')) l l').
  { induction l as [| [k e] l IH]; intros l'; simpl.
    - intros H. injection H as <-. split; [reflexivity | constructor].
    - destruct (internalize (revive rv ps) k e) as [e' |] eqn:Ee;
        [| discriminate].
      simpl. destruct (walk l) as [rest |] eqn:Er; [| discriminate].
      simpl. destruct (IH rest eq_refl) as [Hk HF].
      assert (He : e' <> VUndefined).
      { destruct e; simpl in Ee;
          try (now apply revive_not_undefined in Ee);
          match type of Ee with
          | (x <- ?m ;; _) = _ => destruct m; [| discriminate]
          end; simpl in Ee; now apply revive_not_undefined in Ee. }
      destruct e'; try contradiction; intros H; injection H as <-;
        (split; [simpl; now rewrite Hk | constructor; [exact Ee | exact HF]]). }
  destruct (walk fields) as [fields' |] eqn:E; [| discriminate].
  simpl. intros H. split; [now apply revive_not_undefined in H |].
  exists fields'. destruct (Hw fields fields' E) as [Hk HF]. auto.
Qed.

Lemma reviver_walk_keeps_keys_witness :
  VObject [(lit "a", undefinedSymbol)] <> VUndefined
  /\ exists fields',
       map fst fields' = map fst [(lit "a", VNull)]
       /\ Forall2 (fun kv kv' =>
                     internalize
                       (revive (Some (fun _ r _ _ =>
                                        match r with
                                        | VNull => VUndefined
                                        | _ => r
                                        end)) [])
                       (fst kv) (snd kv)
                     = Ok (snd kv')) [(lit "a", VNull)] fields'
       /\ revive (Some (fun _ r _ _ =>
                          match r with
                          | VNull => VUndefined
                          | _ => r
                          end)) [] [] (VObject fields')
          = Ok (VObject [(lit "a", undefinedSymbol)]).
Proof.
  apply (reviver_walk_keeps_keys
           (Some (fun _ r _ _ =>
                    match r with VNull => VUndefined | _ => r end))
           [] [] [(lit "a", VNull)]).
  reflexivity.
Defined.

Lemma bigint_token (payload : jsstring) :
  forallb not_comma payload = true ->
  token_shape (toDataURL (lit "bigint") payload) = true
  /\ decode_tag (VString (toDataURL (lit "bigint") payload))
       (parseDataURL (toDataURL (lit "bigint") payload))
     = BigInt (Some payload).
Proof.
  intros Hp.
  destruct (token_parts (lit "bigint") payload eq_refl eq_refl Hp)
    as [Hs [Hv Ht]].
  split; [exact Hs |].
  unfold decode_tag.
  unfold parseDataURL at 1 2 3. cbn [url_type]. rewrite Ht.
  change (nth_error (split c_colon (lit "data:" ++ lit "bigint")) 1)
    with (Some (lit "bigint")).
  change (is_type (Some (lit "bigint")) "undefined") with false.
  change (is_type (Some (lit "bigint")) "number") with false.
  change (is_type (Some (lit "bigint")) "bigint") with true.
  cbv iota. now rewrite Hv.
Qed.

(** X20.  When a string is a [bigint] token whose payload the host's [BigInt]
    rejects, [parse] throws what [BigInt] throws; neither the reviver nor a
    plugin is consulted. *)
Theorem bigint_token_failure (this : JSSerialization)
  (rv : option JSSerializationReviver) (payload : jsstring) (e : abort) :
  forallb not_comma payload = true ->
  BigInt (Some payload) = Abort e ->
  parse this (quote (toDataURL (lit "bigint") payload)) rv = Abort e.
Proof.
  intros Hp He. unfold parse.
  change (quote (toDataURL (lit "bigint") payload))
    with (text_of (VString (toDataURL (lit "bigint") payload))).
  rewrite (JSON_parse_text_of
             (VString (toDataURL (lit "bigint") payload)) eq_refl).
  simpl bind.
  cbn [internalize]. unfold revive.
  destruct (bigint_token payload Hp) as [Hs Hd].
  now rewrite Hs, Hd, He.
Qed.

Lemma bigint_token_failure_witness :
  parse create (quote (toDataURL (lit "bigint") (lit "1.5"))) None
  = Abort SyntaxError.
Proof.
  apply (bigint_token_failure create None (lit "1.5") SyntaxError);
    reflexivity.
Defined.

(** ** Plugins *)

Lemma for_each_ext (keys : list jsstring)
  (f g : jsstring -> outcome (list jsstring)) :
  (forall k, In k keys -> f k = g k) ->
  for_each keys f = for_each keys g.
Proof.
  induction keys as [| k keys IH]; intros H; simpl; [reflexivity |].
  rewrite (H k) by now left.
  rewrite IH; [reflexivity |]. intros k' Hk'. apply H. now right.
Qed.

(** [str] depends on its context only through the indent, the replacer
    value and the value [transform] computes. *)
Lemma str_transform_ext (c c' : context) :
  indent c = indent c' ->
  rep c = rep c'
  \/ (rep_truthy (rep c) && jstype_eqb (rep_typeof (rep c)) TObject = false
      /\ rep_truthy (rep c') && jstype_eqb (rep_typeof (rep c')) TObject
         = false) ->
  (forall path key holder,
      transform c path key holder = transform c' path key holder) ->
  forall stack path gap key holder,
    str stack c path gap key holder = str stack c' path gap key holder.
Proof.
  intros Hi Hr Ht. induction stack as [| stack IH];
    intros path gap key holder; [reflexivity |].
  simpl. destruct (own_lookup holder key); [| reflexivity].
  cbn [negb]. cbv iota. rewrite Ht, Hi.
  destruct (transform c' (path ++ [key]) key holder)
    as [| | b | n | z | s | id | t | elems | fields]; try reflexivity.
  - f_equal. apply for_loop_ext. intros j _. now rewrite IH.
  - f_equal. destruct Hr as [Hr | [Hr Hr']].
    + rewrite Hr.
      destruct (rep_truthy (rep c')
                && jstype_eqb (rep_typeof (rep c')) TObject).
      * destruct (loop_bound (rep_get (rep c') (lit "length")))
          as [n |]; [| reflexivity].
        simpl. apply for_loop_ext. intros j _.
        destruct (rep_get (rep c') (String_N (N.of_nat j)));
          try reflexivity.
        now rewrite IH.
      * apply for_each_ext. intros k _. now rewrite IH.
    + rewrite Hr, Hr'. apply for_each_ext. intros k _. now rewrite IH.
Qed.

Lemma apply_plugins_inert (ps : list JSSerializationPlugin)
  (holder : jsvalue) (key : jsstring) (raw : jsvalue)
  (path : list jsstring) (v : jsvalue) :
  (forall p, In p ps -> replacer p = None) ->
  apply_plugins ps holder key raw path v = v.
Proof.
  unfold apply_plugins. revert v.
  induction ps as [| p ps IH]; intros v H; [reflexivity |].
  simpl. rewrite (H p) by now left.
  apply IH. intros q Hq. apply H. now right.
Qed.

Lemma apply_revivers_inert (ps : list JSSerializationPlugin)
  (key : jsstring) (value : jsvalue) (parsed : option data_url)
  (result : jsvalue) :
  (forall p, In p ps -> reviver p = None) ->
  apply_revivers ps key value parsed result = result.
Proof.
  unfold apply_revivers. revert result.
  induction ps as [| p ps IH]; intros result H; [reflexivity |].
  simpl. rewrite (H p) by now left.
  apply IH. intros q Hq. apply H. now right.
Qed.

Lemma internalize_ext (f g : jsstring -> jsvalue -> outcome jsvalue) :
  (forall k v, f k v = g k v) ->
  forall tree name, internalize f name tree = internalize g name tree.
Proof.
  intros H.
  induction tree as [| | b | n | z | s | id | t | elems IH | fields IH]
    using jsvalue_ind; intros name; try apply H.
  - simpl.
    assert (E : forall i,
      (fix walk (i : nat) (l : list jsvalue) : outcome (list jsvalue) :=
         match l with
         | [] => Ok []
         | e :: l' =>
             e' <- internalize f (String_N (N.of_nat i)) e ;;
             rest <- walk (S i) l' ;;
             Ok (e' :: rest)
         end) i elems
      = (fix walk (i : nat) (l : list jsvalue) : outcome (list jsvalue) :=
           match l with
           | [] => Ok []
           | e :: l' =>
               e' <- internalize g (String_N (N.of_nat i)) e ;;
               rest <- walk (S i) l' ;;
               Ok (e' :: rest)
           end) i elems).
    { induction IH as [| e elems He _ IHl]; intros i; [reflexivity |].
      now rewrite He, IHl. }
    rewrite E.
    match goal with |- bind ?m _ = _ => destruct m end;
      [apply H | reflexivity].
  - simpl.
    assert (E :
      (fix walk (l : list (jsstring * jsvalue))
         : outcome (list (jsstring * jsvalue)) :=
         match l with
         | [] => Ok []
         | (k, e) :: l' =>
             e' <- internalize f k e ;;
             rest <- walk l' ;;
             match e' with
             | VUndefined => Ok rest
             | _ => Ok ((k, e') :: rest)
             end
         end) fields
      = (fix walk (l : list (jsstring * jsvalue))
           : outcome (list (jsstring * jsvalue)) :=
           match l with
           | [] => Ok []
           | (k, e) :: l' =>
               e' <- internalize g k e ;;
               rest <- walk l' ;;
               match e' with
               | VUndefined => Ok rest
               | _ => Ok ((k, e') :: rest)
               end
           end) fields).
    { induction IH as [| [k e] fields He _ IHl]; [reflexivity |].
      simpl in He. now rewrite He, IHl. }
    rewrite E.
    match goal with |- bind ?m _ = _ => destruct m end;
      [apply H | reflexivity].
Qed.

(** X23.  A plugin that supplies no replacer has no effect on [stringify]: an
    engine whose plugins all lack one writes what a fresh engine writes. *)
Theorem plugins_without_replacer (this : JSSerialization) (stack : nat)
  (value : jsvalue) (r : replacer_arg) (space : jsvalue) :
  (forall p, In p (this_plugins this) -> replacer p = None) ->
  stringify this stack value r space = stringify create stack value r space.
Proof.
  intros H. unfold stringify.
  destruct (indent_of space) as [ind |]; [| reflexivity].
  simpl. destruct (invalid_replacer r); [reflexivity |].
  apply str_transform_ext; [reflexivity | now left |].
  intros path key holder. unfold transform. simpl.
  now rewrite apply_plugins_inert.
Qed.

Lemma plugins_without_replacer_witness :
  stringify
    (register create
       [{| reviver := Some (fun _ r _ _ => r); replacer := None |}])
    2 (VArray [VBigInt 1]) (RValue VUndefined) VUndefined
  = stringify create 2 (VArray [VBigInt 1]) (RValue VUndefined) VUndefined.
Proof.
  apply (plugins_without_replacer
           (register create
              [{| reviver := Some (fun _ r _ _ => r); replacer := None |}])).
  intros p [<- | []]. reflexivity.
Defined.

(** X24.  A plugin that supplies no reviver has no effect on [parse]. *)
Theorem plugins_without_reviver (this : JSSerialization) (text : jsstring)
  (rv : option JSSerializationReviver) :
  (forall p, In p (this_plugins this) -> reviver p = None) ->
  parse this text rv = parse create text rv.
Proof.
  intros H. unfold parse.
  destruct (JSON_parse_text text) as [tree |]; [| reflexivity].
  simpl. rewrite (internalize_ext (revive rv (this_plugins this))
                    (revive rv [])); [reflexivity |].
  intros k v. unfold revive.
  destruct (match v with
            | VString s =>
                if token_shape s
                then
                  let parsedResult := parseDataURL s in
                  result <- decode_tag v parsedResult ;;
                  Ok (result, Some parsedResult)
                else Ok (v, None)
            | _ => Ok (v, None)
            end) as [[result parsed] |]; [| reflexivity].
  simpl. now rewrite apply_revivers_inert.
Qed.

Lemma plugins_without_reviver_witness :
  parse
    (register create
       [{| reviver := None; replacer := Some (fun _ _ v _ _ => v) |}])
    (lit "[1]") None
  = parse create (lit "[1]") None.
Proof.
  apply (plugins_without_reviver
           (register create
              [{| reviver := None;
                  replacer := Some (fun _ _ v _ _ => v) |}])).
  intros p [<- | []]. reflexivity.
Defined.

(** X25.  [register] appends: plugins registered later run later.  The replacers
    of a second registration are applied to what the replacers registered
    before them returned, and so are the revivers. *)
Theorem register_order (this : JSSerialization)
  (ps qs : list JSSerializationPlugin) :
  this_plugins (register (register this ps) qs)
  = this_plugins this ++ ps ++ qs
  /\ (forall holder key raw path v,
        apply_plugins (this_plugins (register this ps)) holder key raw path v
        = apply_plugins ps holder key raw path
            (apply_plugins (this_plugins this) holder key raw path v))
  /\ (forall key value parsed result,
        apply_revivers (this_plugins (register this ps)) key value parsed
          result
        = apply_revivers ps key value parsed
            (apply_revivers (this_plugins this) key value parsed result)).
Proof.
  split; [| split].
  - simpl. now rewrite app_assoc.
  - intros. unfold apply_plugins. simpl. now rewrite fold_left_app.
  - intros. unfold apply_revivers. simpl. now rewrite fold_left_app.
Qed.

(** ** [stringify] without user code always returns *)

Lemma for_loop_ok (i n : nat) (body : nat -> outcome (list jsstring)) :
  (forall j, i <= j < i + n -> exists l, body j = Ok l) ->
  exists l, for_loop i n body = Ok l.
Proof.
  revert i. induction n as [| n IH]; intros i H; simpl; [eauto |].
  destruct (H i) as [here ->]; [lia |]. simpl.
  destruct (IH (S i)) as [rest ->]; [intros j Hj; apply H; lia |].
  simpl. eauto.
Qed.

Lemma for_each_ok (keys : list jsstring)
  (body : jsstring -> outcome (list jsstring)) :
  (forall k, In k keys -> exists l, body k = Ok l) ->
  exists l, for_each keys body = Ok l.
Proof.
  induction keys as [| k keys IH]; intros H; simpl; [eauto |].
  destruct (H k) as [here ->]; [now left |]. simpl.
  destruct IH as [rest ->]; [intros k' Hk'; apply H; now right |].
  simpl. eauto.
Qed.

Lemma wrap_nonempty (open close : N) (gap mind : jsstring)
  (partial : list jsstring) :
  nonempty (wrap open close gap mind partial) = true.
Proof.
  unfold wrap. destruct partial; [reflexivity |].
  destruct (nonempty gap); reflexivity.
Qed.

Lemma quote_nonempty (s : jsstring) : nonempty (quote s) = true.
Proof. now rewrite quote_unfold. Qed.

Lemma String_Z_nonempty_b (z : Z) : nonempty (String_Z z) = true.
Proof.
  pose proof (String_Z_nonempty z). now destruct (String_Z z).
Qed.

Lemma get_object_cases (fields : list (jsstring * jsvalue)) (k : jsstring) :
  get (VObject fields) k = VUndefined
  \/ In (k, get (VObject fields) k) fields.
Proof.
  unfold get. destruct (assoc fields k) as [v |] eqn:E; [| now left].
  right. now apply assoc_in.
Qed.


Lemma str_returns (v : jsvalue) :
  safe_numbers v = true ->
  forall stack c path gap key holder,
    no_hooks c ->
    rep_truthy (rep c) && jstype_eqb (rep_typeof (rep c)) TObject = false ->
    own_lookup holder key = true ->
    get holder key = v ->
    depth v < stack ->
    exists r, str stack c path gap key holder = Ok r /\ str_result v r.
Proof.
  assert (leaf : forall t : jsstring,
             nonempty t = true ->
             forall w, (forall id, w <> VSymbol id) ->
             str_result w (Some t)).
  { intros t Ht w Hw. split.
    - split; [discriminate | intros [id E]; now apply Hw in E].
    - intros t' E. now injection E as <-. }
  induction v as [| | b | n | z | s | id | t | elems IH | fields IH]
    using jsvalue_ind;
    intros Hn stack c path gap key holder Hc Hr Hl Hget Hs;
    (destruct stack as [| stack]; [lia |]);
    simpl str; rewrite Hl; cbn [negb]; cbv iota;
    rewrite (transform_no_hooks c _ key holder Hc), Hget.
  - eexists. split; [reflexivity |].
    apply leaf; [apply quote_nonempty | discriminate].
  - eexists. split; [reflexivity |]. apply leaf; [reflexivity | discriminate].
  - eexists. split; [reflexivity |].
    apply leaf; [now destruct b | discriminate].
  - destruct n as [| | | z]; try (simpl in Hn; rewrite Hn);
      (eexists; split; [reflexivity |]);
      (apply leaf; [| discriminate]);
      first [apply quote_nonempty | apply String_Z_nonempty_b].
  - eexists. split; [reflexivity |].
    apply leaf; [apply quote_nonempty | discriminate].
  - eexists. split; [reflexivity |].
    apply leaf; [apply quote_nonempty | discriminate].
  - eexists. split; [reflexivity |]. split.
    + split; [eauto | reflexivity].
    + discriminate.
  - eexists. split; [reflexivity |].
    apply leaf; [apply quote_nonempty | discriminate].
  - (* an array *)
    simpl in Hs, Hn. rewrite forallb_forall in Hn.
    rewrite Forall_forall in IH.
    destruct (for_loop_ok 0 (length elems)
                (fun i =>
                   v <- str stack c (path ++ [key]) (gap ++ indent c)
                          (String_N (N.of_nat i)) (VArray elems) ;;
                   Ok [or_null v])) as [partial ->].
    { intros j Hj. simpl in Hj.
      assert (Hin : In (nth j elems VUndefined) elems)
        by (apply nth_In; lia).
      destruct (IH _ Hin (Hn _ Hin) stack c (path ++ [key])
                  (gap ++ indent c)
                  (String_N (N.of_nat j)) (VArray elems) Hc Hr)
        as [r [-> _]].
      - apply own_lookup_index. lia.
      - apply get_array_index. lia.
      - pose proof (depth_element _ _ Hin). lia.
      - simpl. eauto. }
    simpl. eexists. split; [reflexivity |].
    apply leaf; [apply wrap_nonempty | discriminate].
  - (* an object *)
    simpl in Hs, Hn. rewrite forallb_forall in Hn.
    rewrite Forall_forall in IH. rewrite Hr.
    destruct (for_each_ok (map fst fields)
                (fun k =>
                   v <- str stack c (path ++ [key]) (gap ++ indent c) k
                          (VObject fields) ;;
                   match v with
                   | Some t =>
                       if nonempty t
                       then Ok [member (gap ++ indent c) k t]
                       else Ok []
                   | None => Ok []
                   end)) as [partial ->].
    { intros k Hkin.
      pose proof (own_lookup_field fields k Hkin) as Hown.
      assert (Hk : exists r,
                 str stack c (path ++ [key]) (gap ++ indent c) k
                   (VObject fields) = Ok r).
      { destruct (get_object_cases fields k) as [Hu | Hin].
        - destruct stack as [| stack]; [lia |].
          simpl str. rewrite Hown. cbn [negb]. cbv iota.
          rewrite (transform_no_hooks c _ k (VObject fields) Hc), Hu.
          eauto.
        - destruct (IH _ Hin (Hn _ Hin) stack c (path ++ [key])
                      (gap ++ indent c) k
                      (VObject fields) Hc Hr Hown eq_refl) as [r [Er _]].
          + pose proof (depth_field _ _ Hin). simpl in *. lia.
          + eauto. }
      destruct Hk as [r ->]. simpl.
      destruct r as [t |]; [destruct (nonempty t) |]; eauto. }
    simpl. eexists. split; [reflexivity |].
    apply leaf; [apply wrap_nonempty | discriminate].
Qed.

Lemma small_space_indent (space : jsvalue) :
  small_space space = true -> indent_of space = Ok (Native.gap_of space).
Proof.
  destruct space as [| | b | [| | | z] | z | s | id | t | l | l];
    cbn [small_space indent_of Native.gap_of];
    try reflexivity; try discriminate.
  - intros H. apply Z.leb_le in H. now rewrite Z.min_r.
  - intros H. apply Nat.leb_le in H. now rewrite firstn_all2.
Qed.

(** X4.  For the values of the embedding (the absent value, [null],
    booleans, numbers whose finite ones are safe integers, big integers,
    strings, symbols, dates, arrays and plain objects; no functions), without
    plugins and replacer, with a call budget above the nesting depth of the
    value and a [space] that is absent, an integer of at most ten or a
    string of at most ten units, [stringify] does not throw: it returns
    [undefined] when the value is a symbol and a non-empty text for every
    other such value. *)
Theorem stringify_returns (v : jsvalue) (stack : nat) (space : jsvalue) :
  safe_numbers v = true ->
  depth v < stack ->
  small_space space = true ->
  exists r,
    stringify create stack v (RValue VUndefined) space = Ok r
    /\ ((exists id, v = VSymbol id) -> r = None)
    /\ ((forall id, v <> VSymbol id) ->
        exists t, r = Some t /\ nonempty t = true).
Proof.
  intros Hn Hs Hi. unfold stringify.
  rewrite (small_space_indent space Hi). simpl.
  destruct (str_returns v Hn stack
              {| indent := Native.gap_of space; rep := RValue VUndefined;
                 plugins := [] |}
              [] [] [] (VObject [([], v)]))
    as [r [Hr [Hnone Hsome]]]; try reflexivity; try exact Hs.
  { split; [reflexivity | exact I]. }
  exists r. split; [exact Hr |]. split.
  - apply Hnone.
  - intros Hv. destruct r as [t |].
    + exists t. split; [reflexivity | now apply Hsome].
    + exfalso. destruct (proj1 Hnone eq_refl) as [id E]. now apply (Hv id).
Qed.

Lemma stringify_returns_witness :
  exists r,
    stringify create 2 (VArray [VSymbol 3; VUndefined]) (RValue VUndefined)
      (VNumber (Finite 2)) = Ok r
    /\ ((exists id, VArray [VSymbol 3; VUndefined] = VSymbol id) -> r = None)
    /\ ((forall id, VArray [VSymbol 3; VUndefined] <> VSymbol id) ->
        exists t, r = Some t /\ nonempty t = true).
Proof.
  apply (stringify_returns (VArray [VSymbol 3; VUndefined]) 2
           (VNumber (Finite 2)));
    [reflexivity | simpl; lia | reflexivity].
Defined.

(** ** The engine and the host's [JSON.stringify] *)









Lemma String_Z_unescaped (z : Z) :
  existsb rx_escapable (String_Z z) = false.
Proof.
  assert (Hd : forall c, is_digit c = true -> rx_escapable c = false).
  { intros c Hc. apply is_digit_spec in Hc. apply rx_escapable_false.
    unfold escapable. lia. }
  destruct (String_Z_cons z) as [c [t [-> [Hc Ht]]]].
  simpl. apply orb_false_iff. split.
  - destruct Hc as [-> | Hc]; [reflexivity | now apply Hd].
  - apply not_true_is_false. intros H. apply existsb_exists in H.
    destruct H as [d [Hin Hd']]. rewrite forallb_forall in Ht.
    rewrite (Hd d (Ht d Hin)) in Hd'. discriminate.
Qed.

(** X6.  With a [space] that is absent, an integer of at most ten or a
    string of at most ten units, the values the engine adds to the host
    format are written as quoted tokens: [undefined] as [data:undefined,], where the host returns
    [undefined]; the numbers [NaN], [Infinity] and [-Infinity] as
    [data:number,] followed by their name, where the host writes [null]; a
    bigint as [data:bigint,] followed by its decimal numeral, where the host
    throws a TypeError. *)
Theorem extended_values_differ_from_native (space : jsvalue) (z : Z) :
  small_space space = true ->
  (stringify create 1 VUndefined (RValue VUndefined) space
   = Ok (Some ([c_dquote] ++ lit "data:undefined," ++ [c_dquote]))
   /\ Native.stringify VUndefined space = Ok None)
  /\ (stringify create 1 (VNumber NaN) (RValue VUndefined) space
      = Ok (Some ([c_dquote] ++ lit "data:number,NaN" ++ [c_dquote]))
      /\ Native.stringify (VNumber NaN) space = Ok (Some (lit "null")))
  /\ (stringify create 1 (VNumber Infinity) (RValue VUndefined) space
      = Ok (Some ([c_dquote] ++ lit "data:number,Infinity" ++ [c_dquote]))
      /\ Native.stringify (VNumber Infinity) space
         = Ok (Some (lit "null")))
  /\ (stringify create 1 (VNumber NegInfinity) (RValue VUndefined) space
      = Ok (Some ([c_dquote] ++ lit "data:number,-Infinity" ++ [c_dquote]))
      /\ Native.stringify (VNumber NegInfinity) space
         = Ok (Some (lit "null")))
  /\ (stringify create 1 (VBigInt z) (RValue VUndefined) space
      = Ok (Some ([c_dquote] ++ lit "data:bigint," ++ String_Z z
                  ++ [c_dquote]))
      /\ Native.stringify (VBigInt z) space = Abort TypeError).
Proof.
  intros Hi. unfold stringify, Native.stringify.
  rewrite (small_space_indent space Hi).
  repeat split; try reflexivity.
  simpl. do 2 f_equal. unfold toDataURL, quote.
  assert (E : existsb rx_escapable
                (lit "data:" ++ lit "bigint" ++ [c_comma] ++ String_Z z)
              = false).
  { rewrite !existsb_app, String_Z_unescaped. reflexivity. }
  rewrite E. reflexivity.
Qed.

Lemma extended_values_differ_from_native_witness :
  (stringify create 1 VUndefined (RValue VUndefined) (VNumber (Finite 2))
   = Ok (Some ([c_dquote] ++ lit "data:undefined," ++ [c_dquote]))
   /\ Native.stringify VUndefined (VNumber (Finite 2)) = Ok None)
  /\ (stringify create 1 (VNumber NaN) (RValue VUndefined)
        (VNumber (Finite 2))
      = Ok (Some ([c_dquote] ++ lit "data:number,NaN" ++ [c_dquote]))
      /\ Native.stringify (VNumber NaN) (VNumber (Finite 2))
         = Ok (Some (lit "null")))
  /\ (stringify create 1 (VNumber Infinity) (RValue VUndefined)
        (VNumber (Finite 2))
      = Ok (Some ([c_dquote] ++ lit "data:number,Infinity" ++ [c_dquote]))
      /\ Native.stringify (VNumber Infinity) (VNumber (Finite 2))
         = Ok (Some (lit "null")))
  /\ (stringify create 1 (VNumber NegInfinity) (RValue VUndefined)
        (VNumber (Finite 2))
      = Ok (Some ([c_dquote] ++ lit "data:number,-Infinity" ++ [c_dquote]))
      /\ Native.stringify (VNumber NegInfinity) (VNumber (Finite 2))
         = Ok (Some (lit "null")))
  /\ (stringify create 1 (VBigInt (-12)) (RValue VUndefined)
        (VNumber (Finite 2))
      = Ok (Some ([c_dquote] ++ lit "data:bigint," ++ String_Z (-12)
                  ++ [c_dquote]))
      /\ Native.stringify (VBigInt (-12)) (VNumber (Finite 2))
         = Abort TypeError).
Proof.
  apply (extended_values_differ_from_native (VNumber (Finite 2)) (-12)).
  reflexivity.
Defined.

(** ** Replacers without effect *)

(** X26.  A replacer function that returns the value it is given, and a replacer
    that is falsy ([null], [undefined], [false], [0], the empty string),
    change nothing: [stringify] returns what it returns without
    replacer. *)
Theorem replacer_without_effect (this : JSSerialization) (stack : nat)
  (v : jsvalue) (r : replacer_arg) (space : jsvalue) :
  match r with
  | RFunction f =>
      forall holder key value raw path, f holder key value raw path = value
  | RValue x => truthy x = false
  end ->
  stringify this stack v r space
  = stringify this stack v (RValue VUndefined) space.
Proof.
  intros H. unfold stringify.
  destruct (indent_of space) as [ind |]; [| reflexivity].
  simpl bind.
  assert (Hv : invalid_replacer r = false).
  { unfold invalid_replacer. destruct r as [f | x]; simpl; [reflexivity |].
    now rewrite H. }
  rewrite Hv.
  change (invalid_replacer (RValue VUndefined)) with false. cbv iota.
  apply str_transform_ext; [reflexivity | |].
  - right. split; [| reflexivity]. simpl.
    destruct r as [f | x]; simpl; [reflexivity | now rewrite H].
  - intros path key holder. unfold transform. simpl.
    destruct r as [f | x]; [apply H | reflexivity].
Qed.

Lemma replacer_without_effect_witness :
  stringify create 2 (VArray [VNull]) (RValue (VBoolean false)) VUndefined
  = stringify create 2 (VArray [VNull]) (RValue VUndefined) VUndefined.
Proof.
  apply (replacer_without_effect create 2 (VArray [VNull])
           (RValue (VBoolean false)) VUndefined).
  reflexivity.
Defined.

(** ** The strings the decoder leaves alone *)

(** X21.  Without reviver and plugins, the callback of [parse] returns a string
    as it is exactly when the string is no recognized token: it does not
    match the pattern, or its type is none of the four, or its type is
    [number] and its payload none of the three names. *)
Theorem string_survives_iff (key s : jsstring) :
  revive None [] key (VString s) = Ok (VString s)
  <-> recognized_token s = false.
Proof.
  split; [| apply revive_plain_string].
  intros H. destruct (recognized_token s) eqn:R; [| reflexivity].
  exfalso. revert H R.
  unfold revive, recognized_token, decode_tag.
  destruct (token_shape s); [| discriminate 2].
  cbv zeta. rewrite andb_true_l.
  destruct (is_type (url_type (parseDataURL s)) "undefined");
    [discriminate 1 |].
  destruct (is_type (url_type (parseDataURL s)) "number") eqn:En.
  { destruct (is_type (url_value (parseDataURL s)) "NaN");
      [discriminate 1 |].
    destruct (is_type (url_value (parseDataURL s)) "Infinity");
      [discriminate 1 |].
    destruct (is_type (url_value (parseDataURL s)) "-Infinity");
      [discriminate 1 |].
    unfold is_type in En.
    destruct (url_type (parseDataURL s)) as [ty |]; [| discriminate En].
    apply jsstring_eqb_eq in En. subst ty.
    intros _. vm_compute. discriminate. }
  destruct (is_type (url_type (parseDataURL s)) "bigint").
  { destruct (BigInt (url_value (parseDataURL s))) as [x |] eqn:E;
      [| discriminate 1].
    apply BigInt_result in E. destruct E as [z ->]. discriminate 1. }
  destruct (is_type (url_type (parseDataURL s)) "date").
  { destruct (Date_of (url_value (parseDataURL s))) as [x |] eqn:E;
      [| discriminate 1].
    apply Date_of_result in E. destruct E as [t ->]. discriminate 1. }
  discriminate 2.
Qed.

(** ** Parts that [parseDataURL] does not find *)

Lemma split_second (sep : N) (s : jsstring) :
  nth_error (split sep s) 1 = None
  <-> forallb (fun c => negb (c =? sep)%N) s = true.
Proof.
  induction s as [| c s IH]; simpl; [tauto |].
  destruct (c =? sep)%N; simpl.
  - pose proof (split_cons_nonempty sep s) as Hne.
    destruct (split sep s); [contradiction |].
    split; discriminate.
  - rewrite <- IH.
    pose proof (split_cons_nonempty sep s) as Hne.
    destruct (split sep s) as [| h t]; [contradiction |].
    simpl. tauto.
Qed.

(** X14.  The value [parseDataURL] returns is [undefined] exactly when the text
    holds no comma, and the type is [undefined] exactly when the text before
    the first comma holds no colon. *)
Theorem parseDataURL_absent_parts (text : jsstring) :
  (url_value (parseDataURL text) = None
   <-> forallb not_comma text = true)
  /\ (url_type (parseDataURL text) = None
      <-> forallb (fun c => negb (c =? c_colon)%N)
            (fst (span_not_comma text)) = true).
Proof.
  unfold parseDataURL. cbn [url_value url_type]. split.
  - apply split_second.
  - rewrite split_head. apply split_second.
Qed.

(** ** What the hooks of [parse] are given *)

(** X22.  For a [bigint] token the reviver is called with the key, the decoded big
    integer, the token string as raw value and the token's type and
    payload; each plugin reviver then gets the previous result with the
    same raw value and parts; a final [undefined] becomes the sentinel. *)
Theorem reviver_arguments (f : JSSerializationReviver)
  (ps : list JSSerializationPlugin) (key : jsstring) (z : Z) :
  let token := toDataURL (lit "bigint") (String_Z z) in
  let parsed := {| url_type := Some (lit "bigint");
                   url_value := Some (String_Z z) |} in
  let result :=
    apply_revivers ps key (VString token) (Some parsed)
      (f key (VBigInt z) (VString token) (Some parsed)) in
  revive (Some f) ps key (VString token)
  = Ok (match result with VUndefined => undefinedSymbol | _ => result end).
Proof.
  intros token parsed result. unfold revive.
  destruct (bigint_token (String_Z z) (String_Z_not_comma z)) as [Hs Hd].
  fold token in Hs, Hd. rewrite Hs, Hd, BigInt_String_Z. simpl bind.
  assert (Hp : parseDataURL token = parsed).
  { apply parseDataURL_token; [reflexivity | reflexivity |].
    apply String_Z_not_comma. }
  rewrite Hp. fold result. now destruct result.
Qed.

(** ** Reading back an indented text *)

Lemma skip_ws_blank (w s : jsstring) :
  blank w = true -> skip_ws (w ++ s) = skip_ws s.
Proof.
  unfold blank. induction w as [| c w IH]; simpl; [reflexivity |].
  rewrite andb_true_iff. intros [Hc Hw]. now rewrite Hc, IH.
Qed.

Lemma parse_value_blank (fuel : nat) (w s : jsstring) :
  blank w = true -> parse_value fuel (w ++ s) = parse_value fuel s.
Proof.
  intros Hw. destruct fuel as [| fuel]; [reflexivity |].
  now rewrite !parse_value_S, (skip_ws_blank w s Hw).
Qed.

Lemma blank_app (a b : jsstring) :
  blank a = true -> blank b = true -> blank (a ++ b) = true.
Proof. unfold blank. intros Ha Hb. now rewrite forallb_app, Ha, Hb. Qed.

Lemma blank_lead (gap : jsstring) :
  blank gap = true -> blank (lead_of gap) = true.
Proof. unfold lead_of. intros H. now destruct (nonempty gap). Qed.

Lemma blank_close (gap mind : jsstring) :
  blank mind = true -> blank (close_of gap mind) = true.
Proof. unfold close_of. intros H. now destruct (nonempty gap). Qed.

(** The two shapes of [wrap] as one: white space before each member and
    before the closing bracket. *)
Lemma wrap_form (open close : N) (gap mind p : jsstring)
  (ps : list jsstring) :
  wrap open close gap mind (p :: ps)
  = [open] ++ lead_of gap
      ++ join ([c_comma] ++ lead_of gap) (p :: ps)
      ++ close_of gap mind ++ [close].
Proof.
  unfold wrap, lead_of, close_of. destruct (nonempty gap); [| reflexivity].
  simpl. rewrite <- ?app_assoc. reflexivity.
Qed.

Lemma member_form (gap k t : jsstring) :
  member gap k t = quote k ++ [c_colon] ++ colon_gap gap ++ t.
Proof. unfold member, colon_gap. now destruct (nonempty gap). Qed.

Lemma blank_colon_gap (gap : jsstring) : blank (colon_gap gap) = true.
Proof. unfold colon_gap. now destruct (nonempty gap). Qed.

Lemma skip_number_end (rest : jsstring) :
  delimited (skip_ws rest) -> number_end rest.
Proof.
  destruct rest as [| c r]; [intros _; exact I |].
  simpl skip_ws. destruct (is_json_ws c) eqn:E.
  - intros _. unfold is_json_ws in E.
    repeat (apply orb_true_iff in E; destruct E as [E | E]);
      apply N.eqb_eq in E; subst c; simpl; repeat split; discriminate.
  - apply delimited_number_end.
Qed.

Lemma leaf_reads_back (j : jsvalue) (fuel : nat) (rest : jsstring) :
  structure j = false -> is_document j = true -> 1 <= fuel ->
  number_end rest ->
  parse_value fuel (text_of j ++ rest) = Ok (j, rest).
Proof.
  intros Hs Hdoc Hf Hend.
  destruct fuel as [| fuel]; [lia |].
  destruct j as [| | b | [| | | z] | z | s | id | t | elems | fields];
    try discriminate.
  - rewrite parse_value_S. reflexivity.
  - rewrite parse_value_S. destruct b; reflexivity.
  - simpl in Hdoc. apply Z.leb_le in Hdoc.
    rewrite parse_value_S.
    destruct (text_head (VNumber (Finite z))) as [c [t [E Hc]]];
      [simpl; now apply Z.leb_le |].
    simpl text_of in E |- *. rewrite E. simpl app.
    rewrite (skip_ws_start c _ Hc).
    assert (Hn : parse_number (c :: t ++ rest)
                 = Ok (VNumber (Finite z), rest)).
    { change (c :: t ++ rest) with ((c :: t) ++ rest). rewrite <- E.
      now apply parse_number_String_Z. }
    destruct Hc as [Hc | Hc].
    + assert (c = 45%N).
      { unfold String_Z in E. destruct (z <? 0)%Z.
        - now injection E as <- _.
        - destruct (String_N_cons (Z.to_N z)) as [c' [t' [E' Hd]]].
          rewrite E' in E. injection E as -> _.
          apply is_digit_spec in Hd. simpl in Hc.
          repeat (destruct Hc as [Hc | Hc]; [subst c; lia |]).
          contradiction. }
      subst c. exact Hn.
    + destruct (digit_tests c Hc) as [H1 [H2 H3]].
      now rewrite H1, H2, H3, Hc, orb_true_r.
  - rewrite parse_value_S. simpl text_of.
    destruct (parse_string_quote s rest) as [body [-> Hbody]].
    change (skip_ws (c_dquote :: body)) with (c_dquote :: body).
    change ((c_dquote =? c_dquote)%N) with true. cbv iota.
    now rewrite Hbody.
Qed.

Lemma layout_head (ind cur : jsstring) (j : jsvalue) :
  is_document j = true ->
  exists c t, layout ind cur j = c :: t /\ value_start c.
Proof.
  intros Hdoc.
  destruct j as [| | b | n | z | s | id | t | elems | fields];
    try (exact (text_head _ Hdoc)).
  - simpl layout. unfold wrap.
    destruct (map _ elems); [| destruct (nonempty (cur ++ ind))];
      (eexists _, _; split; [reflexivity |]; left; simpl; tauto).
  - simpl layout. unfold wrap.
    destruct (map _ fields); [| destruct (nonempty (cur ++ ind))];
      (eexists _, _; split; [reflexivity |]; left; simpl; tauto).
Qed.

Lemma layout_nonempty (ind cur : jsstring) (j : jsvalue) :
  is_document j = true -> nonempty (layout ind cur j) = true.
Proof.
  intros H. destruct (layout_head ind cur j H) as [c [t [-> _]]].
  reflexivity.
Qed.

Lemma skip_ws_delimiter (c : N) (w r : jsstring) :
  blank w = true -> (c = 44 \/ c = 93 \/ c = 125)%N ->
  skip_ws (w ++ c :: r) = c :: r /\ delimited (skip_ws (w ++ c :: r)).
Proof.
  intros Hw Hc. rewrite (skip_ws_blank w _ Hw).
  assert (E : skip_ws (c :: r) = c :: r)
    by (destruct Hc as [-> | [-> | ->]]; reflexivity).
  rewrite E. split; [reflexivity | now apply delimited_cons].
Qed.

(** The elements of a non-empty array, up to the closing bracket. *)
Lemma parse_elements_layout (ind cur w1 w2 : jsstring) (e : jsvalue)
  (elems : list jsvalue) :
  blank cur = true -> blank w1 = true -> blank w2 = true ->
  Forall (reads_back_in ind) (e :: elems) ->
  forallb is_document (e :: elems) = true ->
  forall fuel rest lead,
    blank lead = true ->
    list_sum (map (fun e => S (size e)) (e :: elems)) <= fuel ->
    parse_elements fuel
      (lead ++ join ([c_comma] ++ w1) (map (layout ind cur) (e :: elems))
         ++ w2 ++ 93%N :: rest)
    = Ok (e :: elems, rest).
Proof.
  intros Hcur Hw1 Hw2.
  revert e. induction elems as [| e2 elems IH];
    intros e HF Hdoc fuel rest lead Hlead Hf;
    inversion HF as [| ? ? He HF']; subst;
    simpl in Hdoc; apply andb_true_iff in Hdoc; destruct Hdoc as [Hd Hdoc];
    (destruct fuel as [| fuel]; [simpl in Hf; lia |]);
    rewrite parse_elements_S.
  - cbn [map]. rewrite join_single.
    destruct (skip_ws_delimiter 93 w2 rest Hw2) as [E Hdel]; [tauto |].
    rewrite (He Hd fuel cur lead (w2 ++ 93%N :: rest))
      by (simpl in Hf; try lia; assumption).
    simpl bind. simpl snd. rewrite E. reflexivity.
  - cbn [map]. rewrite join_cons_app.
    set (more := w1 ++ join ([c_comma] ++ w1)
                         (layout ind cur e2 :: map (layout ind cur) elems)
                    ++ w2 ++ 93%N :: rest).
    change (([c_comma] ++ w1)
              ++ join ([c_comma] ++ w1)
                   (layout ind cur e2 :: map (layout ind cur) elems)
              ++ w2 ++ 93%N :: rest)
      with (c_comma :: more).
    assert (E : skip_ws (c_comma :: more) = c_comma :: more)
      by reflexivity.
    rewrite (He Hd fuel cur lead (c_comma :: more))
      by (simpl in Hf; try lia; try assumption;
          rewrite E; apply delimited_cons; tauto).
    simpl bind. simpl snd. simpl fst.
    unfold more.
    change (layout ind cur e2 :: map (layout ind cur) elems)
      with (map (layout ind cur) (e2 :: elems)).
    rewrite (IH e2 HF' Hdoc fuel rest w1 Hw1) by (simpl in Hf |- *; lia).
    reflexivity.
Qed.

(** The members of a non-empty object, up to the closing brace. *)
Lemma parse_members_layout (ind cur gap w1 w2 : jsstring)
  (kv : jsstring * jsvalue) (fields : list (jsstring * jsvalue)) :
  blank cur = true -> blank w1 = true -> blank w2 = true ->
  Forall (fun kv => reads_back_in ind (snd kv)) (kv :: fields) ->
  forallb (fun kv => is_document (snd kv)) (kv :: fields) = true ->
  forall acc fuel rest lead,
    blank lead = true ->
    NoDup (map fst (acc ++ kv :: fields)) ->
    list_sum (map (fun kv => S (size (snd kv))) (kv :: fields)) <= fuel ->
    parse_members fuel acc
      (lead
         ++ join ([c_comma] ++ w1)
              (map (fun kv => member gap (fst kv)
                                (layout ind cur (snd kv))) (kv :: fields))
         ++ w2 ++ 125%N :: rest)
    = Ok (acc ++ kv :: fields, rest).
Proof.
  intros Hcur Hw1 Hw2.
  assert (Hstep : forall fuel acc k e lead tail,
    reads_back_in ind e -> is_document e = true -> size e <= fuel ->
    ~ In k (map fst acc) -> blank lead = true ->
    delimited (skip_ws tail) ->
    parse_members (S fuel) acc
      (lead ++ member gap k (layout ind cur e) ++ tail)
    = match skip_ws tail with
      | [] => Abort SyntaxError
      | c :: r =>
          if (c =? c_comma)%N then parse_members fuel (acc ++ [(k, e)]) r
          else if (c =? 125)%N then Ok (acc ++ [(k, e)], r)
          else Abort SyntaxError
      end).
  { intros fuel acc k e lead tail He Hd Hf Hfresh Hlead Htail.
    rewrite parse_members_S, (skip_ws_blank lead _ Hlead).
    rewrite member_form, <- !app_assoc.
    destruct (parse_string_quote k
                ([c_colon] ++ colon_gap gap ++ layout ind cur e ++ tail))
      as [body [Ebody Hbody]].
    rewrite Ebody.
    change (skip_ws (c_dquote :: body)) with (c_dquote :: body).
    change (starts_with c_dquote (c_dquote :: body)) with true.
    cbv iota. simpl tl. rewrite Hbody. simpl bind. simpl snd. simpl fst.
    change (skip_ws ([c_colon] ++ ?x)) with (c_colon :: x).
    change (starts_with c_colon (c_colon :: ?x)) with true.
    cbv iota. simpl tl.
    rewrite (He Hd fuel cur (colon_gap gap) tail Hf Hcur
               (blank_colon_gap gap) Htail).
    simpl bind. simpl snd. simpl fst. cbv zeta.
    now rewrite (obj_set_fresh acc k e Hfresh). }
  revert kv. induction fields as [| kv2 fields IH];
    intros [k e] HF Hdoc acc fuel rest lead Hlead Hn Hf;
    inversion HF as [| ? ? He HF']; subst; simpl in He;
    simpl in Hdoc; apply andb_true_iff in Hdoc; destruct Hdoc as [Hd Hdoc];
    (destruct fuel as [| fuel]; [simpl in Hf; lia |]);
    assert (Hfresh : ~ In k (map fst acc))
      by (rewrite map_app in Hn; simpl in Hn;
          apply NoDup_remove_2 in Hn; intros Hin; apply Hn;
          apply in_or_app; now left).
  - cbn [map fst snd]. rewrite join_single.
    destruct (skip_ws_delimiter 125 w2 rest Hw2) as [E Hdel]; [tauto |].
    rewrite (Hstep fuel acc k e lead (w2 ++ 125%N :: rest) He Hd)
      by (simpl in Hf; try lia; assumption).
    rewrite E. reflexivity.
  - cbn [map fst snd]. rewrite join_cons_app.
    set (more := w1 ++ join ([c_comma] ++ w1)
                   (member gap (fst kv2) (layout ind cur (snd kv2))
                      :: map (fun kv => member gap (fst kv)
                                          (layout ind cur (snd kv))) fields)
                   ++ w2 ++ 125%N :: rest).
    change (([c_comma] ++ w1)
              ++ join ([c_comma] ++ w1)
                   (member gap (fst kv2) (layout ind cur (snd kv2))
                      :: map (fun kv => member gap (fst kv)
                                          (layout ind cur (snd kv))) fields)
              ++ w2 ++ 125%N :: rest)
      with (c_comma :: more).
    assert (E : skip_ws (c_comma :: more) = c_comma :: more)
      by reflexivity.
    rewrite (Hstep fuel acc k e lead (c_comma :: more) He Hd)
      by (simpl in Hf; try lia; try assumption;
          rewrite E; apply delimited_cons; tauto).
    rewrite E. change ((c_comma =? c_comma)%N) with true. cbv iota.
    pose proof (IH kv2 HF' Hdoc (acc ++ [(k, e)]) fuel rest w1 Hw1) as IH2.
    cbn [map] in IH2. unfold more. rewrite IH2.
    + now rewrite <- app_assoc.
    + now rewrite <- app_assoc.
    + simpl in Hf |- *. lia.
Qed.

Lemma layout_reads_back (ind : jsstring) (j : jsvalue) :
  blank ind = true -> reads_back_in ind j.
Proof.
  intros Hind.
  induction j as [| | b | n | z | s | id | t | elems IH | fields IH]
    using jsvalue_ind; intros Hdoc fuel cur lead rest Hf Hcur Hlead Htail;
    try discriminate;
    rewrite (parse_value_blank fuel lead _ Hlead);
    try (apply leaf_reads_back;
         [reflexivity | exact Hdoc | simpl in Hf; lia
         | now apply skip_number_end]).
  - (* an array *)
    destruct fuel as [| fuel]; [simpl in Hf; lia |].
    rewrite parse_value_S. simpl layout. simpl in Hdoc.
    destruct elems as [| e elems]; [reflexivity |].
    cbn [map]. rewrite wrap_form, <- !app_assoc.
    change (skip_ws ([91%N] ++ ?x)) with (91%N :: x).
    change ((91 =? c_dquote)%N) with false.
    change ((91 =? 91)%N) with true. cbv iota.
    assert (Hg : blank (cur ++ ind) = true) by now apply blank_app.
    pose proof (blank_lead (cur ++ ind) Hg) as Hw1.
    pose proof (blank_close (cur ++ ind) cur Hcur) as Hw2.
    change (layout ind (cur ++ ind) e :: map (layout ind (cur ++ ind)) elems)
      with (map (layout ind (cur ++ ind)) (e :: elems)).
    assert (Hhead : exists c t,
               join ([c_comma] ++ lead_of (cur ++ ind))
                 (map (layout ind (cur ++ ind)) (e :: elems))
                 ++ close_of (cur ++ ind) cur ++ [93%N] ++ rest
               = c :: t /\ value_start c).
    { destruct (layout_head ind (cur ++ ind) e) as [c [t [E Hc]]];
        [now apply andb_true_iff in Hdoc |].
      cbn [map]. destruct elems as [| e2 elems].
      - rewrite join_single, E. eexists _, _. split; [reflexivity | exact Hc].
      - cbn [map]. rewrite join_cons_app, E.
        eexists _, _. split; [reflexivity | exact Hc]. }
    destruct Hhead as [c [t [E Hc]]].
    rewrite (skip_ws_blank _ _ Hw1), E, (skip_ws_start c t Hc).
    unfold starts_with.
    rewrite (proj1 (proj2 (value_start_tests c Hc))). rewrite <- E.
    change ([93%N] ++ rest) with (93%N :: rest).
    rewrite (parse_elements_layout ind (cur ++ ind) _ _ e elems Hg Hw1 Hw2
               IH Hdoc fuel rest _ Hw1)
      by (simpl in Hf |- *; lia).
    reflexivity.
  - (* an object *)
    destruct fuel as [| fuel]; [simpl in Hf; lia |].
    rewrite parse_value_S. simpl layout. simpl in Hdoc.
    apply andb_true_iff in Hdoc. destruct Hdoc as [Hn Hdoc].
    apply nodupb_spec in Hn.
    destruct fields as [| kv fields]; [reflexivity |].
    cbn [map]. rewrite wrap_form, <- !app_assoc.
    change (skip_ws ([123%N] ++ ?x)) with (123%N :: x).
    change ((123 =? c_dquote)%N) with false.
    change ((123 =? 91)%N) with false.
    change ((123 =? 123)%N) with true. cbv iota.
    assert (Hg : blank (cur ++ ind) = true) by now apply blank_app.
    pose proof (blank_lead (cur ++ ind) Hg) as Hw1.
    pose proof (blank_close (cur ++ ind) cur Hcur) as Hw2.
    change (member (cur ++ ind) (fst kv) (layout ind (cur ++ ind) (snd kv))
              :: map (fun kv => member (cur ++ ind) (fst kv)
                                  (layout ind (cur ++ ind) (snd kv))) fields)
      with (map (fun kv => member (cur ++ ind) (fst kv)
                             (layout ind (cur ++ ind) (snd kv)))
              (kv :: fields)).
    assert (Hhead : exists t,
               join ([c_comma] ++ lead_of (cur ++ ind))
                 (map (fun kv => member (cur ++ ind) (fst kv)
                                   (layout ind (cur ++ ind) (snd kv)))
                    (kv :: fields))
                 ++ close_of (cur ++ ind) cur ++ [125%N] ++ rest
               = c_dquote :: t).
    { cbn [map]. rewrite member_form, quote_unfold.
      destruct fields as [| kv2 fields].
      - rewrite join_single. eexists. reflexivity.
      - cbn [map]. rewrite join_cons_app. eexists. reflexivity. }
    destruct Hhead as [t E].
    rewrite (skip_ws_blank _ _ Hw1), E.
    change (skip_ws (c_dquote :: t)) with (c_dquote :: t).
    change (starts_with 125 (c_dquote :: t)) with false. cbv iota.
    rewrite <- E.
    change ([125%N] ++ rest) with (125%N :: rest).
    rewrite (parse_members_layout ind (cur ++ ind) (cur ++ ind) _ _ kv fields
               Hg Hw1 Hw2 IH Hdoc [] fuel rest _ Hw1 Hn)
      by (simpl in Hf |- *; lia).
    reflexivity.
Qed.


(** ** The fuel of [JSON.parse] suffices for an indented text *)

Lemma join_length_ge (sep : jsstring) (texts : list jsstring) :
  texts <> [] -> sep <> [] ->
  list_sum (map (fun t => S (length t)) texts)
  <= S (length (join sep texts)).
Proof.
  intros Ht Hsep. induction texts as [| t texts IH]; [congruence |].
  destruct texts as [| t2 texts].
  - rewrite join_single. simpl. lia.
  - rewrite join_cons, !length_app.
    specialize (IH ltac:(discriminate)).
    assert (1 <= length sep) by (destruct sep; [congruence | simpl; lia]).
    cbn [map length] in *. unfold list_sum in *. cbn [fold_right] in *.
    lia.
Qed.

Lemma size_layout (ind : jsstring) (j : jsvalue) :
  is_document j = true ->
  forall cur, size j <= length (layout ind cur j).
Proof.
  induction j as [| | b | n | z | s | id | t | elems IH | fields IH]
    using jsvalue_ind; intros Hdoc cur; try discriminate;
    try (exact (size_text _ Hdoc)).
  - simpl layout. simpl in Hdoc. rewrite forallb_forall in Hdoc.
    destruct elems as [| e elems]; [simpl; lia |].
    cbn [map]. rewrite wrap_form, !length_app. cbn [length].
    change (layout ind (cur ++ ind) e :: map (layout ind (cur ++ ind)) elems)
      with (map (layout ind (cur ++ ind)) (e :: elems)).
    pose proof (join_length_ge ([c_comma] ++ lead_of (cur ++ ind))
                  (map (layout ind (cur ++ ind)) (e :: elems))
                  ltac:(discriminate) ltac:(discriminate)) as Hj.
    rewrite map_map in Hj.
    assert (Hs : list_sum (map (fun e => S (size e)) (e :: elems))
                 <= list_sum
                      (map (fun x => S (length (layout ind (cur ++ ind) x)))
                         (e :: elems))).
    { apply list_sum_le. rewrite Forall_forall in IH |- *.
      intros x Hx. apply le_n_S. apply (IH x Hx). now apply Hdoc. }
    cbn [size]. lia.
  - simpl layout. simpl in Hdoc. apply andb_true_iff in Hdoc.
    destruct Hdoc as [_ Hdoc]. rewrite forallb_forall in Hdoc.
    destruct fields as [| kv fields]; [simpl; lia |].
    cbn [map]. rewrite wrap_form, !length_app. cbn [length].
    change (member (cur ++ ind) (fst kv) (layout ind (cur ++ ind) (snd kv))
              :: map (fun kv => member (cur ++ ind) (fst kv)
                                  (layout ind (cur ++ ind) (snd kv))) fields)
      with (map (fun kv => member (cur ++ ind) (fst kv)
                             (layout ind (cur ++ ind) (snd kv)))
              (kv :: fields)).
    pose proof (join_length_ge ([c_comma] ++ lead_of (cur ++ ind))
                  (map (fun kv => member (cur ++ ind) (fst kv)
                                    (layout ind (cur ++ ind) (snd kv)))
                     (kv :: fields))
                  ltac:(discriminate) ltac:(discriminate)) as Hj.
    rewrite map_map in Hj.
    assert (Hs : list_sum (map (fun kv => S (size (snd kv))) (kv :: fields))
                 <= list_sum
                      (map (fun x =>
                              S (length (member (cur ++ ind) (fst x)
                                           (layout ind (cur ++ ind)
                                              (snd x)))))
                         (kv :: fields))).
    { apply list_sum_le. rewrite Forall_forall in IH |- *.
      intros x Hx. apply le_n_S. rewrite member_form, !length_app.
      pose proof (IH x Hx (Hdoc x Hx) (cur ++ ind)). lia. }
    cbn [size]. lia.
Qed.

(** The indented text of a document denotes the document. *)
Lemma JSON_parse_text_layout (ind : jsstring) (j : jsvalue) :
  blank ind = true -> is_document j = true ->
  JSON_parse_text (layout ind [] j) = Ok j.
Proof.
  intros Hind Hdoc. unfold JSON_parse_text.
  pose proof (layout_reads_back ind j Hind Hdoc
                (S (length (layout ind [] j))) [] [] []) as H.
  cbn [app] in H. rewrite app_nil_r in H. rewrite H.
  - reflexivity.
  - pose proof (size_layout ind j Hdoc []). lia.
  - reflexivity.
  - reflexivity.
  - now left.
Qed.

(** ** The text [str] writes with an indent *)

Lemma str_layout (v : jsvalue) :
  portable v = true -> distinct_keys v = true ->
  forall stack c path cur key holder,
    no_hooks c ->
    rep_truthy (rep c) && jstype_eqb (rep_typeof (rep c)) TObject = false ->
    own_lookup holder key = true ->
    get holder key = v ->
    depth v < stack ->
    str stack c path cur key holder
    = Ok (Some (layout (indent c) cur (json_of v))).
Proof.
  induction v as [| | b | n | z | s | id | t | elems IH | fields IH]
    using jsvalue_ind;
    intros Hp Hd stack c path cur key holder Hc Hr Hl Hget Hs;
    (destruct stack as [| stack]; [lia |]);
    simpl str; rewrite Hl; cbn [negb]; cbv iota;
    rewrite (transform_no_hooks c _ key holder Hc), Hget;
    try reflexivity; try discriminate.
  - destruct n; try reflexivity. simpl in Hp. now rewrite Hp.
  - (* an array *)
    simpl in Hp, Hd, Hs. rewrite forallb_forall in Hp, Hd.
    rewrite Forall_forall in IH.
    rewrite (for_loop_pure
               (fun i => layout (indent c) (cur ++ indent c)
                           (json_of (nth i elems VUndefined)))).
    + pose proof (map_seq_nth
                    (fun e => layout (indent c) (cur ++ indent c) (json_of e))
                    [] elems) as E.
      simpl app in E. simpl length in E. rewrite E.
      simpl. now rewrite map_map.
    + intros j Hj. simpl in Hj.
      assert (Hin : In (nth j elems VUndefined) elems)
        by (apply nth_In; lia).
      rewrite (IH _ Hin (Hp _ Hin) (Hd _ Hin) stack c (path ++ [key])
                 (cur ++ indent c) (String_N (N.of_nat j)) (VArray elems)
                 Hc Hr).
      * simpl. unfold or_null.
        now rewrite (layout_nonempty _ _ _
                       (json_of_document _ (Hp _ Hin) (Hd _ Hin))).
      * apply own_lookup_index. lia.
      * apply get_array_index. lia.
      * pose proof (depth_element _ _ Hin). lia.
  - (* an object *)
    rewrite Hr.
    simpl in Hp, Hd, Hs. apply andb_true_iff in Hd. destruct Hd as [Hn Hd].
    apply nodupb_spec in Hn.
    rewrite forallb_forall in Hp, Hd. rewrite Forall_forall in IH.
    rewrite (for_each_pure
               (fun k => member (cur ++ indent c) k
                           (layout (indent c) (cur ++ indent c)
                              (json_of (get (VObject fields) k))))).
    + simpl. do 3 f_equal. rewrite !map_map.
      apply map_ext_in. intros [k e] Hin. simpl. do 3 f_equal.
      unfold get. now rewrite (assoc_nodup fields k e Hn Hin).
    + intros k Hk. apply in_map_iff in Hk. destruct Hk as [[k' e] [Ek Hin]].
      simpl in Ek. subst k'.
      assert (Hg : get (VObject fields) k = e)
        by (unfold get; now rewrite (assoc_nodup fields k e Hn Hin)).
      rewrite (IH _ Hin (Hp _ Hin) (Hd _ Hin) stack c (path ++ [key])
                 (cur ++ indent c) k (VObject fields) Hc Hr
                 (own_lookup_field fields k
                    (in_map fst fields (k, e) Hin)) Hg).
      * simpl. rewrite Hg.
        pose proof (layout_nonempty (indent c) (cur ++ indent c) _
                      (json_of_document _ (Hp _ Hin) (Hd _ Hin))) as Hne.
        simpl in Hne. now rewrite Hne.
      * pose proof (depth_field _ _ Hin). simpl in *. lia.
Qed.

(** X1.  The round trip holds with any indent made of white space, and so with
    every numeric [space]: for a value of the round trip that is neither the
    absent value nor [null] itself, [parse] returns the value from the
    indented text [stringify] writes. *)
Theorem round_trip_indented (v : jsvalue) (stack : nat) (space : jsvalue)
  (ind : jsstring) :
  portable v = true ->
  distinct_keys v = true ->
  v <> VNull -> v <> VUndefined ->
  depth v < stack ->
  indent_of space = Ok ind ->
  blank ind = true ->
  exists text,
    stringify create stack v (RValue VUndefined) space = Ok (Some text)
    /\ parse create text None = Ok v.
Proof.
  intros Hp Hd Hn Hu Hs Hi Hb. exists (layout ind [] (json_of v)). split.
  - unfold stringify. rewrite Hi. simpl.
    apply (str_layout v Hp Hd stack
             {| indent := ind; rep := RValue VUndefined; plugins := [] |});
      try reflexivity; [| exact Hs].
    split; [reflexivity | exact I].
  - unfold parse. simpl this_plugins.
    rewrite (JSON_parse_text_layout ind _ Hb (json_of_document v Hp Hd)).
    simpl bind.
    rewrite (internalize_json_of v Hp []). simpl bind.
    rewrite sweep_clean.
    + now rewrite clean_mark.
    + now rewrite mark_distinct.
    + now apply mark_not_null.
    + apply mark_not_undefined.
Qed.

Lemma round_trip_indented_witness :
  exists text,
    stringify create 3
      (VObject [(lit "a", VArray [VUndefined; VBigInt 12])])
      (RValue VUndefined) (VNumber (Finite 2)) = Ok (Some text)
    /\ parse create text None
       = Ok (VObject [(lit "a", VArray [VUndefined; VBigInt 12])]).
Proof.
  apply (round_trip_indented
           (VObject [(lit "a", VArray [VUndefined; VBigInt 12])]) 3
           (VNumber (Finite 2)) [32; 32]%N);
    try reflexivity; try discriminate.
  simpl. lia.
Defined.


(** * The claims that rest on the whole development *)

(** ** Tokens whose type holds a colon *)

Lemma split_first (sep : N) (s : jsstring) :
  nth_error (split sep s) 0 = Some (until sep s).
Proof.
  induction s as [| c s IH]; [reflexivity |].
  simpl. destruct (c =? sep)%N; [reflexivity |].
  destruct (split sep s) as [| h t]; [discriminate IH |].
  simpl in IH. injection IH as ->. reflexivity.
Qed.

(** The type [parseDataURL] returns for a token is the type component up to
    its first colon. *)
Lemma token_type_head (type value : jsstring) :
  forallb not_comma type = true ->
  url_type (parseDataURL (toDataURL type value))
  = Some (until c_colon type).
Proof.
  intros Ht. unfold parseDataURL, toDataURL. cbn [url_type].
  rewrite app_assoc.
  change ([c_comma] ++ value) with (c_comma :: value).
  rewrite (split_app_sep (lit "data:" ++ type) value)
    by (rewrite forallb_app; now rewrite Ht).
  cbn [nth].
  change (lit "data:" ++ type) with (lit "data" ++ c_colon :: type).
  rewrite (split_at_sep c_colon (lit "data") type eq_refl).
  cbn [nth_error]. apply split_first.
Qed.

Lemma token_value (type value : jsstring) :
  forallb not_comma type = true ->
  forallb not_comma value = true ->
  url_value (parseDataURL (toDataURL type value)) = Some value.
Proof.
  intros Ht Hv. unfold parseDataURL, toDataURL. cbn [url_value].
  rewrite app_assoc.
  change ([c_comma] ++ value) with (c_comma :: value).
  rewrite (split_app_sep (lit "data:" ++ type) value)
    by (rewrite forallb_app; now rewrite Ht).
  now rewrite (split_no_sep value Hv).
Qed.

Lemma strip_prefix_app (p s r : jsstring) :
  strip_prefix p s = Some r -> s = p ++ r.
Proof.
  revert s. induction p as [| a p IH]; intros s; simpl.
  - intros H. now injection H as ->.
  - destruct s as [| b s]; [discriminate |].
    destruct (N.eqb_spec a b) as [-> | _]; [| discriminate].
    intros H. now rewrite (IH s H).
Qed.

(** The strings of the token shape are the tokens [toDataURL] builds from a
    non-empty type and a payload, neither holding a comma. *)
Lemma token_shape_parts (s : jsstring) :
  token_shape s = true ->
  exists type value,
    s = toDataURL type value
    /\ nonempty type = true
    /\ forallb not_comma type = true
    /\ forallb not_comma value = true.
Proof.
  unfold token_shape.
  destruct (strip_prefix (lit "data:") s) as [r |] eqn:Ep; [| discriminate].
  apply strip_prefix_app in Ep. subst s.
  pose proof (span_not_comma_app r) as Happ.
  pose proof (span_not_comma_fst r) as Hfst.
  pose proof (span_not_comma_snd r) as Hsnd.
  destruct (span_not_comma r) as [type rest]. simpl in *.
  intros H. apply andb_true_iff in H. destruct H as [Hne Hrest].
  destruct Hsnd as [-> | [payload ->]]; [discriminate |].
  exists type, payload. subst r. unfold toDataURL. auto.
Qed.

(** C6 (as the code has it).  Without reviver and plugins, a string that
    does not match the token shape is returned as it is, and so is a string
    [data:<type>,<value>] (type not empty, no comma in type and value) whose
    type component, cut at its first colon, is none of [undefined],
    [number], [bigint], [date].  The type component is compared only up to
    its first colon: when that part is [number] and the payload is [NaN],
    the string is decoded to the number [NaN], whatever follows the colon.
    The strings of the token shape are exactly these strings. *)
Theorem token_type_decides (key : jsstring) :
  (forall s, token_shape s = false ->
             revive None [] key (VString s) = Ok (VString s))
  /\ (forall type value,
        nonempty type = true ->
        forallb not_comma type = true ->
        forallb not_comma value = true ->
        let s := lit "data:" ++ type ++ c_comma :: value in
        token_shape s = true
        /\ (~ In (until c_colon type) known_types ->
            revive None [] key (VString s) = Ok (VString s))
        /\ (until c_colon type = lit "number" -> value = lit "NaN" ->
            revive None [] key (VString s) = Ok (VNumber NaN)))
  /\ (forall s, token_shape s = true ->
        exists type value,
          s = lit "data:" ++ type ++ c_comma :: value
          /\ nonempty type = true
          /\ forallb not_comma type = true
          /\ forallb not_comma value = true).
Proof.
  split; [| split].
  - intros s Hs. apply unrecognized_token_stays_string. now left.
  - intros type value Hne Ht Hv s.
    change s with (toDataURL type value). clear s.
    destruct (token_parts type value Ht Hne Hv) as [Hs _].
    split; [exact Hs |]. split.
    + intros Hout. apply unrecognized_token_stays_string. right.
      intros name Hin. rewrite (token_type_head type value Ht).
      intros E. injection E as E. apply Hout. now rewrite E.
    + intros Etype ->. unfold revive. rewrite Hs. unfold decode_tag.
      rewrite (token_type_head type (lit "NaN") Ht), Etype.
      rewrite (token_value type (lit "NaN") Ht eq_refl).
      reflexivity.
  - apply token_shape_parts.
Qed.

(** C6 (counterexample).  The type component [number:x] is none of the four
    types, yet the string [data:number:x,NaN] is decoded to [NaN]; and the
    string [data:bigint:foo,1.5], whose type component is none of the four
    either, makes [parse] throw a SyntaxError. *)
Lemma colon_in_type_is_decoded :
  (In (lit "number:x") known_types -> False)
  /\ revive None [] [] (VString (lit "data:number:x,NaN"))
     = Ok (VNumber NaN)
  /\ parse create ([c_dquote] ++ lit "data:number:x,NaN" ++ [c_dquote]) None
     = Ok (VNumber NaN)
  /\ (In (lit "bigint:foo") known_types -> False)
  /\ parse create ([c_dquote] ++ lit "data:bigint:foo,1.5" ++ [c_dquote])
       None
     = Abort SyntaxError.
Proof.
  assert (Hout : forall t, In t known_types ->
                   forallb (fun c => negb (c =? c_colon)%N) t = true).
  { intros t Hin. simpl in Hin.
    repeat (destruct Hin as [<- | Hin]; [reflexivity |]). contradiction. }
  split; [intros Hin; now apply Hout in Hin |].
  split; [reflexivity |]. split; [reflexivity |].
  split; [intros Hin; now apply Hout in Hin | reflexivity].
Qed.

(** ** The sweep *)

(** C8.  On the document the reviver walk hands over (distinct keys in every
    object, a root that is neither [null] nor [undefined], so that the sweep
    can start), the sweep ends with an empty queue within as many iterations
    as the document has nodes; every array and object reachable from the
    root has been dequeued; the result is the document with [undefined] in
    every field that held the sentinel, at every depth, and every other
    field as it was; and no field of the result holds the sentinel.  So
    whatever [parse] returns without reviver and plugins holds the sentinel
    in no field. *)
Theorem sweep_complete :
  (forall json,
      distinct_keys json = true -> json <> VNull -> json <> VUndefined ->
      sweep (nodes json) json [[]] = Ok (clean json)
      /\ (forall r, reachable json r ->
                    In r (visited (nodes json) json [[]]))
      /\ marker_free (clean json) = true)
  /\ (forall text result,
        parse create text None = Ok result -> marker_free result = true).
Proof.
  split.
  - intros json Hd Hn Hu. split; [now apply sweep_clean |].
    split; [intros r Hr; now apply visited_all | apply clean_marker_free].
  - intros text result H. apply parse_result_clean in H.
    destruct H as [json [_ ->]]. apply clean_marker_free.
Qed.

Lemma sweep_complete_witness :
  sweep 6
    (VObject [(lit "a", undefinedSymbol);
              (lit "b", VArray [VObject [(lit "c", undefinedSymbol)];
                                undefinedSymbol])])
    [[]]
  = Ok (VObject [(lit "a", VUndefined);
                 (lit "b", VArray [VObject [(lit "c", VUndefined)];
                                   VUndefined])])
  /\ In [lit "b"; lit "0"]
       (visited 6
          (VObject [(lit "a", undefinedSymbol);
                    (lit "b", VArray [VObject [(lit "c", undefinedSymbol)];
                                      undefinedSymbol])])
          [[]]).
Proof.
  destruct (proj1 sweep_complete
              (VObject [(lit "a", undefinedSymbol);
                        (lit "b", VArray [VObject [(lit "c",
                                                    undefinedSymbol)];
                                          undefinedSymbol])])
              eq_refl ltac:(discriminate) ltac:(discriminate))
    as [Hs [Hv _]].
  split; [exact Hs |].
  apply Hv.
  apply (reachable_field _ [lit "b"] (lit "0")); [| reflexivity].
  apply (reachable_field _ [] (lit "b")); [| reflexivity].
  apply reachable_root.
Defined.

(** ** The plain subset and the host format *)





